(** * Bunga Daisy: the animation engine, embedded and verified

    A shallow embedding of the state machines and physics updates of the
    interactive daisy scene:

    - [EntranceAnimation] (the entrance sequencer) and [StateManager]
      (idle / curiosity / night shift) read the wall clock
      ([performance.now()]); the clock reading is an explicit argument and
      times are rationals ([Q]), so every definition computes.
    - [WindField], [Petal], [PetalManager], [Stem] and [CorePulse] use
      [Math.sin], [Math.sqrt], [Math.atan2] and friends; JavaScript
      numbers are idealised as real numbers ([R]).  Random draws
      ([Math.random()]) and clock readings are explicit arguments, and
      [setTimeout] is a queue of pending timers.

    Callbacks registered by the orchestrator are opaque closures; a callback
    slot is modelled by a flag (registered or [null]) and each invocation is
    appended to a trace kept in the state. *)

From Stdlib Require Import ZArith QArith Qminmax Reals Lqa Lra Lia List Bool.
From stdpp Require Import gmap strings list.

Set Default Proof Using "Type".

(* ===================================================================== *)
(** * Part I: the embedding                                               *)
(* ===================================================================== *)

(** ** config.js *)

Module TIMING.
(** Entrance animation stages, in milliseconds. *)
Record StageWindow : Type := { start : Q; end_ : Q }.

Definition stageA : StageWindow := {| start := 0%Q; end_ := 1500%Q |}.
Definition stageB : StageWindow := {| start := 1500%Q; end_ := 4000%Q |}.
Definition stageC : StageWindow := {| start := 4000%Q; end_ := 7000%Q |}.
Definition stageD : StageWindow := {| start := 7000%Q; end_ := 9000%Q |}.

(** Interactions *)
Definition rippleDelay : R := 40%R.
Definition shimmerDuration : R := 300%R.

(** States *)
Definition idleTimeout : Q := 10000%Q.
Definition curiosityDuration : Q := 5000%Q.
Definition nightShiftThreshold : Q := 90000%Q.
Definition nightTransitionDuration : Q := 60000%Q.
End TIMING.

Module Easing.
Local Open Scope Q_scope.
(** [cubicInOut]: [t < 0.5 ? 4*t*t*t : 1 - Math.pow(-2*t + 2, 3) / 2]. *)
Definition cubicInOut (t : Q) : Q :=
  if Qlt_le_dec t 0.5 then 4 * t * t * t
  else 1 - ((-2 * t + 2) ^ 3) / 2.

(** Ease in cubic: [t * t * t]. *)
Definition cubicIn (t : Q) : Q := t * t * t.

(** Smooth step: [t * t * (3 - 2 * t)]. *)
Definition smoothStep (t : Q) : Q := t * t * (3 - 2 * t).
End Easing.

Module PHYSICS.
Local Open Scope R_scope.
(** Petals *)
Definition petalCount : nat := 36.
Definition petalTiltMax : R := 4.   (* degrees *)
Definition petalSpinAngle : R := 10. (* degrees on click *)
(** Center *)
Definition centerPulseSpeed : R := 0.8.
Definition centerPulseAmount : R := 0.02.
Definition centerBloomScale : R := 1.03.
(** Wind *)
Definition windBaseStrength : R := 0.3.
Definition windGustStrength : R := 0.8.
Definition windNoiseScale : R := 0.002.
Definition windNoiseSpeed : R := 0.0005.
End PHYSICS.

(** ** JavaScript numbers as reals *)

Record Vec2 : Type := mkVec2 { vx : R; vy : R }.

Module JSMath.
Local Open Scope R_scope.

(** [Math.hypot(x, y)] *)
Definition hypot (x y : R) : R := sqrt (x * x + y * y).

(** [Math.floor] and [Math.ceil], as integers. *)
Definition floor (x : R) : Z := Zfloor x.
Definition ceil (x : R) : Z := Zceil x.

(** [Math.pow(b, e)] for a positive base. *)
Definition pow (b e : R) : R := Rpower b e.

(** [Math.atan2(y, x)], with values in (-PI, PI].  Real numbers have no
    signed zero; a zero argument stands for the float +0, so that
    [atan2 0 0] is [Math.atan2(0, 0) = 0]. *)
Definition atan2 (y x : R) : R :=
  if Rlt_dec 0 x then atan (y / x)
  else if Rlt_dec x 0 then
    if Rle_dec 0 y then atan (y / x) + PI else atan (y / x) - PI
  else
    if Rlt_dec 0 y then PI / 2
    else if Rlt_dec y 0 then - (PI / 2) else 0.

(** [Math.atan2(y, -x)].  The negation turns a zero [x] into the float
    -0, and [Math.atan2(0, -0)] is PI; away from [x = 0] the value is
    [atan2 y (- x)]. *)
Definition atan2_neg (y x : R) : R :=
  if Req_dec_T x 0 then
    if Rlt_dec 0 y then PI / 2
    else if Rlt_dec y 0 then - (PI / 2) else PI
  else atan2 y (- x).

(** [a < b] and [a <= b] as booleans. *)
Definition ltb (a b : R) : bool := if Rlt_dec a b then true else false.
Definition leb (a b : R) : bool := if Rle_dec a b then true else false.

End JSMath.

Module Utils.
Local Open Scope R_scope.

Definition lerp (a b t : R) : R := a + (b - a) * t.

(** [randomRange(min, max)], with [u] the draw of [Math.random()]. *)
Definition randomRange (u min max : R) : R := u * (max - min) + min.

Definition degToRad (deg : R) : R := deg * (PI / 180).

Definition radToDeg (rad : R) : R := rad * (180 / PI).

(** [clamp(value, min, max)]: [Math.max(min, Math.min(max, value))]. *)
Definition clamp (value min max : R) : R := Rmax min (Rmin max value).

Definition mapRange (value inMin inMax outMin outMax : R) : R :=
  outMin + (outMax - outMin) * ((value - inMin) / (inMax - inMin)).

(** [randomInt(min, max)] for integer bounds, with [u] the draw of
    [Math.random()]. *)
Definition randomInt (u : R) (min max : Z) : Z :=
  (JSMath.floor (u * IZR (max - min + 1)) + min)%Z.

Definition distance (x1 y1 x2 y2 : R) : R := JSMath.hypot (x2 - x1) (y2 - y1).

(** [normalize(x, y)]: [len = Math.hypot(x, y) || 1]. *)
Definition normalize (x y : R) : Vec2 :=
  let h := JSMath.hypot x y in
  let len := if Req_dec_T h 0 then 1 else h in
  {| vx := x / len; vy := y / len |}.

End Utils.

(** Easing functions of config.js used by the physics modules. *)
Module EasingR.
Local Open Scope R_scope.
(** [cubicOut]: [1 - Math.pow(1 - t, 3)]. *)
Definition cubicOut (t : R) : R := 1 - (1 - t) ^ 3.
End EasingR.

(** ** EntranceAnimation.js *)

Module EntranceAnimation.
Local Open Scope Q_scope.

(** Values of [currentStage] other than [null]. *)
Inductive StageName : Type := A | B | C | D | complete.

(** The five callback slots of [stageCallbacks]. *)
Inductive Callback : Type :=
  cbStageA | cbStageB | cbStageC | cbStageD | cbComplete.

Definition Callback_eq_dec (x y : Callback) : {x = y} + {x <> y}.
Proof. decide equality. Defined.

(** A slot holds [true] when a function is registered, [false] for [null]. *)
Record Callbacks : Type := {
  cb_stageA : bool;
  cb_stageB : bool;
  cb_stageC : bool;
  cb_stageD : bool;
  cb_complete : bool
}.

Record Triggered : Type := {
  trig_A : bool;
  trig_B : bool;
  trig_C : bool;
  trig_D : bool
}.

Record t : Type := {
  startTime : Q;
  isPlaying : bool;
  isComplete : bool;
  currentStage : option StageName;
  stageCallbacks : Callbacks;
  triggeredStages : Triggered;
  (** trace of the callbacks invoked so far, oldest first *)
  fired : list Callback
}.

Definition new : t := {|
  startTime := 0;
  isPlaying := false;
  isComplete := false;
  currentStage := None;
  stageCallbacks := {| cb_stageA := false; cb_stageB := false;
                       cb_stageC := false; cb_stageD := false;
                       cb_complete := false |};
  triggeredStages := {| trig_A := false; trig_B := false;
                        trig_C := false; trig_D := false |};
  fired := []
|}.

Definition set_callbacks (c : Callbacks) (s : t) : t :=
  {| startTime := startTime s; isPlaying := isPlaying s;
     isComplete := isComplete s; currentStage := currentStage s;
     stageCallbacks := c; triggeredStages := triggeredStages s;
     fired := fired s |}.

Definition set_triggered (g : Triggered) (s : t) : t :=
  {| startTime := startTime s; isPlaying := isPlaying s;
     isComplete := isComplete s; currentStage := currentStage s;
     stageCallbacks := stageCallbacks s; triggeredStages := g;
     fired := fired s |}.

Definition set_currentStage (c : option StageName) (s : t) : t :=
  {| startTime := startTime s; isPlaying := isPlaying s;
     isComplete := isComplete s; currentStage := c;
     stageCallbacks := stageCallbacks s;
     triggeredStages := triggeredStages s; fired := fired s |}.

(** Register callbacks for each stage. *)
Definition onStageA (s : t) : t :=
  let c := stageCallbacks s in
  set_callbacks {| cb_stageA := true; cb_stageB := cb_stageB c;
                   cb_stageC := cb_stageC c; cb_stageD := cb_stageD c;
                   cb_complete := cb_complete c |} s.
Definition onStageB (s : t) : t :=
  let c := stageCallbacks s in
  set_callbacks {| cb_stageA := cb_stageA c; cb_stageB := true;
                   cb_stageC := cb_stageC c; cb_stageD := cb_stageD c;
                   cb_complete := cb_complete c |} s.
Definition onStageC (s : t) : t :=
  let c := stageCallbacks s in
  set_callbacks {| cb_stageA := cb_stageA c; cb_stageB := cb_stageB c;
                   cb_stageC := true; cb_stageD := cb_stageD c;
                   cb_complete := cb_complete c |} s.
Definition onStageD (s : t) : t :=
  let c := stageCallbacks s in
  set_callbacks {| cb_stageA := cb_stageA c; cb_stageB := cb_stageB c;
                   cb_stageC := cb_stageC c; cb_stageD := true;
                   cb_complete := cb_complete c |} s.
Definition onComplete (s : t) : t :=
  let c := stageCallbacks s in
  set_callbacks {| cb_stageA := cb_stageA c; cb_stageB := cb_stageB c;
                   cb_stageC := cb_stageC c; cb_stageD := cb_stageD c;
                   cb_complete := true |} s.

(** [if (slot) slot();] *)
Definition invoke (registered : bool) (c : Callback) (s : t) : t :=
  if registered then
    {| startTime := startTime s; isPlaying := isPlaying s;
       isComplete := isComplete s; currentStage := currentStage s;
       stageCallbacks := stageCallbacks s;
       triggeredStages := triggeredStages s;
       fired := fired s ++ [c] |}
  else s.

(** [start()], with [now] the reading of [performance.now()]. *)
Definition start (now : Q) (s : t) : t :=
  let s := {| startTime := now; isPlaying := true;
              isComplete := isComplete s; currentStage := Some A;
              stageCallbacks := stageCallbacks s;
              triggeredStages := triggeredStages s; fired := fired s |} in
  (* Trigger Stage A immediately *)
  let s := invoke (cb_stageA (stageCallbacks s)) cbStageA s in
  let g := triggeredStages s in
  set_triggered {| trig_A := true; trig_B := trig_B g;
                   trig_C := trig_C g; trig_D := trig_D g |} s.

Definition enterB (s : t) : t :=
  let s := set_currentStage (Some B) s in
  let g := triggeredStages s in
  let s := set_triggered {| trig_A := trig_A g; trig_B := true;
                            trig_C := trig_C g; trig_D := trig_D g |} s in
  invoke (cb_stageB (stageCallbacks s)) cbStageB s.

Definition enterC (s : t) : t :=
  let s := set_currentStage (Some C) s in
  let g := triggeredStages s in
  let s := set_triggered {| trig_A := trig_A g; trig_B := trig_B g;
                            trig_C := true; trig_D := trig_D g |} s in
  invoke (cb_stageC (stageCallbacks s)) cbStageC s.

Definition enterD (s : t) : t :=
  let s := set_currentStage (Some D) s in
  let g := triggeredStages s in
  let s := set_triggered {| trig_A := trig_A g; trig_B := trig_B g;
                            trig_C := trig_C g; trig_D := true |} s in
  invoke (cb_stageD (stageCallbacks s)) cbStageD s.

Definition enterComplete (s : t) : t :=
  let s := {| startTime := startTime s; isPlaying := false;
              isComplete := true; currentStage := Some complete;
              stageCallbacks := stageCallbacks s;
              triggeredStages := triggeredStages s; fired := fired s |} in
  invoke (cb_complete (stageCallbacks s)) cbComplete s.

(** The four conditional blocks of [update()], in source order. *)

(* Stage B: Stem growth (1.5s - 4s) *)
Definition stepB (elapsed : Q) (s : t) : t :=
  if negb (trig_B (triggeredStages s))
     && Qle_bool (TIMING.start TIMING.stageB) elapsed
  then enterB s else s.

(* Stage C: Flower bloom (4s - 7s) *)
Definition stepC (elapsed : Q) (s : t) : t :=
  if negb (trig_C (triggeredStages s))
     && Qle_bool (TIMING.start TIMING.stageC) elapsed
  then enterC s else s.

(* Stage D: Wind gust and settle (7s - 9s) *)
Definition stepD (elapsed : Q) (s : t) : t :=
  if negb (trig_D (triggeredStages s))
     && Qle_bool (TIMING.start TIMING.stageD) elapsed
  then enterD s else s.

(* Complete *)
Definition stepComplete (elapsed : Q) (s : t) : t :=
  if Qle_bool (TIMING.end_ TIMING.stageD) elapsed
  then enterComplete s else s.

(** [update()], with [now] the reading of [performance.now()]. *)
Definition update (now : Q) (s : t) : t :=
  if negb (isPlaying s) || isComplete s then s
  else
    let elapsed := now - startTime s in
    stepComplete elapsed (stepD elapsed (stepC elapsed (stepB elapsed s))).

(** [TIMING[`stage${stage}`]] for the stage letters; any other key is
    [undefined]. *)
Definition timing_of (stage : StageName) : option TIMING.StageWindow :=
  match stage with
  | A => Some TIMING.stageA
  | B => Some TIMING.stageB
  | C => Some TIMING.stageC
  | D => Some TIMING.stageD
  | complete => None
  end.

(** Get progress for a specific stage (0-1). *)
Definition getStageProgress (now : Q) (stage : StageName) (s : t) : Q :=
  if negb (isPlaying s) && negb (isComplete s) then 0
  else
    let elapsed := now - startTime s in
    match timing_of stage with
    | None => 0
    | Some timing =>
        if Qlt_le_dec elapsed (TIMING.start timing) then 0
        else if Qle_bool (TIMING.end_ timing) elapsed then 1
        else (elapsed - TIMING.start timing)
             / (TIMING.end_ timing - TIMING.start timing)
    end.

Definition getEasedProgress (now : Q) (stage : StageName) (s : t) : Q :=
  Easing.cubicInOut (getStageProgress now stage s).

Definition getCurrentStage (s : t) : option StageName := currentStage s.
Definition getIsComplete (s : t) : bool := isComplete s.

(** A run of the sequencer: all five callbacks registered, [start()] at
    clock [t0], then one [update()] per clock reading in [nows]. *)
Definition registered : t :=
  onComplete (onStageD (onStageC (onStageB (onStageA new)))).

Definition updates (nows : list Q) (s : t) : t :=
  fold_left (fun s now => update now s) nows s.

Definition run (t0 : Q) (nows : list Q) : t :=
  updates nows (start t0 registered).

(** How often callback [c] has fired. *)
Definition count_fired (c : Callback) (s : t) : nat :=
  count_occ Callback_eq_dec (fired s) c.

(** The elapsed-time threshold at which a callback is due. *)
Definition threshold (c : Callback) : Q :=
  match c with
  | cbStageA => TIMING.start TIMING.stageA
  | cbStageB => TIMING.start TIMING.stageB
  | cbStageC => TIMING.start TIMING.stageC
  | cbStageD => TIMING.start TIMING.stageD
  | cbComplete => TIMING.end_ TIMING.stageD
  end.

(** Some [update()] of the run saw an elapsed time of at least [thr]. *)
Definition reached (thr t0 : Q) (nows : list Q) : bool :=
  existsb (fun now => Qle_bool thr (now - t0)) nows.

Definition all_callbacks : list Callback :=
  [cbStageA; cbStageB; cbStageC; cbStageD; cbComplete].

(** [update()] at clock [now] sees callback [c] due. *)
Definition due (c : Callback) (t0 now : Q) : bool :=
  Qle_bool (threshold c) (now - t0).

(** The states of a run, by the transitions taken so far: [b], [c], [d]
    for stages B, C, D and [k] for completion. *)
Definition st (t0 : Q) (b c d k : bool) : t := {|
  startTime := t0;
  isPlaying := negb k;
  isComplete := k;
  currentStage :=
    Some (if k then complete else if d then D else if c then C
          else if b then B else A);
  stageCallbacks := {| cb_stageA := true; cb_stageB := true;
                       cb_stageC := true; cb_stageD := true;
                       cb_complete := true |};
  triggeredStages := {| trig_A := true; trig_B := b;
                        trig_C := c; trig_D := d |};
  fired := cbStageA :: (if b then [cbStageB] else [])
             ++ (if c then [cbStageC] else [])
             ++ (if d then [cbStageD] else [])
             ++ (if k then [cbComplete] else [])
|}.

(** Position of a value of [currentStage] in the sequence
    [null], A, B, C, D, complete. *)
Definition stage_rank (o : option StageName) : nat :=
  match o with
  | None => 0
  | Some A => 1
  | Some B => 2
  | Some C => 3
  | Some D => 4
  | Some complete => 5
  end.

(** Transitions are taken in order: a later one implies the earlier. *)
Definition chain (b c d k : bool) : Prop :=
  (k = true -> d = true) /\ (d = true -> c = true) /\ (c = true -> b = true).

End EntranceAnimation.

(** ** StateManager.js *)

Module StateManager.
Local Open Scope Q_scope.

(** Invocations of the registered callbacks, with their arguments. *)
Inductive Event : Type :=
| IdleStart
| IdleEnd
| CuriosityStart (x y : Q)
| CuriosityEnd
| NightShift (progress : Q).

(** A slot holds [true] when a function is registered, [false] for [null]. *)
Record Callbacks : Type := {
  cb_onIdleStart : bool;
  cb_onIdleEnd : bool;
  cb_onCuriosityStart : bool;
  cb_onCuriosityEnd : bool;
  cb_onNightShift : bool
}.

Record t : Type := {
  (* Idle state *)
  lastInteractionTime : Q;
  isIdle : bool;
  (* Curiosity mode *)
  interactionCount : Z;
  interactionTypes : gset string;
  curiosityActive : bool;
  curiosityEndTime : Q;
  lastCursorX : Q;
  lastCursorY : Q;
  (* Night shift *)
  sessionStartTime : Q;
  nightShiftActive : bool;
  nightShiftProgress : Q;
  (* Callbacks *)
  callbacks : Callbacks;
  (** trace of the callbacks invoked so far, oldest first *)
  trace : list Event
}.

(** The constructor reads the clock twice: [now1] for
    [lastInteractionTime], [now2] for [sessionStartTime]. *)
Definition new (now1 now2 : Q) : t := {|
  lastInteractionTime := now1;
  isIdle := false;
  interactionCount := 0%Z;
  interactionTypes := ∅;
  curiosityActive := false;
  curiosityEndTime := 0;
  lastCursorX := 0;
  lastCursorY := 0;
  sessionStartTime := now2;
  nightShiftActive := false;
  nightShiftProgress := 0;
  callbacks := {| cb_onIdleStart := false; cb_onIdleEnd := false;
                  cb_onCuriosityStart := false; cb_onCuriosityEnd := false;
                  cb_onNightShift := false |};
  trace := []
|}.

Definition set_callbacks (c : Callbacks) (s : t) : t :=
  {| lastInteractionTime := lastInteractionTime s; isIdle := isIdle s;
     interactionCount := interactionCount s;
     interactionTypes := interactionTypes s;
     curiosityActive := curiosityActive s;
     curiosityEndTime := curiosityEndTime s;
     lastCursorX := lastCursorX s; lastCursorY := lastCursorY s;
     sessionStartTime := sessionStartTime s;
     nightShiftActive := nightShiftActive s;
     nightShiftProgress := nightShiftProgress s;
     callbacks := c; trace := trace s |}.

(** Register callbacks *)
Definition onIdleStart (s : t) : t :=
  let c := callbacks s in
  set_callbacks {| cb_onIdleStart := true; cb_onIdleEnd := cb_onIdleEnd c;
                   cb_onCuriosityStart := cb_onCuriosityStart c;
                   cb_onCuriosityEnd := cb_onCuriosityEnd c;
                   cb_onNightShift := cb_onNightShift c |} s.
Definition onIdleEnd (s : t) : t :=
  let c := callbacks s in
  set_callbacks {| cb_onIdleStart := cb_onIdleStart c; cb_onIdleEnd := true;
                   cb_onCuriosityStart := cb_onCuriosityStart c;
                   cb_onCuriosityEnd := cb_onCuriosityEnd c;
                   cb_onNightShift := cb_onNightShift c |} s.
Definition onCuriosityStart (s : t) : t :=
  let c := callbacks s in
  set_callbacks {| cb_onIdleStart := cb_onIdleStart c;
                   cb_onIdleEnd := cb_onIdleEnd c;
                   cb_onCuriosityStart := true;
                   cb_onCuriosityEnd := cb_onCuriosityEnd c;
                   cb_onNightShift := cb_onNightShift c |} s.
Definition onCuriosityEnd (s : t) : t :=
  let c := callbacks s in
  set_callbacks {| cb_onIdleStart := cb_onIdleStart c;
                   cb_onIdleEnd := cb_onIdleEnd c;
                   cb_onCuriosityStart := cb_onCuriosityStart c;
                   cb_onCuriosityEnd := true;
                   cb_onNightShift := cb_onNightShift c |} s.
Definition onNightShift (s : t) : t :=
  let c := callbacks s in
  set_callbacks {| cb_onIdleStart := cb_onIdleStart c;
                   cb_onIdleEnd := cb_onIdleEnd c;
                   cb_onCuriosityStart := cb_onCuriosityStart c;
                   cb_onCuriosityEnd := cb_onCuriosityEnd c;
                   cb_onNightShift := true |} s.

(** [if (slot) slot(args);] *)
Definition invoke (registered : bool) (e : Event) (s : t) : t :=
  if registered then
    {| lastInteractionTime := lastInteractionTime s; isIdle := isIdle s;
       interactionCount := interactionCount s;
       interactionTypes := interactionTypes s;
       curiosityActive := curiosityActive s;
       curiosityEndTime := curiosityEndTime s;
       lastCursorX := lastCursorX s; lastCursorY := lastCursorY s;
       sessionStartTime := sessionStartTime s;
       nightShiftActive := nightShiftActive s;
       nightShiftProgress := nightShiftProgress s;
       callbacks := callbacks s; trace := trace s ++ [e] |}
  else s.

(** [activateCuriosity()], with [now] the reading of [performance.now()]. *)
Definition activateCuriosity (now : Q) (s : t) : t :=
  let s :=
    {| lastInteractionTime := lastInteractionTime s; isIdle := isIdle s;
       interactionCount := interactionCount s;
       interactionTypes := interactionTypes s;
       curiosityActive := true;
       curiosityEndTime := now + TIMING.curiosityDuration;
       lastCursorX := lastCursorX s; lastCursorY := lastCursorY s;
       sessionStartTime := sessionStartTime s;
       nightShiftActive := nightShiftActive s;
       nightShiftProgress := nightShiftProgress s;
       callbacks := callbacks s; trace := trace s |} in
  invoke (cb_onCuriosityStart (callbacks s))
         (CuriosityStart (lastCursorX s) (lastCursorY s)) s.

(** First half of [recordInteraction]: the idle bookkeeping. *)
Definition touch (now : Q) (s : t) : t :=
  let wasIdle := isIdle s in
  let s :=
    {| lastInteractionTime := now; isIdle := false;
       interactionCount := interactionCount s;
       interactionTypes := interactionTypes s;
       curiosityActive := curiosityActive s;
       curiosityEndTime := curiosityEndTime s;
       lastCursorX := lastCursorX s; lastCursorY := lastCursorY s;
       sessionStartTime := sessionStartTime s;
       nightShiftActive := nightShiftActive s;
       nightShiftProgress := nightShiftProgress s;
       callbacks := callbacks s; trace := trace s |} in
  invoke (wasIdle && cb_onIdleEnd (callbacks s)) IdleEnd s.

(** Track unique interaction types for curiosity mode. *)
Definition track (type : string) (cursorX cursorY : Q) (s : t) : t :=
  {| lastInteractionTime := lastInteractionTime s; isIdle := isIdle s;
     interactionCount := (interactionCount s + 1)%Z;
     interactionTypes := {[ type ]} ∪ interactionTypes s;
     curiosityActive := curiosityActive s;
     curiosityEndTime := curiosityEndTime s;
     lastCursorX := cursorX; lastCursorY := cursorY;
     sessionStartTime := sessionStartTime s;
     nightShiftActive := nightShiftActive s;
     nightShiftProgress := nightShiftProgress s;
     callbacks := callbacks s; trace := trace s |}.

(** [recordInteraction(type, cursorX, cursorY)].  The clock is read once
    for [lastInteractionTime] ([now]) and, when curiosity is activated,
    once more inside [activateCuriosity] ([now']). *)
Definition recordInteraction (now now' : Q) (type : string)
    (cursorX cursorY : Q) (s : t) : t :=
  let s := touch now s in
  let s := track type cursorX cursorY s in
  (* Activate curiosity mode after 3 different types *)
  if (3 <=? size (interactionTypes s))%nat && negb (curiosityActive s)
  then activateCuriosity now' s
  else s.

(** The conditional blocks of [update()], in source order. *)

(* Check idle *)
Definition stepIdle (now : Q) (s : t) : t :=
  if negb (isIdle s)
     && (if Qlt_le_dec TIMING.idleTimeout (now - lastInteractionTime s)
         then true else false)
  then
    let s :=
      {| lastInteractionTime := lastInteractionTime s; isIdle := true;
         interactionCount := interactionCount s;
         interactionTypes := interactionTypes s;
         curiosityActive := curiosityActive s;
         curiosityEndTime := curiosityEndTime s;
         lastCursorX := lastCursorX s; lastCursorY := lastCursorY s;
         sessionStartTime := sessionStartTime s;
         nightShiftActive := nightShiftActive s;
         nightShiftProgress := nightShiftProgress s;
         callbacks := callbacks s; trace := trace s |} in
    invoke (cb_onIdleStart (callbacks s)) IdleStart s
  else s.

(* Check curiosity mode expiration *)
Definition stepCuriosity (now : Q) (s : t) : t :=
  if curiosityActive s && Qle_bool (curiosityEndTime s) now
  then
    let s :=
      {| lastInteractionTime := lastInteractionTime s; isIdle := isIdle s;
         interactionCount := interactionCount s;
         interactionTypes := ∅;
         curiosityActive := false;
         curiosityEndTime := curiosityEndTime s;
         lastCursorX := lastCursorX s; lastCursorY := lastCursorY s;
         sessionStartTime := sessionStartTime s;
         nightShiftActive := nightShiftActive s;
         nightShiftProgress := nightShiftProgress s;
         callbacks := callbacks s; trace := trace s |} in
    invoke (cb_onCuriosityEnd (callbacks s)) CuriosityEnd s
  else s.

Definition set_night (active : bool) (progress : Q) (s : t) : t :=
  {| lastInteractionTime := lastInteractionTime s; isIdle := isIdle s;
     interactionCount := interactionCount s;
     interactionTypes := interactionTypes s;
     curiosityActive := curiosityActive s;
     curiosityEndTime := curiosityEndTime s;
     lastCursorX := lastCursorX s; lastCursorY := lastCursorY s;
     sessionStartTime := sessionStartTime s;
     nightShiftActive := active;
     nightShiftProgress := progress;
     callbacks := callbacks s; trace := trace s |}.

(* Check night shift *)
Definition stepNightActivate (now : Q) (s : t) : t :=
  let sessionDuration := now - sessionStartTime s in
  if negb (nightShiftActive s)
     && (if Qlt_le_dec TIMING.nightShiftThreshold sessionDuration
         then true else false)
  then set_night true (nightShiftProgress s) s
  else s.

(* Progress night shift over 60 seconds *)
Definition stepNightProgress (now : Q) (s : t) : t :=
  if nightShiftActive s then
    let nightStartTime := sessionStartTime s + TIMING.nightShiftThreshold in
    let nightProgress :=
      (now - nightStartTime) / TIMING.nightTransitionDuration in
    if Qlt_le_dec (nightShiftProgress s) nightProgress then
      let s := set_night (nightShiftActive s) (Qmin 1 nightProgress) s in
      invoke (cb_onNightShift (callbacks s))
             (NightShift (nightShiftProgress s)) s
    else s
  else s.

(** [update()], with [now] the reading of [performance.now()]. *)
Definition update (now : Q) (s : t) : t :=
  stepNightProgress now
    (stepNightActivate now (stepCuriosity now (stepIdle now s))).

Definition getIsIdle (s : t) : bool := isIdle s.
Definition getCuriosityActive (s : t) : bool := curiosityActive s.
Definition getNightProgress (s : t) : Q := nightShiftProgress s.

(** Reset session (for testing) *)
Definition resetSession (now : Q) (s : t) : t :=
  {| lastInteractionTime := lastInteractionTime s; isIdle := isIdle s;
     interactionCount := interactionCount s;
     interactionTypes := interactionTypes s;
     curiosityActive := curiosityActive s;
     curiosityEndTime := curiosityEndTime s;
     lastCursorX := lastCursorX s; lastCursorY := lastCursorY s;
     sessionStartTime := now;
     nightShiftActive := false;
     nightShiftProgress := 0;
     callbacks := callbacks s; trace := trace s |}.

(** One [update()] per clock reading. *)
Definition updates (nows : list Q) (s : t) : t :=
  fold_left (fun s now => update now s) nows s.

(** A manager with every callback registered. *)
Definition registered (now1 now2 : Q) : t :=
  onNightShift (onCuriosityEnd (onCuriosityStart
    (onIdleEnd (onIdleStart (new now1 now2))))).

(** The calls made on a manager by the application. *)
Inductive op : Type :=
| OpRecord (now now' : Q) (type : string) (cursorX cursorY : Q)
| OpUpdate (now : Q).

Definition apply (o : op) (s : t) : t :=
  match o with
  | OpRecord now now' type x y => recordInteraction now now' type x y s
  | OpUpdate now => update now s
  end.

(** A manager's history: the calls made on it, oldest first. *)
Definition history (ops : list op) (s : t) : t :=
  fold_left (fun s o => apply o s) ops s.

(** The idle flag implied by a trace that starts in the flag [cur]:
    [None] when an [IdleStart] arrives while idle or an [IdleEnd] while
    not idle. *)
Fixpoint idle_flag (cur : bool) (tr : list Event) : option bool :=
  match tr with
  | [] => Some cur
  | IdleStart :: rest => if cur then None else idle_flag true rest
  | IdleEnd :: rest => if cur then idle_flag false rest else None
  | _ :: rest => idle_flag cur rest
  end.

(** The interaction type of a recording call, if it is one. *)
Definition op_type (o : op) : option string :=
  match o with
  | OpRecord _ _ type _ _ => Some type
  | OpUpdate _ => None
  end.

(** The clock reading of an [update()] call, if it is one. *)
Definition op_clock (o : op) : option Q :=
  match o with
  | OpRecord _ _ _ _ _ => None
  | OpUpdate now => Some now
  end.

(** The night progress reached at clock [now] by a session started at
    [start] whose clock never ran backwards. *)
Definition night_ramp (start now : Q) : Q :=
  if Qlt_le_dec TIMING.nightShiftThreshold (now - start)
  then Qmin 1 ((now - (start + TIMING.nightShiftThreshold))
               / TIMING.nightTransitionDuration)
  else 0.

(** What a history keeps true of the night fields when none of its
    [update()] calls read a clock later than [bound]. *)
Definition night_inv (start bound : Q) (s : t) : Prop :=
  sessionStartTime s = start
  /\ (nightShiftActive s = true ->
      TIMING.nightShiftThreshold < bound - start)
  /\ 0 <= nightShiftProgress s
  /\ nightShiftProgress s <= night_ramp start bound.

Definition is_CuriosityStart (e : Event) : bool :=
  match e with CuriosityStart _ _ => true | _ => false end.

Definition is_NightShift (e : Event) : bool :=
  match e with NightShift _ => true | _ => false end.

(** How often [onCuriosityStart] / [onNightShift] have been invoked. *)
Definition count_CuriosityStart (s : t) : nat :=
  length (List.filter is_CuriosityStart (trace s)).

Definition count_NightShift (s : t) : nat :=
  length (List.filter is_NightShift (trace s)).

End StateManager.

(** ** WindField.js *)

Module WindField.
Local Open Scope R_scope.

Record t : Type := {
  width : R;
  height : R;
  (* Wind state *)
  baseWind : Vec2;
  currentWind : Vec2;
  gustWind : Vec2;
  (* Noise offset for smooth animation *)
  noiseOffset : R;
  (* Cursor influence *)
  cursorInfluence : Vec2;
  lastCursorX : R;
  lastCursorY : R;
  (* Gust system *)
  gustActive : bool;
  gustProgress : R;
  gustDuration : R;
  gustDirection : Vec2;
  (* Perlin noise permutation table *)
  perm : list Z
}.

(** [[p[i], p[j]] = [p[j], p[i]]] *)
Definition swap (i j : nat) (p : list Z) : list Z :=
  match p !! i, p !! j with
  | Some a, Some b => <[ j := a ]> (<[ i := b ]> p)
  | _, _ => p
  end.

(** The shuffle loop [for (let i = 255; i > 0; i--)], counted down by
    [n]; [rand i] is the draw of [Math.random()] in iteration [i]. *)
Fixpoint shuffle (rand : nat -> R) (n : nat) (p : list Z) : list Z :=
  match n with
  | O => p
  | S m =>
      let i := n in
      let j := Z.to_nat (JSMath.floor (rand i * INR (i + 1))) in
      shuffle rand m (swap i j p)
  end.

Definition generatePermutation (rand : nat -> R) : list Z :=
  let p := List.map Z.of_nat (seq 0 256) in
  let p := shuffle rand 255 p in
  (* Duplicate for overflow *)
  p ++ p.

Definition new (width height : R) (rand : nat -> R) : t := {|
  width := width;
  height := height;
  baseWind := {| vx := 0.3; vy := 0 |};
  currentWind := {| vx := 0; vy := 0 |};
  gustWind := {| vx := 0; vy := 0 |};
  noiseOffset := 0;
  cursorInfluence := {| vx := 0; vy := 0 |};
  lastCursorX := 0;
  lastCursorY := 0;
  gustActive := false;
  gustProgress := 0;
  gustDuration := 2000;
  gustDirection := {| vx := 1; vy := 0 |};
  perm := generatePermutation rand
|}.

Definition fade (t : R) : R := t * t * t * (t * (t * 6 - 15) + 10).

Definition grad (hash : Z) (x y : R) : R :=
  let h := Z.land hash 3 in
  let u := if (h <? 2)%Z then x else y in
  let v := if (h <? 2)%Z then y else x in
  (if (Z.land h 1 =? 0)%Z then u else - u)
  + (if (Z.land h 2 =? 0)%Z then v else - v).

(** [this.perm[i]]; the table has 512 entries and every index used by
    [noise] is below 512. *)
Definition perm_at (w : t) (i : Z) : Z := nth (Z.to_nat i) (perm w) 0%Z.

(** Simplified Perlin noise *)
Definition noise (w : t) (x y : R) : R :=
  let X := Z.land (JSMath.floor x) 255 in
  let Y := Z.land (JSMath.floor y) 255 in
  let x := x - IZR (JSMath.floor x) in
  let y := y - IZR (JSMath.floor y) in
  let u := fade x in
  let v := fade y in
  let A := (perm_at w X + Y)%Z in
  let B := (perm_at w (X + 1) + Y)%Z in
  Utils.lerp
    (Utils.lerp (grad (perm_at w A) x y) (grad (perm_at w B) (x - 1) y) u)
    (Utils.lerp (grad (perm_at w (A + 1)) x (y - 1))
                (grad (perm_at w (B + 1)) (x - 1) (y - 1)) u)
    v.

Definition resize (width height : R) (w : t) : t :=
  {| width := width; height := height; baseWind := baseWind w;
     currentWind := currentWind w; gustWind := gustWind w;
     noiseOffset := noiseOffset w; cursorInfluence := cursorInfluence w;
     lastCursorX := lastCursorX w; lastCursorY := lastCursorY w;
     gustActive := gustActive w; gustProgress := gustProgress w;
     gustDuration := gustDuration w; gustDirection := gustDirection w;
     perm := perm w |}.

(** The blocks of [update], in source order. *)

(* Update noise offset and calculate base wind from noise *)
Definition stepNoise (deltaTime : R) (w : t) : t :=
  let noiseOffset' := noiseOffset w + PHYSICS.windNoiseSpeed * deltaTime in
  let w := {| width := width w; height := height w; baseWind := baseWind w;
              currentWind := currentWind w; gustWind := gustWind w;
              noiseOffset := noiseOffset';
              cursorInfluence := cursorInfluence w;
              lastCursorX := lastCursorX w; lastCursorY := lastCursorY w;
              gustActive := gustActive w; gustProgress := gustProgress w;
              gustDuration := gustDuration w;
              gustDirection := gustDirection w; perm := perm w |} in
  let noiseX := noise w (noiseOffset w) 0 * PHYSICS.windBaseStrength in
  let noiseY := noise w 0 (noiseOffset w) * PHYSICS.windBaseStrength * 0.3 in
  {| width := width w; height := height w;
     baseWind := {| vx := noiseX; vy := noiseY |};
     currentWind := currentWind w; gustWind := gustWind w;
     noiseOffset := noiseOffset w; cursorInfluence := cursorInfluence w;
     lastCursorX := lastCursorX w; lastCursorY := lastCursorY w;
     gustActive := gustActive w; gustProgress := gustProgress w;
     gustDuration := gustDuration w; gustDirection := gustDirection w;
     perm := perm w |}.

(* Cursor influence (based on movement velocity); an argument is [None]
   when it is [undefined] *)
Definition stepCursor (cursorX cursorY : option R) (w : t) : t :=
  match cursorX, cursorY with
  | Some cursorX, Some cursorY =>
      let dx := cursorX - lastCursorX w in
      let dy := cursorY - lastCursorY w in
      {| width := width w; height := height w; baseWind := baseWind w;
         currentWind := currentWind w; gustWind := gustWind w;
         noiseOffset := noiseOffset w;
         cursorInfluence :=
           {| vx := Utils.lerp (vx (cursorInfluence w)) (dx * 0.05) 0.1;
              vy := Utils.lerp (vy (cursorInfluence w)) (dy * 0.02) 0.1 |};
         lastCursorX := cursorX; lastCursorY := cursorY;
         gustActive := gustActive w; gustProgress := gustProgress w;
         gustDuration := gustDuration w; gustDirection := gustDirection w;
         perm := perm w |}
  | _, _ => w
  end.

Definition set_gust (active : bool) (progress : R) (gust : Vec2) (w : t) : t :=
  {| width := width w; height := height w; baseWind := baseWind w;
     currentWind := currentWind w; gustWind := gust;
     noiseOffset := noiseOffset w; cursorInfluence := cursorInfluence w;
     lastCursorX := lastCursorX w; lastCursorY := lastCursorY w;
     gustActive := active; gustProgress := progress;
     gustDuration := gustDuration w; gustDirection := gustDirection w;
     perm := perm w |}.

(** Gust envelope: quick rise, slow fall *)
Definition envelope (gustProgress : R) : R :=
  if Rlt_dec gustProgress 0.2
  then gustProgress / 0.2
  else 1 - ((gustProgress - 0.2) / 0.8).

(* Process active gust *)
Definition stepGust (deltaTime : R) (w : t) : t :=
  if gustActive w then
    let progress := gustProgress w + deltaTime / gustDuration w in
    if Rle_dec 1 progress then
      set_gust false 0 {| vx := 0; vy := 0 |} w
    else
      let strength := envelope progress * PHYSICS.windGustStrength in
      set_gust true progress
        {| vx := vx (gustDirection w) * strength;
           vy := vy (gustDirection w) * strength * 0.3 |} w
  else w.

(* Combine all wind sources *)
Definition stepCombine (w : t) : t :=
  {| width := width w; height := height w; baseWind := baseWind w;
     currentWind :=
       {| vx := vx (baseWind w) + vx (cursorInfluence w) + vx (gustWind w);
          vy := vy (baseWind w) + vy (cursorInfluence w) + vy (gustWind w) |};
     gustWind := gustWind w;
     noiseOffset := noiseOffset w; cursorInfluence := cursorInfluence w;
     lastCursorX := lastCursorX w; lastCursorY := lastCursorY w;
     gustActive := gustActive w; gustProgress := gustProgress w;
     gustDuration := gustDuration w; gustDirection := gustDirection w;
     perm := perm w |}.

Definition update (deltaTime : R) (cursorX cursorY : option R) (w : t) : t :=
  stepCombine (stepGust deltaTime (stepCursor cursorX cursorY
                                     (stepNoise deltaTime w))).

(** Trigger a wind gust (used in entrance animation) *)
Definition triggerGust (direction : Vec2) (duration : R) (w : t) : t :=
  {| width := width w; height := height w; baseWind := baseWind w;
     currentWind := currentWind w; gustWind := gustWind w;
     noiseOffset := noiseOffset w; cursorInfluence := cursorInfluence w;
     lastCursorX := lastCursorX w; lastCursorY := lastCursorY w;
     gustActive := true; gustProgress := 0;
     gustDuration := duration;
     gustDirection := Utils.normalize (vx direction) (vy direction);
     perm := perm w |}.

(** Get wind at a specific position (with spatial variation) *)
Definition getWindAt (x y : R) (w : t) : Vec2 :=
  let spatialNoise :=
    noise w (x * PHYSICS.windNoiseScale + noiseOffset w)
            (y * PHYSICS.windNoiseScale) in
  {| vx := vx (currentWind w) + spatialNoise * 0.1;
     vy := vy (currentWind w) + spatialNoise * 0.05 |}.

Definition getStrength (w : t) : R :=
  JSMath.hypot (vx (currentWind w)) (vy (currentWind w)).

Definition getDirection (w : t) : R :=
  JSMath.atan2 (vy (currentWind w)) (vx (currentWind w)).

(** A sequence of [update] calls, oldest first; each call is the frame
    time with the two cursor arguments. *)
Definition updates (calls : list (R * (option R * option R))) (w : t) : t :=
  fold_left (fun w c => update (fst c) (fst (snd c)) (snd (snd c)) w) calls w.

(** The frame time summed over a sequence of calls. *)
Definition elapsed (calls : list (R * (option R * option R))) : R :=
  fold_right (fun c acc => fst c + acc) 0 calls.



End WindField.

(** ** Exceptions and timers *)

(** Result of a call that may throw. *)
Inductive outcome (A : Type) : Type :=
| Returned (a : A)
| Thrown.
Arguments Returned {A} a.
Arguments Thrown {A}.

(** Sequencing: an exception ends the computation. *)
Definition bind {A B : Type} (o : outcome A) (k : A -> outcome B) : outcome B :=
  match o with
  | Returned a => k a
  | Thrown => Thrown
  end.

(** [o[i]] followed by a property read: a TypeError when the entry is
    [undefined]. *)
Definition at_index {A : Type} (l : list A) (i : nat) : outcome A :=
  match l !! i with
  | Some a => Returned a
  | None => Thrown
  end.

(** Reading a property of an argument that may be [undefined]. *)
Definition defined {A : Type} (o : option A) : outcome A :=
  match o with
  | Some a => Returned a
  | None => Thrown
  end.

(** A loop body run for each index of a list, left to right. *)
Fixpoint for_each {S : Type} (body : nat -> S -> outcome S) (idx : list nat)
    (s : S) : outcome S :=
  match idx with
  | [] => Returned s
  | i :: rest => bind (body i s) (for_each body rest)
  end.

(** The closures handed to [setTimeout] by the flower modules.  A closure
    over a petal is identified by the petal's index in
    [PetalManager.petals]. *)
Inductive TimerAction : Type :=
| PetalShow (index : nat)              (* [() => { this.visible = true; }] *)
| PetalResetScale (index : nat)        (* [() => { this.targetScale = 1; }] *)
| RippleFirst (sourceIndex : nat) (direction : Z)
| RippleSecond (neighborIndex : nat) (direction : Z)
| CoreResetPulse.                      (* [pulseIntensity] back to normal *)

Module Timers.
Local Open Scope R_scope.

(** A pending timer: the time at which it is due, and its closure. *)
Definition timer : Type := (R * TimerAction)%type.

(** The pending timers, in the order in which they will run: by due time,
    and among equal due times by order of registration. *)
Fixpoint insert (due : R) (a : TimerAction) (q : list timer) : list timer :=
  match q with
  | [] => [(due, a)]
  | (due', a') :: rest =>
      if Rlt_dec due due' then (due, a) :: q
      else (due', a') :: insert due a rest
  end.

(** [setTimeout(a, delay)] called at time [now]. *)
Definition setTimeout (now delay : R) (a : TimerAction) (q : list timer)
  : list timer :=
  insert (now + delay) a q.

(** Register several timers, in list order. *)
Definition setTimeouts (now : R) (l : list (R * TimerAction))
    (q : list timer) : list timer :=
  fold_left (fun q da => setTimeout now (fst da) (snd da) q) l q.

(** The queue is in running order: no timer is due before one ahead of
    it. *)
Fixpoint sorted (q : list timer) : Prop :=
  match q with
  | [] => True
  | tm :: rest => Forall (fun tm' => fst tm <= fst tm') rest /\ sorted rest
  end.

End Timers.

(** ** PetalModule.js: Petal *)

Module Petal.
Local Open Scope R_scope.

Record t : Type := {
  index : nat;
  totalPetals : nat;
  (* Position (angle around center) *)
  baseAngle : R;
  angle : R;
  (* Unique properties per petal *)
  hueOffset : R;
  lengthVariation : R;
  widthVariation : R;
  phase : R;
  naturalFreq : R;
  (* Dimensions *)
  length : R;
  width : R;
  (* Spring-damper physics system *)
  tiltAngle : R;
  tiltVelocity : R;
  targetTilt : R;
  tiltStiffness : R;
  tiltDamping : R;
  spinAngle : R;
  spinVelocity : R;
  spinDamping : R;
  bendAngle : R;
  bendVelocity : R;
  bendStiffness : R;
  scale : R;
  scaleVelocity : R;
  targetScale : R;
  (* Interaction state *)
  isHovered : bool;
  glowIntensity : R;
  hueShift : R;
  vibrationPhase : R;
  (* Animation *)
  bloomProgress : R;
  visible : bool;
  (* Ripple effect *)
  rippleActive : bool;
  rippleProgress : R;
  rippleIntensity : R
}.

(** [new Petal(index, totalPetals, centerX, centerY, baseRadius)];
    [u 0 .. u 6] are the seven draws of [Math.random()], in source order. *)
Definition new (index totalPetals : nat) (centerX centerY baseRadius : R)
    (u : nat -> R) : t :=
  let lengthVariation := Utils.randomRange (u 1%nat) 0.88 1.12 in
  let widthVariation := Utils.randomRange (u 2%nat) 0.9 1.1 in
  {| index := index;
     totalPetals := totalPetals;
     baseAngle := INR index / INR totalPetals * PI * 2;
     angle := INR index / INR totalPetals * PI * 2;
     hueOffset := Utils.randomRange (u 0%nat) (-8) 8;
     lengthVariation := lengthVariation;
     widthVariation := widthVariation;
     phase := Utils.randomRange (u 3%nat) 0 (PI * 2);
     naturalFreq := Utils.randomRange (u 4%nat) 2.5 4.5;
     length := baseRadius * 0.8 * lengthVariation;
     width := baseRadius * 0.15 * widthVariation;
     tiltAngle := 0;
     tiltVelocity := 0;
     targetTilt := 0;
     tiltStiffness := 0.15 * Utils.randomRange (u 5%nat) 0.8 1.2;
     tiltDamping := 0.12;
     spinAngle := 0;
     spinVelocity := 0;
     spinDamping := 0.92;
     bendAngle := 0;
     bendVelocity := 0;
     bendStiffness := Utils.randomRange (u 6%nat) 0.08 0.15;
     scale := 1;
     scaleVelocity := 0;
     targetScale := 1;
     isHovered := false;
     glowIntensity := 0;
     hueShift := 0;
     vibrationPhase := 0;
     bloomProgress := 0;
     visible := false;
     rippleActive := false;
     rippleProgress := 0;
     rippleIntensity := 0 |}.

(** [startBloom(delay)]: the petal is unchanged, one timer is requested. *)
Definition startBloom (delay : R) (p : t) : t * list (R * TimerAction) :=
  (p, [(delay, PetalShow (index p))]).

(** Body of the [startBloom] timer. *)
Definition show (p : t) : t :=
  {| index := index p; totalPetals := totalPetals p;
     baseAngle := baseAngle p; angle := angle p; hueOffset := hueOffset p;
     lengthVariation := lengthVariation p;
     widthVariation := widthVariation p; phase := phase p;
     naturalFreq := naturalFreq p; length := length p; width := width p;
     tiltAngle := tiltAngle p; tiltVelocity := tiltVelocity p;
     targetTilt := targetTilt p; tiltStiffness := tiltStiffness p;
     tiltDamping := tiltDamping p; spinAngle := spinAngle p;
     spinVelocity := spinVelocity p; spinDamping := spinDamping p;
     bendAngle := bendAngle p; bendVelocity := bendVelocity p;
     bendStiffness := bendStiffness p; scale := scale p;
     scaleVelocity := scaleVelocity p; targetScale := targetScale p;
     isHovered := isHovered p; glowIntensity := glowIntensity p;
     hueShift := hueShift p; vibrationPhase := vibrationPhase p;
     bloomProgress := bloomProgress p; visible := true;
     rippleActive := rippleActive p; rippleProgress := rippleProgress p;
     rippleIntensity := rippleIntensity p |}.

(** [const displayAngle = this.angle + this.spinAngle;], as computed by
    [getTipPosition], [containsPoint] and [draw]. *)
Definition displayAngle (p : t) : R := angle p + spinAngle p.

(** Get petal tip position for hit detection *)
Definition getTipPosition (centerX centerY : R) (p : t) : Vec2 :=
  {| vx := centerX
           + cos (displayAngle p) * length p * scale p * bloomProgress p;
     vy := centerY
           + sin (displayAngle p) * length p * scale p * bloomProgress p |}.

(** The checks of [containsPoint] on the point's polar coordinates
    relative to the center: [distance] and [pointAngle]. *)
Definition containsPolar (distance pointAngle : R) (p : t) : bool :=
  let petalLength := length p * scale p * bloomProgress p in
  (* Check if within length *)
  if JSMath.ltb petalLength distance || JSMath.ltb distance (length p * 0.1)
  then false
  else
    (* Check angle alignment *)
    let angleDiff := Rabs (pointAngle - displayAngle p) in
    let angleDiff :=
      if Rlt_dec PI angleDiff then PI * 2 - angleDiff else angleDiff in
    (* Width tolerance based on distance from center *)
    let widthAtPoint :=
      (width p * (1 - distance / petalLength * 0.5)) / distance in
    JSMath.ltb angleDiff widthAtPoint.

(** Check if point is within petal *)
Definition containsPoint (px py centerX centerY : R) (p : t) : bool :=
  if negb (visible p) || JSMath.ltb (bloomProgress p) 0.5 then false
  else
    (* Transform point to petal local space *)
    let dx := px - centerX in
    let dy := py - centerY in
    containsPolar (JSMath.hypot dx dy) (JSMath.atan2 dy dx) p.

Definition set_hover (hovered : bool) (targetTilt hueShift : R) (p : t) : t :=
  {| index := index p; totalPetals := totalPetals p;
     baseAngle := baseAngle p; angle := angle p; hueOffset := hueOffset p;
     lengthVariation := lengthVariation p;
     widthVariation := widthVariation p; phase := phase p;
     naturalFreq := naturalFreq p; length := length p; width := width p;
     tiltAngle := tiltAngle p; tiltVelocity := tiltVelocity p;
     targetTilt := targetTilt; tiltStiffness := tiltStiffness p;
     tiltDamping := tiltDamping p; spinAngle := spinAngle p;
     spinVelocity := spinVelocity p; spinDamping := spinDamping p;
     bendAngle := bendAngle p; bendVelocity := bendVelocity p;
     bendStiffness := bendStiffness p; scale := scale p;
     scaleVelocity := scaleVelocity p; targetScale := targetScale p;
     isHovered := hovered; glowIntensity := glowIntensity p;
     hueShift := hueShift; vibrationPhase := vibrationPhase p;
     bloomProgress := bloomProgress p; visible := visible p;
     rippleActive := rippleActive p; rippleProgress := rippleProgress p;
     rippleIntensity := rippleIntensity p |}.

(** Hover effect; [u] is the draw of [Math.random()] (read only when
    [hovered] is true). *)
Definition setHovered (hovered : bool) (u : R) (p : t) : t :=
  if hovered
  then set_hover true
         (Utils.degToRad (Utils.randomRange u 2 PHYSICS.petalTiltMax)) 2 p
  else set_hover false 0 0 p.

Definition set_spin_scale (spinVelocity targetScale : R) (p : t) : t :=
  {| index := index p; totalPetals := totalPetals p;
     baseAngle := baseAngle p; angle := angle p; hueOffset := hueOffset p;
     lengthVariation := lengthVariation p;
     widthVariation := widthVariation p; phase := phase p;
     naturalFreq := naturalFreq p; length := length p; width := width p;
     tiltAngle := tiltAngle p; tiltVelocity := tiltVelocity p;
     targetTilt := targetTilt p; tiltStiffness := tiltStiffness p;
     tiltDamping := tiltDamping p; spinAngle := spinAngle p;
     spinVelocity := spinVelocity; spinDamping := spinDamping p;
     bendAngle := bendAngle p; bendVelocity := bendVelocity p;
     bendStiffness := bendStiffness p; scale := scale p;
     scaleVelocity := scaleVelocity p; targetScale := targetScale;
     isHovered := isHovered p; glowIntensity := glowIntensity p;
     hueShift := hueShift p; vibrationPhase := vibrationPhase p;
     bloomProgress := bloomProgress p; visible := visible p;
     rippleActive := rippleActive p; rippleProgress := rippleProgress p;
     rippleIntensity := rippleIntensity p |}.

(** [Math.random() > 0.5 ? 1 : -1] *)
Definition spinDirection (u : R) : R := if Rlt_dec 0.5 u then 1 else -1.

(** Click effect; [u] is the draw of [Math.random()]. *)
Definition triggerClick (u : R) (p : t) : t * list (R * TimerAction) :=
  (set_spin_scale
     (Utils.degToRad PHYSICS.petalSpinAngle * spinDirection u) 1.05 p,
   [(200, PetalResetScale (index p))]).

(** Body of the timers of [triggerClick] and [triggerBloom]. *)
Definition resetScale (p : t) : t := set_spin_scale (spinVelocity p) 1 p.

(** Ripple from neighboring petal; [u] is the draw of [Math.random()]. *)
Definition triggerRipple (u : R) (p : t) : t :=
  {| index := index p; totalPetals := totalPetals p;
     baseAngle := baseAngle p; angle := angle p; hueOffset := hueOffset p;
     lengthVariation := lengthVariation p;
     widthVariation := widthVariation p; phase := phase p;
     naturalFreq := naturalFreq p; length := length p; width := width p;
     tiltAngle := tiltAngle p; tiltVelocity := tiltVelocity p;
     targetTilt := targetTilt p; tiltStiffness := tiltStiffness p;
     tiltDamping := tiltDamping p; spinAngle := spinAngle p;
     spinVelocity := Utils.degToRad 3 * spinDirection u;
     spinDamping := spinDamping p;
     bendAngle := bendAngle p; bendVelocity := bendVelocity p;
     bendStiffness := bendStiffness p; scale := scale p;
     scaleVelocity := scaleVelocity p; targetScale := targetScale p;
     isHovered := isHovered p; glowIntensity := glowIntensity p;
     hueShift := hueShift p; vibrationPhase := vibrationPhase p;
     bloomProgress := bloomProgress p; visible := visible p;
     rippleActive := true; rippleProgress := 0;
     rippleIntensity := rippleIntensity p |}.

(** Bloom effect (center click) *)
Definition triggerBloom (p : t) : t * list (R * TimerAction) :=
  (set_spin_scale (spinVelocity p) PHYSICS.centerBloomScale p,
   [(400, PetalResetScale (index p))]).

(** [petal.bendStiffness = k] (written by [PetalManager]). *)
Definition set_bendStiffness (k : R) (p : t) : t :=
  {| index := index p; totalPetals := totalPetals p;
     baseAngle := baseAngle p; angle := angle p; hueOffset := hueOffset p;
     lengthVariation := lengthVariation p;
     widthVariation := widthVariation p; phase := phase p;
     naturalFreq := naturalFreq p; length := length p; width := width p;
     tiltAngle := tiltAngle p; tiltVelocity := tiltVelocity p;
     targetTilt := targetTilt p; tiltStiffness := tiltStiffness p;
     tiltDamping := tiltDamping p; spinAngle := spinAngle p;
     spinVelocity := spinVelocity p; spinDamping := spinDamping p;
     bendAngle := bendAngle p; bendVelocity := bendVelocity p;
     bendStiffness := k; scale := scale p;
     scaleVelocity := scaleVelocity p; targetScale := targetScale p;
     isHovered := isHovered p; glowIntensity := glowIntensity p;
     hueShift := hueShift p; vibrationPhase := vibrationPhase p;
     bloomProgress := bloomProgress p; visible := visible p;
     rippleActive := rippleActive p; rippleProgress := rippleProgress p;
     rippleIntensity := rippleIntensity p |}.

(** Natural micro-sway at clock [time] (seconds). *)
Definition naturalSway (time : R) (p : t) : R :=
  sin (time * naturalFreq p * 0.3 + phase p) * 0.008.

(** [update(deltaTime, wind)] on a visible petal with a defined wind;
    [now] is the reading of [performance.now()]. *)
Definition updateVisible (deltaTime : R) (wind : Vec2) (now : R) (p : t) : t :=
  let dt := deltaTime * 0.001 in (* Convert to seconds *)
  let time := now * 0.001 in
  (* Bloom animation with spring overshoot *)
  let bloomProgress1 :=
    if Rlt_dec (bloomProgress p) 1
    then Rmin 1 (bloomProgress p + dt * 0.8)
    else bloomProgress p in
  let scale1 :=
    if Rlt_dec (bloomProgress p) 1 then
      (* Elastic overshoot at end *)
      if Rle_dec 0.85 bloomProgress1 then
        let t := (bloomProgress1 - 0.85) / 0.15 in
        let elastic := sin (t * PI * 2.5) * exp (- t * 3) in
        1 + elastic * 0.08
      else scale p
    else scale p in
  (* Wind force on bend angle *)
  let windForce := vx wind * 0.08 + vy wind * 0.02 in
  let targetBend :=
    windForce * (1 + sin (time * naturalFreq p + phase p) * 0.3) in
  (* Spring-damper for bend *)
  let bendSpring := (targetBend - bendAngle p) * bendStiffness p in
  let bendDamp := - bendVelocity p * tiltDamping p in
  let bendVelocity1 := bendVelocity p + (bendSpring + bendDamp) * dt * 60 in
  let bendAngle1 := bendAngle p + bendVelocity1 * dt * 60 in
  (* Combine angle components *)
  let angle1 := baseAngle p + bendAngle1 + naturalSway time p in
  (* Tilt spring-damper (for hover effect) *)
  let tiltSpring := (targetTilt p - tiltAngle p) * tiltStiffness p in
  let tiltDamp := - tiltVelocity p * tiltDamping p in
  let tiltVelocity1 := tiltVelocity p + (tiltSpring + tiltDamp) * dt * 60 in
  let tiltAngle1 := tiltAngle p + tiltVelocity1 * dt * 60 in
  (* Hover vibration (subtle) *)
  let vibrationPhase1 :=
    if isHovered p then vibrationPhase p + dt * 25 else vibrationPhase p in
  let tiltAngle2 :=
    if isHovered p then tiltAngle1 + sin vibrationPhase1 * 0.005
    else tiltAngle1 in
  (* Spin with damping (for click effect) *)
  let spinAngle1 := spinAngle p + spinVelocity p * dt * 60 in
  let spinVelocity1 := spinVelocity p * JSMath.pow (spinDamping p) (dt * 60) in
  (* Spring back spin to zero *)
  let spinReturn := - spinAngle1 * 0.05 in
  let spinVelocity2 := spinVelocity1 + spinReturn * dt * 60 in
  (* Scale spring *)
  let scaleDiff := targetScale p - scale1 in
  let scaleVelocity1 := scaleVelocity p + scaleDiff * 0.15 * dt * 60 in
  let scaleVelocity2 := scaleVelocity1 * 0.85 in (* Damping *)
  let scale2 := scale1 + scaleVelocity2 * dt * 60 in
  (* Glow intensity with smooth easing *)
  let targetGlow := if isHovered p then 0.7 else 0 in
  let glowIntensity1 :=
    glowIntensity p + (targetGlow - glowIntensity p) * 0.08 in
  (* Ripple effect with decay *)
  let rippleProgress1 := rippleProgress p + dt * 4 in
  let rippleDone := JSMath.leb 1 rippleProgress1 in
  {| index := index p; totalPetals := totalPetals p;
     baseAngle := baseAngle p; angle := angle1; hueOffset := hueOffset p;
     lengthVariation := lengthVariation p;
     widthVariation := widthVariation p; phase := phase p;
     naturalFreq := naturalFreq p; length := length p; width := width p;
     tiltAngle := tiltAngle2; tiltVelocity := tiltVelocity1;
     targetTilt := targetTilt p; tiltStiffness := tiltStiffness p;
     tiltDamping := tiltDamping p; spinAngle := spinAngle1;
     spinVelocity := spinVelocity2; spinDamping := spinDamping p;
     bendAngle := bendAngle1; bendVelocity := bendVelocity1;
     bendStiffness := bendStiffness p; scale := scale2;
     scaleVelocity := scaleVelocity2; targetScale := targetScale p;
     isHovered := isHovered p; glowIntensity := glowIntensity1;
     hueShift := hueShift p; vibrationPhase := vibrationPhase1;
     bloomProgress := bloomProgress1; visible := visible p;
     rippleActive :=
       if rippleActive p then negb rippleDone else false;
     rippleProgress :=
       if rippleActive p then (if rippleDone then 0 else rippleProgress1)
       else rippleProgress p;
     rippleIntensity :=
       if rippleActive p
       then (if rippleDone then 0
             else sin (rippleProgress1 * PI) * (1 - rippleProgress1))
       else rippleIntensity p |}.

(** [update(deltaTime, wind)].  [wind] is [None] when the argument is
    [undefined]; reading [wind.x] then throws a TypeError. *)
Definition update (deltaTime : R) (wind : option Vec2) (now : R) (p : t)
  : outcome t :=
  if negb (visible p) then Returned p
  else
    match wind with
    | None => Thrown
    | Some wind => Returned (updateVisible deltaTime wind now p)
    end.


(** The petal at full bloom: visible, with [bloomProgress = 1]. *)
Definition bloomed (p : t) : t :=
  {| index := index p; totalPetals := totalPetals p;
     baseAngle := baseAngle p; angle := angle p; hueOffset := hueOffset p;
     lengthVariation := lengthVariation p;
     widthVariation := widthVariation p; phase := phase p;
     naturalFreq := naturalFreq p; length := length p; width := width p;
     tiltAngle := tiltAngle p; tiltVelocity := tiltVelocity p;
     targetTilt := targetTilt p; tiltStiffness := tiltStiffness p;
     tiltDamping := tiltDamping p; spinAngle := spinAngle p;
     spinVelocity := spinVelocity p; spinDamping := spinDamping p;
     bendAngle := bendAngle p; bendVelocity := bendVelocity p;
     bendStiffness := bendStiffness p; scale := scale p;
     scaleVelocity := scaleVelocity p; targetScale := targetScale p;
     isHovered := isHovered p; glowIntensity := glowIntensity p;
     hueShift := hueShift p; vibrationPhase := vibrationPhase p;
     bloomProgress := 1; visible := true;
     rippleActive := rippleActive p; rippleProgress := rippleProgress p;
     rippleIntensity := rippleIntensity p |}.

(** The operations that act on one petal. *)
Inductive op : Type :=
| OpShow
| OpSetHovered (hovered : bool) (u : R)
| OpTriggerClick (u : R)
| OpResetScale
| OpTriggerRipple (u : R)
| OpTriggerBloom
| OpSetBendStiffness (k : R)
| OpUpdate (deltaTime : R) (wind : Vec2) (now : R).

Definition apply (o : op) (p : t) : t :=
  match o with
  | OpShow => show p
  | OpSetHovered h u => setHovered h u p
  | OpTriggerClick u => fst (triggerClick u p)
  | OpResetScale => resetScale p
  | OpTriggerRipple u => triggerRipple u p
  | OpTriggerBloom => fst (triggerBloom p)
  | OpSetBendStiffness k => set_bendStiffness k p
  | OpUpdate deltaTime wind now =>
      match update deltaTime (Some wind) now p with
      | Returned p' => p'
      | Thrown => p
      end
  end.

(** A petal's history: construction followed by operations, oldest first. *)
Definition history (ops : list op) (p : t) : t :=
  fold_left (fun p o => apply o p) ops p.


Definition is_show (o : op) : bool :=
  match o with OpShow => true | _ => false end.

(** The frame time of the [update] calls made while the petal is
    visible; [vis] is the visibility before the operations. *)
Fixpoint visibleTime (vis : bool) (ops : list op) : R :=
  match ops with
  | [] => 0
  | OpShow :: rest => visibleTime true rest
  | OpUpdate deltaTime _ _ :: rest =>
      (if vis then deltaTime else 0) + visibleTime vis rest
  | _ :: rest => visibleTime vis rest
  end.

(** An [update] is called with a frame time that is not negative. *)
Definition frame_nonneg (o : op) : Prop :=
  match o with
  | OpUpdate deltaTime _ _ => 0 <= deltaTime
  | _ => True
  end.

(** The draw of [Math.random()] read by [setHovered] lies in [0, 1). *)
Definition draw_in_range (o : op) : Prop :=
  match o with
  | OpSetHovered _ u => 0 <= u < 1
  | _ => True
  end.

(** What the constructor fixes of a petal: its place in the ring and its
    dimensions. *)
Definition layout (p : t) : nat * nat * (R * R * R) :=
  (index p, totalPetals p, (baseAngle p, length p, width p)).

End Petal.

(** ** PetalModule.js: PetalManager *)

Module PetalManager.
Local Open Scope R_scope.

(** Calls observed on the petals: [setHovered] in call order, and
    [triggerRipple] with the time of the timer that made the call. *)
Inductive Event : Type :=
| SetHoveredCall (index : nat) (hovered : bool)
| RippleCall (time : R) (index : nat).

Record t : Type := {
  centerX : R;
  centerY : R;
  radius : R;
  petals : list Petal.t;
  petalCount : nat;
  (* Interaction tracking; a petal object is identified by its index *)
  hoveredPetal : option nat;
  lastClickedIndex : Z;
  (** timers set by the manager and its petals and not yet run *)
  timers : list Timers.timer;
  (** trace of the observed calls, oldest first *)
  log : list Event
}.

(** [new PetalManager(centerX, centerY, radius)]; [rand i] gives the draws
    of [Math.random()] made by the constructor of petal [i]. *)
Definition new (centerX centerY radius : R) (rand : nat -> nat -> R) : t := {|
  centerX := centerX;
  centerY := centerY;
  radius := radius;
  petals :=
    (fun i => Petal.new i PHYSICS.petalCount centerX centerY radius (rand i))
      <$> seq 0 PHYSICS.petalCount;
  petalCount := PHYSICS.petalCount;
  hoveredPetal := None;
  lastClickedIndex := (-1)%Z;
  timers := [];
  log := []
|}.

Definition set_petals (ps : list Petal.t) (m : t) : t :=
  {| centerX := centerX m; centerY := centerY m; radius := radius m;
     petals := ps; petalCount := petalCount m;
     hoveredPetal := hoveredPetal m;
     lastClickedIndex := lastClickedIndex m;
     timers := timers m; log := log m |}.

Definition set_timers (q : list Timers.timer) (m : t) : t :=
  {| centerX := centerX m; centerY := centerY m; radius := radius m;
     petals := petals m; petalCount := petalCount m;
     hoveredPetal := hoveredPetal m;
     lastClickedIndex := lastClickedIndex m;
     timers := q; log := log m |}.

Definition add_log (e : Event) (m : t) : t :=
  {| centerX := centerX m; centerY := centerY m; radius := radius m;
     petals := petals m; petalCount := petalCount m;
     hoveredPetal := hoveredPetal m;
     lastClickedIndex := lastClickedIndex m;
     timers := timers m; log := log m ++ [e] |}.

(** [this.petals[i].method()]: the petal at index [i] is replaced by the
    result of the method.  Every index used below is in range. *)
Definition on_petal (i : nat) (f : Petal.t -> Petal.t) (m : t) : t :=
  set_petals (alter f i (petals m)) m.

Definition updatePosition (centerX centerY : R) (m : t) : t :=
  {| centerX := centerX; centerY := centerY; radius := radius m;
     petals := petals m; petalCount := petalCount m;
     hoveredPetal := hoveredPetal m;
     lastClickedIndex := lastClickedIndex m;
     timers := timers m; log := log m |}.

(** Start sequential bloom animation at time [now]; [rand i] is the draw
    for petal [i]. *)
Definition startBloom (now : R) (rand : nat -> R) (m : t) : t :=
  let baseDelay := 50 in
  let randomOffset := 30 in
  let requests :=
    imap (fun i petal =>
            let delay := INR i * baseDelay
                         + Utils.randomRange (rand i) 0 randomOffset in
            (delay, PetalShow (Petal.index petal)))
         (petals m) in
  set_timers (Timers.setTimeouts now requests (timers m)) m.

(** The loop [for (let i = petals.length - 1; i >= 0; i--)] of
    [getPetalAtPoint], with [n] petals left to test. *)
Fixpoint scan (x y : R) (m : t) (n : nat) : option nat :=
  match n with
  | O => None
  | S i =>
      match petals m !! i with
      | Some petal =>
          if Petal.containsPoint x y (centerX m) (centerY m) petal
          then Some i else scan x y m i
      | None => scan x y m i
      end
  end.

(** Find petal at point *)
Definition getPetalAtPoint (x y : R) (m : t) : option nat :=
  scan x y m (List.length (petals m)).

Definition set_hoveredPetal (h : option nat) (m : t) : t :=
  {| centerX := centerX m; centerY := centerY m; radius := radius m;
     petals := petals m; petalCount := petalCount m;
     hoveredPetal := h;
     lastClickedIndex := lastClickedIndex m;
     timers := timers m; log := log m |}.

(** [petals[i].setHovered(hovered)], recorded in the log. *)
Definition callSetHovered (i : nat) (hovered : bool) (u : R) (m : t) : t :=
  add_log (SetHoveredCall i hovered) (on_petal i (Petal.setHovered hovered u) m).

(** Handle hover; [u] is the draw used by [setHovered(true)]. *)
Definition handleHover (x y u : R) (m : t) : option nat * t :=
  let petal := getPetalAtPoint x y m in
  if decide (hoveredPetal m = petal) then (petal, m)
  else
    let m := match hoveredPetal m with
             | Some h => callSetHovered h false u m
             | None => m
             end in
    let m := match petal with
             | Some k => callSetHovered k true u m
             | None => m
             end in
    (petal, set_hoveredPetal petal m).

(** Propagate ripple to neighboring petals, at time [now]. *)
Definition triggerRipple (now : R) (sourceIndex : nat) (m : t) : t :=
  let delays := [TIMING.rippleDelay; TIMING.rippleDelay * 2] in
  let requests :=
    imap (fun i direction => (nth i delays 0, RippleFirst sourceIndex direction))
         [(-1)%Z; 1%Z] in
  set_timers (Timers.setTimeouts now requests (timers m)) m.

(** Handle click at time [now]; [u] is the draw used by [triggerClick]. *)
Definition handleClick (now x y u : R) (m : t) : option nat * t :=
  match getPetalAtPoint x y m with
  | Some k =>
      match petals m !! k with
      | Some petal =>
          let '(petal', requests) := Petal.triggerClick u petal in
          let m := set_petals (<[ k := petal' ]> (petals m)) m in
          let m := set_timers (Timers.setTimeouts now requests (timers m)) m in
          let m :=
            {| centerX := centerX m; centerY := centerY m;
               radius := radius m; petals := petals m;
               petalCount := petalCount m; hoveredPetal := hoveredPetal m;
               lastClickedIndex := Z.of_nat (Petal.index petal');
               timers := timers m; log := log m |} in
          (* Ripple to neighbors *)
          let m := triggerRipple now (Petal.index petal') m in
          (Some k, m)
      | None => (None, m)
      end
  | None => (None, m)
  end.

(** [(index + direction + this.petalCount) % this.petalCount] *)
Definition neighbor (index : nat) (direction : Z) (m : t) : nat :=
  Z.to_nat (Z.rem (Z.of_nat index + direction + Z.of_nat (petalCount m))
                  (Z.of_nat (petalCount m))).

(** Run the closure of a timer at its due time [due]; [u] is the draw of
    [Math.random()] used by [Petal.triggerRipple]. *)
Definition fire (due u : R) (a : TimerAction) (m : t) : t :=
  match a with
  | PetalShow i => on_petal i Petal.show m
  | PetalResetScale i => on_petal i Petal.resetScale m
  | RippleFirst sourceIndex direction =>
      let neighborIndex := neighbor sourceIndex direction m in
      let m := on_petal neighborIndex (Petal.triggerRipple u) m in
      let m := add_log (RippleCall due neighborIndex) m in
      (* Second level ripple *)
      set_timers
        (Timers.setTimeout due TIMING.rippleDelay
           (RippleSecond neighborIndex direction) (timers m)) m
  | RippleSecond neighborIndex direction =>
      let neighbor2Index := neighbor neighborIndex direction m in
      let m := on_petal neighbor2Index (Petal.triggerRipple u) m in
      add_log (RippleCall due neighbor2Index) m
  | CoreResetPulse => m
  end.

(** The event loop runs the next pending timer, if any. *)
Definition runTimer (u : R) (m : t) : t :=
  match timers m with
  | [] => m
  | (due, a) :: rest => fire due u a (set_timers rest m)
  end.

(** Run one pending timer per draw in [us]. *)
Definition runTimers (us : list R) (m : t) : t :=
  fold_left (fun m u => runTimer u m) us m.

(** Trigger bloom on all petals (center click), at time [now]. *)
Definition triggerAllBloom (now : R) (m : t) : t :=
  let requests :=
    flat_map (fun petal => snd (Petal.triggerBloom petal)) (petals m) in
  let m := set_petals
             ((fun petal => fst (Petal.triggerBloom petal)) <$> petals m) m in
  set_timers (Timers.setTimeouts now requests (timers m)) m.

(** The stiffness chosen by [setCuriositySide] for a petal at [baseAngle]. *)
Definition curiosityStiffness (baseAngle angle : R) : R :=
  let angleDiff := Rabs (baseAngle - angle) in
  let angleDiff :=
    if Rlt_dec PI angleDiff then PI * 2 - angleDiff else angleDiff in
  (* Petals on the curious side are more responsive *)
  if Rlt_dec angleDiff (PI / 2) then 1.5 else 1.

(** Increase responsiveness on one side (curiosity mode) *)
Definition setCuriositySide (angle : R) (m : t) : t :=
  set_petals
    ((fun petal =>
        Petal.set_bendStiffness
          (curiosityStiffness (Petal.baseAngle petal) angle) petal)
       <$> petals m) m.

(** [resetCuriosity()]; [rand i] is the draw for petal [i]. *)
Definition resetCuriosity (rand : nat -> R) (m : t) : t :=
  set_petals
    (imap (fun i petal =>
             Petal.set_bendStiffness (Utils.randomRange (rand i) 0.8 1.2) petal)
          (petals m)) m.

(** [this.petals.forEach(petal => petal.update(deltaTime, wind))] from
    index [i] on; [now j] is the clock read by petal [j]. *)
Fixpoint updateAll (deltaTime : R) (wind : option Vec2) (now : nat -> R)
    (i : nat) (ps : list Petal.t) : outcome (list Petal.t) :=
  match ps with
  | [] => Returned []
  | petal :: rest =>
      match Petal.update deltaTime wind (now i) petal with
      | Thrown => Thrown
      | Returned petal' =>
          match updateAll deltaTime wind now (S i) rest with
          | Thrown => Thrown
          | Returned rest' => Returned (petal' :: rest')
          end
      end
  end.

Definition update (deltaTime : R) (wind : option Vec2) (now : nat -> R)
    (m : t) : outcome t :=
  match updateAll deltaTime wind now 0 (petals m) with
  | Thrown => Thrown
  | Returned ps => Returned (set_petals ps m)
  end.

(** [DaisyFlower.handleHover], branch taken when the cursor is on the
    center: clear petal hover. *)
Definition clearPetalHover (m : t) : t :=
  match hoveredPetal m with
  | Some h => set_hoveredPetal None (callSetHovered h false 0 m)
  | None => m
  end.

(** Everything that is ever done to a [PetalManager]. *)
Inductive op : Type :=
| OpUpdatePosition (centerX centerY : R)
| OpStartBloom (now : R) (rand : nat -> R)
| OpHandleHover (x y u : R)
| OpHandleClick (now x y u : R)
| OpRunTimer (u : R)
| OpTriggerAllBloom (now : R)
| OpSetCuriositySide (angle : R)
| OpResetCuriosity (rand : nat -> R)
| OpUpdate (deltaTime : R) (wind : Vec2) (now : nat -> R)
| OpClearPetalHover.

Definition apply (o : op) (m : t) : t :=
  match o with
  | OpUpdatePosition x y => updatePosition x y m
  | OpStartBloom now rand => startBloom now rand m
  | OpHandleHover x y u => snd (handleHover x y u m)
  | OpHandleClick now x y u => snd (handleClick now x y u m)
  | OpRunTimer u => runTimer u m
  | OpTriggerAllBloom now => triggerAllBloom now m
  | OpSetCuriositySide angle => setCuriositySide angle m
  | OpResetCuriosity rand => resetCuriosity rand m
  | OpUpdate deltaTime wind now =>
      match update deltaTime (Some wind) now m with
      | Returned m' => m'
      | Thrown => m
      end
  | OpClearPetalHover => clearPetalHover m
  end.

(** A manager's history: construction followed by operations. *)
Definition history (ops : list op) (m : t) : t :=
  fold_left (fun m o => apply o m) ops m.

(** The [triggerRipple] calls of the log, as (time, petal index). *)
Definition rippleCalls (m : t) : list (R * nat) :=
  flat_map (fun e => match e with
                     | RippleCall time i => [(time, i)]
                     | SetHoveredCall _ _ => []
                     end) (log m).

(** The [setHovered] calls of a log, as (petal index, argument). *)
Definition hoverCalls (l : list Event) : list (nat * bool) :=
  flat_map (fun e => match e with
                     | SetHoveredCall i h => [(i, h)]
                     | RippleCall _ _ => []
                     end) l.

(** The manager with every petal at full bloom. *)
Definition bloomed (m : t) : t := set_petals (Petal.bloomed <$> petals m) m.

(** Exactly the petal tracked by [hoveredPetal] is in the hovered state. *)
Definition hover_inv (m : t) : Prop :=
  forall (i : nat) (p : Petal.t),
    petals m !! i = Some p ->
    (Petal.isHovered p = true <-> hoveredPetal m = Some i).

(** Pointwise, [ps'] has the petals of [ps] with their hover flags. *)
Definition same_flags (ps ps' : list Petal.t) : Prop :=
  forall (i : nat) (p' : Petal.t),
    ps' !! i = Some p' ->
    exists p, ps !! i = Some p /\ Petal.isHovered p' = Petal.isHovered p.

(** Petal [(k + d) mod N] of the ring of [N = 36] petals. *)
Definition ringIndex (k : nat) (d : Z) : nat :=
  Z.to_nat ((Z.of_nat k + d) mod Z.of_nat PHYSICS.petalCount).

(** The circular distance between two angles is below a quarter turn:
    the angles differ by less than PI/2 up to whole turns. *)
Definition within90 (a b : R) : Prop :=
  exists k : Z, Rabs (a - b + 2 * PI * IZR k) < PI / 2.

Definition is_run_timer (o : op) : bool :=
  match o with OpRunTimer _ => true | _ => false end.

End PetalManager.

(** ** Stem.js *)

Module Segment.
Record t : Type := {
  x : R;
  y : R;
  prevX : R;
  prevY : R;
  velocityX : R;
  velocityY : R;
  (* Flexibility increases toward top *)
  flexibility : R
}.
End Segment.

Module Leaf.
Record t : Type := {
  segmentIndex : nat;
  size : R;
  baseAngle : R;
  angle : R;
  angleVelocity : R;
  unfold : R;
  side : R
}.
End Leaf.

Module Stem.
Local Open Scope R_scope.

Record t : Type := {
  baseX : R;
  baseY : R;
  height : R;
  (* Number of segments for physics simulation *)
  segmentCount : nat;
  segments : list Segment.t;
  (* Physics properties *)
  stiffness : R;
  damping : R;
  gravity : R;
  windResponse : R;
  (* Overall angle (for flower positioning) *)
  angle : R;
  angularVelocity : R;
  (* Secondary motion *)
  secondaryWave : R;
  waveSpeed : R;
  (* Leaves with physics *)
  leaves : list Leaf.t;
  (* Growth animation *)
  growthProgress : R;
  visible : bool;
  (* Slow-mo effect *)
  slowMoActive : bool;
  slowMoProgress : R
}.

(** [initSegments()]: segments 0 .. segmentCount. *)
Definition initSegments (height : R) (segmentCount : nat) : list Segment.t :=
  let segmentHeight := height / INR segmentCount in
  (fun i : nat =>
     {| Segment.x := 0;
        Segment.y := - INR i * segmentHeight;
        Segment.prevX := 0;
        Segment.prevY := - INR i * segmentHeight;
        Segment.velocityX := 0;
        Segment.velocityY := 0;
        Segment.flexibility := 0.3 + (INR i / INR segmentCount) * 0.7 |})
    <$> seq 0 (S segmentCount).

Definition new (baseX baseY height : R) : t := {|
  baseX := baseX;
  baseY := baseY;
  height := height;
  segmentCount := 8;
  segments := initSegments height 8;
  stiffness := 0.4;
  damping := 0.88;
  gravity := 0.01;
  windResponse := 0.15;
  angle := 0;
  angularVelocity := 0;
  secondaryWave := 0;
  waveSpeed := 2.5;
  leaves :=
    [ {| Leaf.segmentIndex := 2; Leaf.size := 18; Leaf.baseAngle := -0.5;
         Leaf.angle := -0.5; Leaf.angleVelocity := 0; Leaf.unfold := 0;
         Leaf.side := -1 |};
      {| Leaf.segmentIndex := 4; Leaf.size := 14; Leaf.baseAngle := 0.6;
         Leaf.angle := 0.6; Leaf.angleVelocity := 0; Leaf.unfold := 0;
         Leaf.side := 1 |};
      {| Leaf.segmentIndex := 5; Leaf.size := 10; Leaf.baseAngle := -0.4;
         Leaf.angle := -0.4; Leaf.angleVelocity := 0; Leaf.unfold := 0;
         Leaf.side := -1 |} ];
  growthProgress := 0;
  visible := false;
  slowMoActive := false;
  slowMoProgress := 0
|}.

Definition set_growth (visible : bool) (growthProgress : R)
    (leaves : list Leaf.t) (s : t) : t :=
  {| baseX := baseX s; baseY := baseY s; height := height s;
     segmentCount := segmentCount s; segments := segments s;
     stiffness := stiffness s; damping := damping s; gravity := gravity s;
     windResponse := windResponse s; angle := angle s;
     angularVelocity := angularVelocity s;
     secondaryWave := secondaryWave s; waveSpeed := waveSpeed s;
     leaves := leaves; growthProgress := growthProgress;
     visible := visible; slowMoActive := slowMoActive s;
     slowMoProgress := slowMoProgress s |}.

Definition set_motion (segments : list Segment.t) (angle secondaryWave : R)
    (slowMoActive : bool) (slowMoProgress : R) (s : t) : t :=
  {| baseX := baseX s; baseY := baseY s; height := height s;
     segmentCount := segmentCount s; segments := segments;
     stiffness := stiffness s; damping := damping s; gravity := gravity s;
     windResponse := windResponse s; angle := angle;
     angularVelocity := angularVelocity s;
     secondaryWave := secondaryWave; waveSpeed := waveSpeed s;
     leaves := leaves s; growthProgress := growthProgress s;
     visible := visible s; slowMoActive := slowMoActive;
     slowMoProgress := slowMoProgress |}.

Definition startGrowth (s : t) : t := set_growth true 0 (leaves s) s.

Definition getFlowerPosition (s : t) : R * R * R :=
  match last (segments s) with
  | None => (baseX s, baseY s - height s, 0)
  | Some topSegment =>
      let prevSegment :=
        if (2 <=? List.length (segments s))%nat
        then segments s !! (List.length (segments s) - 2)%nat
        else None in
      (* Calculate angle from last two segments *)
      let dx := Segment.x topSegment
                - match prevSegment with
                  | Some prev => Segment.x prev
                  | None => 0
                  end in
      let dy := Segment.y topSegment
                - match prevSegment with
                  | Some prev => Segment.y prev
                  | None => Segment.y topSegment + 10
                  end in
      let tipAngle := JSMath.atan2_neg dx dy in
      (baseX s + Segment.x topSegment * growthProgress s,
       baseY s + Segment.y topSegment * growthProgress s,
       tipAngle * 0.6)
  end.

(** Unfold leaves progressively *)
Definition unfoldLeaf (segmentCount : nat) (growthProgress : R)
    (leaf : Leaf.t) : Leaf.t :=
  let threshold :=
    0.3 + (INR (Leaf.segmentIndex leaf) / INR segmentCount) * 0.4 in
  if Rlt_dec threshold growthProgress then
    let unfoldProgress := (growthProgress - threshold) / 0.25 in
    {| Leaf.segmentIndex := Leaf.segmentIndex leaf; Leaf.size := Leaf.size leaf;
       Leaf.baseAngle := Leaf.baseAngle leaf; Leaf.angle := Leaf.angle leaf;
       Leaf.angleVelocity := Leaf.angleVelocity leaf;
       Leaf.unfold := EasingR.cubicOut (Rmin 1 unfoldProgress);
       Leaf.side := Leaf.side leaf |}
  else leaf.

(** Body of the force loop for segment [i]: verlet integration. *)
Definition applyForces (dt time : R) (wind : option Vec2) (s : t)
    (slowMoActive : bool) (slowMoProgress : R)
    (i : nat) (segs : list Segment.t) : outcome (list Segment.t) :=
  let heightRatio := INR i / INR (segmentCount s) in
  bind (defined wind) (fun wind =>
  bind (at_index segs i) (fun seg =>
    (* Wind force (stronger at top) *)
    let windForce := vx wind * windResponse s * Segment.flexibility seg in
    let windForceY := vy wind * windResponse s * 0.3 in
    (* Natural sway (phase offset per segment) *)
    let swayPhase := time * 1.2 + INR i * 0.3 in
    let naturalSway := sin swayPhase * 0.3 * Segment.flexibility seg in
    (* Slow-mo impulse *)
    let slowMoForce :=
      if slowMoActive then
        let envelope := exp (- slowMoProgress * 0.8) in
        sin (slowMoProgress * 4) * envelope * 3 * heightRatio
      else 0 in
    (* Calculate new position using Verlet *)
    let vx := (Segment.x seg - Segment.prevX seg) * damping s in
    let vy := (Segment.y seg - Segment.prevY seg) * damping s in
    Returned
      (<[ i := {| Segment.x := Segment.x seg + (vx + (windForce + naturalSway
                                         + slowMoForce) * dt * 60);
                  Segment.y := Segment.y seg + (vy + (windForceY - gravity s)
                                         * dt * 60);
                  Segment.prevX := Segment.x seg;
                  Segment.prevY := Segment.y seg;
                  Segment.velocityX := Segment.velocityX seg;
                  Segment.velocityY := Segment.velocityY seg;
                  Segment.flexibility := Segment.flexibility seg |} ]> segs))).

(** Body of the constraint loop for segment [i]: maintain segment
    distances and pull toward upright. *)
Definition applyConstraint (s : t) (segmentLength : R)
    (i : nat) (segs : list Segment.t) : outcome (list Segment.t) :=
  bind (at_index segs i) (fun seg =>
  bind (at_index segs (i - 1)) (fun prevSeg =>
    let dx := Segment.x seg - Segment.x prevSeg in
    let dy := Segment.y seg - Segment.y prevSeg in
    let root := sqrt (dx * dx + dy * dy) in
    let distance := if Req_dec_T root 0 then 0.001 else root in
    let diff := (segmentLength - distance) / distance in
    let offsetX := dx * diff * 0.5 in
    let offsetY := dy * diff * 0.5 in
    (* Apply constraint (first segment is fixed) *)
    let x1 := if (0 <? i)%nat then Segment.x seg + offsetX * stiffness s
              else Segment.x seg in
    let y1 := if (0 <? i)%nat then Segment.y seg + offsetY * stiffness s
              else Segment.y seg in
    (* Spring force toward upright position *)
    let uprightForce := - x1 * 0.02 * (1 - Segment.flexibility seg * 0.5) in
    Returned
      (<[ i := {| Segment.x := x1 + uprightForce;
                  Segment.y := y1;
                  Segment.prevX := Segment.prevX seg;
                  Segment.prevY := Segment.prevY seg;
                  Segment.velocityX := Segment.velocityX seg;
                  Segment.velocityY := Segment.velocityY seg;
                  Segment.flexibility := Segment.flexibility seg |} ]> segs))).

(** First segment anchored: [segments[0].x = 0; segments[0].y = 0]. *)
Definition anchor (segs : list Segment.t) : outcome (list Segment.t) :=
  bind (at_index segs 0) (fun seg =>
    Returned
      (<[ 0%nat := {| Segment.x := 0; Segment.y := 0;
                      Segment.prevX := Segment.prevX seg;
                      Segment.prevY := Segment.prevY seg;
                      Segment.velocityX := Segment.velocityX seg;
                      Segment.velocityY := Segment.velocityY seg;
                      Segment.flexibility := Segment.flexibility seg |} ]> segs)).

(** Update leaf physics *)
Definition updateLeaf (segs : list Segment.t) (activeSegments : nat)
    (secondaryWave : R) (leaf : Leaf.t) : outcome Leaf.t :=
  if Rle_dec (Leaf.unfold leaf) 0 then Returned leaf
  else
    bind (at_index segs (Nat.min (Leaf.segmentIndex leaf) activeSegments))
      (fun seg =>
        let segVelocity := Segment.x seg - Segment.prevX seg in
        (* Leaf reacts to stem movement *)
        let targetAngle := Leaf.baseAngle leaf + segVelocity * 0.5
                           + secondaryWave * Leaf.side leaf in
        let angleDiff := targetAngle - Leaf.angle leaf in
        let angleVelocity :=
          (Leaf.angleVelocity leaf + angleDiff * 0.15) * 0.85 in
        Returned
          {| Leaf.segmentIndex := Leaf.segmentIndex leaf;
             Leaf.size := Leaf.size leaf;
             Leaf.baseAngle := Leaf.baseAngle leaf;
             Leaf.angle := Leaf.angle leaf + angleVelocity;
             Leaf.angleVelocity := angleVelocity;
             Leaf.unfold := Leaf.unfold leaf;
             Leaf.side := Leaf.side leaf |}).

(** [leaves.forEach(...)] with a body that may throw. *)
Fixpoint updateLeaves (segs : list Segment.t) (activeSegments : nat)
    (secondaryWave : R) (ls : list Leaf.t) : outcome (list Leaf.t) :=
  match ls with
  | [] => Returned []
  | leaf :: rest =>
      bind (updateLeaf segs activeSegments secondaryWave leaf) (fun leaf' =>
      bind (updateLeaves segs activeSegments secondaryWave rest) (fun rest' =>
        Returned (leaf' :: rest')))
  end.

(** [update(deltaTime, wind)] on a visible stem; [now] is the reading of
    [performance.now()]. *)
Definition updateVisible (deltaTime : R) (wind : option Vec2) (now : R)
    (s : t) : outcome t :=
  let dt := deltaTime * 0.001 in
  let time := now * 0.001 in
  (* Growth animation with easing *)
  let growthSpeed := 0.35 in
  let growthProgress1 :=
    if Rlt_dec (growthProgress s) 1
    then Rmin 1 (growthProgress s + dt * growthSpeed)
    else growthProgress s in
  let leaves1 :=
    if Rlt_dec (growthProgress s) 1
    then unfoldLeaf (segmentCount s) growthProgress1 <$> leaves s
    else leaves s in
  (* Secondary wave for organic motion *)
  let secondaryWave1 := sin (time * waveSpeed s) * 0.02 in
  (* Slow-mo effect decay *)
  let slowMoProgress1 :=
    if slowMoActive s then slowMoProgress s + dt else slowMoProgress s in
  let slowMoExpired := slowMoActive s && JSMath.ltb 3 slowMoProgress1 in
  let slowMoActive2 := slowMoActive s && negb slowMoExpired in
  let slowMoProgress2 := if slowMoExpired then 0 else slowMoProgress1 in
  (* Calculate number of active segments based on growth *)
  let activeSegments :=
    Z.to_nat (JSMath.ceil (INR (segmentCount s) * growthProgress1)) in
  let indices := seq 1 activeSegments in
  (* Apply forces to each segment *)
  bind (for_each (applyForces dt time wind s slowMoActive2 slowMoProgress2)
                 indices (segments s)) (fun segs =>
  (* Constraint: maintain segment distances (stiff rod constraint) *)
  let segmentLength := height s / INR (segmentCount s) in
  bind (for_each (applyConstraint s segmentLength)
                 (indices ++ indices ++ indices) segs) (fun segs =>
  bind (anchor segs) (fun segs =>
  (* Calculate overall angle for flower *)
  bind (at_index segs activeSegments) (fun topSeg =>
  let angle1 := JSMath.atan2_neg (Segment.x topSeg) (Segment.y topSeg) in
  bind (updateLeaves segs activeSegments secondaryWave1 leaves1)
    (fun leaves2 =>
      Returned
        (set_motion segs angle1 secondaryWave1 slowMoActive2 slowMoProgress2
           (set_growth (visible s) growthProgress1 leaves2 s))))))).

(** [update(deltaTime, wind)]; [wind] is [None] when the argument is
    [undefined]. *)
Definition update (deltaTime : R) (wind : option Vec2) (now : R) (s : t)
  : outcome t :=
  if negb (visible s) then Returned s
  else updateVisible deltaTime wind now s.

(** [triggerSlowSway()]; [rand i] is the draw for segment [i]. *)
Definition triggerSlowSway (rand : nat -> R) (s : t) : outcome t :=
  (* Give initial impulse *)
  let topHalf := (segmentCount s / 2)%nat in
  bind (for_each
          (fun i segs =>
             bind (at_index segs i) (fun seg =>
               Returned
                 (<[ i := {| Segment.x := Segment.x seg + (rand i - 0.5) * 5;
                             Segment.y := Segment.y seg;
                             Segment.prevX := Segment.prevX seg;
                             Segment.prevY := Segment.prevY seg;
                             Segment.velocityX := Segment.velocityX seg;
                             Segment.velocityY := Segment.velocityY seg;
                             Segment.flexibility := Segment.flexibility seg |} ]>
                    segs)))
          (seq topHalf (S (segmentCount s) - topHalf)) (segments s))
    (fun segs => Returned (set_motion segs (angle s) (secondaryWave s) true 0 s)).

End Stem.

(** ** CorePulse.js *)

Module ShimmerParticle.
Record t : Type := { angle : R; distance : R; targetDistance : R; alpha : R }.
End ShimmerParticle.

Module OrbitParticle.
Record t : Type :=
  { angle : R; speed : R; distance : R; size : R; alpha : R }.
End OrbitParticle.

Module TextureSeed.
Record t : Type := { angle : R; distance : R; size : R; brightness : R }.
End TextureSeed.

Module CorePulse.
Local Open Scope R_scope.

Record t : Type := {
  x : R;
  y : R;
  radius : R;
  baseRadius : R;
  (* Pulsation state *)
  pulsePhase : R;
  pulseIntensity : R;
  breathingDepth : R;
  (* Shimmer effect *)
  shimmerActive : bool;
  shimmerProgress : R;
  shimmerParticles : list ShimmerParticle.t;
  (* Glow state *)
  glowIntensity : R;
  targetGlow : R;
  (* Magnetism (weak cursor attraction) *)
  magnetOffset : Vec2;
  (* Animation *)
  visible : bool;
  fillProgress : R;
  (* Micro-texture seeds *)
  textureSeeds : list TextureSeed.t;
  (* Orbiting micro-particles *)
  orbitParticles : list OrbitParticle.t;
  orbitActive : bool
}.

(** [new CorePulse(x, y, radius)]; [rand i] gives the four draws of
    texture seed [i]. *)
Definition new (x y radius : R) (rand : nat -> nat -> R) : t := {|
  x := x;
  y := y;
  radius := radius;
  baseRadius := radius;
  pulsePhase := 0;
  pulseIntensity := PHYSICS.centerPulseAmount;
  breathingDepth := 1;
  shimmerActive := false;
  shimmerProgress := 0;
  shimmerParticles := [];
  glowIntensity := 0;
  targetGlow := 0;
  magnetOffset := {| vx := 0; vy := 0 |};
  visible := false;
  fillProgress := 0;
  textureSeeds :=
    (fun i : nat =>
       {| TextureSeed.angle := Utils.randomRange (rand i 0%nat) 0 (PI * 2);
          TextureSeed.distance := Utils.randomRange (rand i 1%nat) 0.2 0.9;
          TextureSeed.size := Utils.randomRange (rand i 2%nat) 1 3;
          TextureSeed.brightness := Utils.randomRange (rand i 3%nat) 0.8 1.2 |})
      <$> seq 0 50;
  orbitParticles := [];
  orbitActive := false
|}.

Definition updatePosition (x' y' : R) (c : t) : t :=
  {| x := x'; y := y'; radius := radius c; baseRadius := baseRadius c;
     pulsePhase := pulsePhase c; pulseIntensity := pulseIntensity c;
     breathingDepth := breathingDepth c; shimmerActive := shimmerActive c;
     shimmerProgress := shimmerProgress c;
     shimmerParticles := shimmerParticles c;
     glowIntensity := glowIntensity c; targetGlow := targetGlow c;
     magnetOffset := magnetOffset c; visible := visible c;
     fillProgress := fillProgress c; textureSeeds := textureSeeds c;
     orbitParticles := orbitParticles c; orbitActive := orbitActive c |}.

Definition startFill (c : t) : t :=
  {| x := x c; y := y c; radius := radius c; baseRadius := baseRadius c;
     pulsePhase := pulsePhase c; pulseIntensity := pulseIntensity c;
     breathingDepth := breathingDepth c; shimmerActive := shimmerActive c;
     shimmerProgress := shimmerProgress c;
     shimmerParticles := shimmerParticles c;
     glowIntensity := glowIntensity c; targetGlow := targetGlow c;
     magnetOffset := magnetOffset c; visible := true;
     fillProgress := 0; textureSeeds := textureSeeds c;
     orbitParticles := orbitParticles c; orbitActive := orbitActive c |}.

(** Check if point is within center *)
Definition containsPoint (px py : R) (c : t) : bool :=
  if negb (visible c) || JSMath.ltb (fillProgress c) 0.5 then false
  else
    let dx := px - (x c + vx (magnetOffset c)) in
    let dy := py - (y c + vy (magnetOffset c)) in
    JSMath.ltb (JSMath.hypot dx dy) (radius c * fillProgress c).

Definition set_hover (targetGlow breathingDepth : R) (magnetOffset : Vec2)
    (orbitParticles : list OrbitParticle.t) (orbitActive : bool) (c : t) : t :=
  {| x := x c; y := y c; radius := radius c; baseRadius := baseRadius c;
     pulsePhase := pulsePhase c; pulseIntensity := pulseIntensity c;
     breathingDepth := breathingDepth; shimmerActive := shimmerActive c;
     shimmerProgress := shimmerProgress c;
     shimmerParticles := shimmerParticles c;
     glowIntensity := glowIntensity c; targetGlow := targetGlow;
     magnetOffset := magnetOffset; visible := visible c;
     fillProgress := fillProgress c; textureSeeds := textureSeeds c;
     orbitParticles := orbitParticles; orbitActive := orbitActive |}.

(** Start orbiting particles (hover effect); [rand i] gives the two
    draws of particle [i]. *)
Definition startOrbit (rand : nat -> nat -> R) (c : t) : t :=
  if orbitActive c then c
  else
    set_hover (targetGlow c) (breathingDepth c) (magnetOffset c)
      ((fun i : nat =>
          {| OrbitParticle.angle := (INR i / 6) * PI * 2;
             OrbitParticle.speed := Utils.randomRange (rand i 0%nat) 0.5 1;
             OrbitParticle.distance := radius c * 1.2;
             OrbitParticle.size := Utils.randomRange (rand i 1%nat) 1 2;
             OrbitParticle.alpha := 0 |}) <$> seq 0 6)
      true c.

Definition stopOrbit (c : t) : t :=
  set_hover (targetGlow c) (breathingDepth c) (magnetOffset c)
    (orbitParticles c) false c.

(** Hover effects *)
Definition setHovered (hovered : bool) (cursorX cursorY : R)
    (rand : nat -> nat -> R) (c : t) : t :=
  if hovered then
    let c := set_hover 0.4 1.5 (magnetOffset c) (orbitParticles c)
               (orbitActive c) c in
    let c := startOrbit rand c in
    (* Weak magnetism toward cursor *)
    let dx := cursorX - x c in
    let dy := cursorY - y c in
    set_hover (targetGlow c) (breathingDepth c)
      {| vx := dx * 0.02; vy := dy * 0.02 |}
      (orbitParticles c) (orbitActive c) c
  else
    let c := set_hover 0 1 (magnetOffset c) (orbitParticles c)
               (orbitActive c) c in
    let c := stopOrbit c in
    set_hover (targetGlow c) (breathingDepth c) {| vx := 0; vy := 0 |}
      (orbitParticles c) (orbitActive c) c.

Definition set_pulse (pulseIntensity : R) (shimmerActive : bool)
    (shimmerProgress : R) (shimmerParticles : list ShimmerParticle.t)
    (c : t) : t :=
  {| x := x c; y := y c; radius := radius c; baseRadius := baseRadius c;
     pulsePhase := pulsePhase c; pulseIntensity := pulseIntensity;
     breathingDepth := breathingDepth c; shimmerActive := shimmerActive;
     shimmerProgress := shimmerProgress;
     shimmerParticles := shimmerParticles;
     glowIntensity := glowIntensity c; targetGlow := targetGlow c;
     magnetOffset := magnetOffset c; visible := visible c;
     fillProgress := fillProgress c; textureSeeds := textureSeeds c;
     orbitParticles := orbitParticles c; orbitActive := orbitActive c |}.

(** Shimmer effect *)
Definition triggerShimmer (c : t) : t :=
  set_pulse (pulseIntensity c) true 0
    ((fun i : nat =>
        {| ShimmerParticle.angle := (INR i / 12) * PI * 2;
           ShimmerParticle.distance := radius c * 0.5;
           ShimmerParticle.targetDistance := radius c * 1.5;
           ShimmerParticle.alpha := 1 |}) <$> seq 0 12) c.

(** Click effect *)
Definition triggerClick (c : t) : t * list (R * TimerAction) :=
  let c := triggerShimmer c in
  (set_pulse (PHYSICS.centerPulseAmount * 2) (shimmerActive c)
     (shimmerProgress c) (shimmerParticles c) c,
   [(500, CoreResetPulse)]).

(** Body of the [triggerClick] timer. *)
Definition resetPulse (c : t) : t :=
  set_pulse PHYSICS.centerPulseAmount (shimmerActive c) (shimmerProgress c)
    (shimmerParticles c) c.

(** Sync with audio (called from AudioLayer) *)
Definition syncWithAudio (intensity : R) (c : t) : t :=
  set_pulse (PHYSICS.centerPulseAmount * (1 + intensity * 0.5))
    (shimmerActive c) (shimmerProgress c) (shimmerParticles c) c.

(** [update(deltaTime, musicIntensity = 0)] on a visible core. *)
Definition updateVisible (deltaTime : R) (musicIntensity : option R) (c : t)
  : t :=
  let musicIntensity := default 0 musicIntensity in
  (* Fill animation *)
  let fillProgress1 :=
    if Rlt_dec (fillProgress c) 1
    then Rmin 1 (fillProgress c + deltaTime * 0.0008)
    else fillProgress c in
  (* Breathing pulsation *)
  let pulsePhase1 :=
    pulsePhase c + deltaTime * 0.001 * PHYSICS.centerPulseSpeed in
  let breathe := sin pulsePhase1 * pulseIntensity c * breathingDepth c in
  let radius1 := baseRadius c * (1 + breathe) * fillProgress1 in
  (* Sync with music if provided *)
  let radius2 :=
    if Rlt_dec 0 musicIntensity then radius1 * (1 + musicIntensity * 0.02)
    else radius1 in
  (* Glow lerp *)
  let glowIntensity1 := Utils.lerp (glowIntensity c) (targetGlow c) 0.1 in
  (* Magnetism decay *)
  let magnetOffset1 :=
    {| vx := vx (magnetOffset c) * 0.95; vy := vy (magnetOffset c) * 0.95 |} in
  (* Shimmer update *)
  let shimmerProgress1 :=
    if shimmerActive c
    then shimmerProgress c + deltaTime / TIMING.shimmerDuration
    else shimmerProgress c in
  let shimmerDone := shimmerActive c && JSMath.leb 1 shimmerProgress1 in
  let shimmerParticles1 :=
    if shimmerActive c then
      if shimmerDone then []
      else (fun p =>
              {| ShimmerParticle.angle := ShimmerParticle.angle p;
                 ShimmerParticle.distance :=
                   Utils.lerp (ShimmerParticle.distance p)
                              (ShimmerParticle.targetDistance p) 0.1;
                 ShimmerParticle.targetDistance :=
                   ShimmerParticle.targetDistance p;
                 ShimmerParticle.alpha := 1 - shimmerProgress1 |})
             <$> shimmerParticles c
    else shimmerParticles c in
  (* Orbit update *)
  let orbitParticles1 :=
    if orbitActive c then
      (fun p =>
         {| OrbitParticle.angle :=
              OrbitParticle.angle p + deltaTime * 0.002 * OrbitParticle.speed p;
            OrbitParticle.speed := OrbitParticle.speed p;
            OrbitParticle.distance := OrbitParticle.distance p;
            OrbitParticle.size := OrbitParticle.size p;
            OrbitParticle.alpha := Utils.lerp (OrbitParticle.alpha p) 0.6 0.05 |})
        <$> orbitParticles c
    else
      let faded :=
        (fun p =>
           {| OrbitParticle.angle := OrbitParticle.angle p;
              OrbitParticle.speed := OrbitParticle.speed p;
              OrbitParticle.distance := OrbitParticle.distance p;
              OrbitParticle.size := OrbitParticle.size p;
              OrbitParticle.alpha := OrbitParticle.alpha p * 0.9 |})
          <$> orbitParticles c in
      match faded with
      | first :: _ =>
          if Rlt_dec (OrbitParticle.alpha first) 0.01 then [] else faded
      | [] => faded
      end in
  {| x := x c; y := y c; radius := radius2; baseRadius := baseRadius c;
     pulsePhase := pulsePhase1; pulseIntensity := pulseIntensity c;
     breathingDepth := breathingDepth c;
     shimmerActive := shimmerActive c && negb shimmerDone;
     shimmerProgress := shimmerProgress1;
     shimmerParticles := shimmerParticles1;
     glowIntensity := glowIntensity1; targetGlow := targetGlow c;
     magnetOffset := magnetOffset1; visible := visible c;
     fillProgress := fillProgress1; textureSeeds := textureSeeds c;
     orbitParticles := orbitParticles1; orbitActive := orbitActive c |}.

(** [update(deltaTime, musicIntensity = 0)]; [musicIntensity] is [None]
    when the argument is omitted. *)
Definition update (deltaTime : R) (musicIntensity : option R) (c : t) : t :=
  if negb (visible c) then c else updateVisible deltaTime musicIntensity c.

(** The calls made on the core by the flower and by the click timer. *)
Inductive op : Type :=
| OpUpdatePosition (x y : R)
| OpStartFill
| OpSetHovered (hovered : bool) (cursorX cursorY : R) (rand : nat -> nat -> R)
| OpTriggerClick
| OpResetPulse
| OpSyncWithAudio (intensity : R)
| OpUpdate (deltaTime : R) (musicIntensity : option R).

Definition apply (o : op) (c : t) : t :=
  match o with
  | OpUpdatePosition x y => updatePosition x y c
  | OpStartFill => startFill c
  | OpSetHovered hovered cursorX cursorY rand =>
      setHovered hovered cursorX cursorY rand c
  | OpTriggerClick => fst (triggerClick c)
  | OpResetPulse => resetPulse c
  | OpSyncWithAudio intensity => syncWithAudio intensity c
  | OpUpdate deltaTime musicIntensity => update deltaTime musicIntensity c
  end.

(** The core's history: the calls made on it, oldest first. *)
Definition history (ops : list op) (c : t) : t :=
  fold_left (fun c o => apply o c) ops c.

(** An [update] is called with a frame time that is not negative. *)
Definition frame_nonneg (o : op) : Prop :=
  match o with
  | OpUpdate deltaTime _ => 0 <= deltaTime
  | _ => True
  end.

End CorePulse.

(* ===================================================================== *)
(** * Part II: properties                                                 *)
(* ===================================================================== *)

Module EntranceAnimationSpec.
Import EntranceAnimation.
Local Open Scope Q_scope.

Example run_spec_scenario :
  fired (run 0 [0; 1499; 1500; 4000; 7000; 9000]) = all_callbacks.
Proof. reflexivity. Qed.

Example run_one_jump : fired (run 100 [20000]) = all_callbacks.
Proof. reflexivity. Qed.

Example run_short : fired (run 0 [0; 1499]) = [cbStageA].
Proof. reflexivity. Qed.

Lemma start_st t0 : start t0 registered = st t0 false false false false.
Proof. reflexivity. Qed.

(** The thresholds increase, so a later callback due means the earlier
    ones are due as well. *)
Lemma due_chain t0 now :
  chain (due cbStageB t0 now) (due cbStageC t0 now)
        (due cbStageD t0 now) (due cbComplete t0 now).
Proof.
  unfold chain, due, threshold. rewrite !Qle_bool_iff. cbn.
  repeat split; intros H; Lqa.lra.
Qed.

(** Discharge a goal whose context holds a violated link of a chain. *)
Ltac chain_contra :=
  match goal with
  | H : true = true -> false = true |- _ => discriminate (H eq_refl)
  end.

Lemma chain_orb b c d k b' c' d' k' :
  chain b c d k -> chain b' c' d' k' ->
  chain (b || b') (c || c') (d || d') (k || k').
Proof.
  unfold chain. intros (H1 & H2 & H3) (H4 & H5 & H6).
  destruct b, c, d, k; try chain_contra;
    destruct b', c', d', k'; try chain_contra;
    cbn; repeat split; intros; reflexivity || assumption.
Qed.

(** One [update()] takes exactly the transitions that are due and not
    yet taken. *)
Lemma update_st t0 now b c d k :
  chain b c d k ->
  update now (st t0 b c d k)
  = st t0 (b || due cbStageB t0 now) (c || due cbStageC t0 now)
          (d || due cbStageD t0 now) (k || due cbComplete t0 now).
Proof.
  intros (H1 & H2 & H3).
  destruct (due_chain t0 now) as (H4 & H5 & H6).
  unfold due, threshold in *.
  destruct k.
  { (* already complete: the guard returns at once *)
    destruct d; [|chain_contra]. destruct c; [|chain_contra].
    destruct b; [|chain_contra]. reflexivity. }
  unfold update. cbn [st isPlaying isComplete startTime negb orb].
  set (rB := Qle_bool (TIMING.start TIMING.stageB) (now - t0)) in *.
  set (rC := Qle_bool (TIMING.start TIMING.stageC) (now - t0)) in *.
  set (rD := Qle_bool (TIMING.start TIMING.stageD) (now - t0)) in *.
  set (rK := Qle_bool (TIMING.end_ TIMING.stageD) (now - t0)) in *.
  assert (EB : stepB (now - t0) (st t0 b c d false)
               = st t0 (b || rB) c d false).
  { unfold stepB. fold rB. clearbody rB rC rD rK.
    destruct b, c, d; try chain_contra; destruct rB; reflexivity. }
  rewrite EB.
  assert (EC : stepC (now - t0) (st t0 (b || rB) c d false)
               = st t0 (b || rB) (c || rC) d false).
  { unfold stepC. fold rC. clearbody rB rC rD rK.
    destruct b, c, d; try chain_contra;
      destruct rB, rC; try chain_contra; reflexivity. }
  rewrite EC.
  assert (ED : stepD (now - t0) (st t0 (b || rB) (c || rC) d false)
               = st t0 (b || rB) (c || rC) (d || rD) false).
  { unfold stepD. fold rD. clearbody rB rC rD rK.
    destruct b, c, d; try chain_contra;
      destruct rB, rC, rD; try chain_contra; reflexivity. }
  rewrite ED.
  unfold stepComplete. fold rK. clearbody rB rC rD rK.
  destruct b, c, d; try chain_contra;
    destruct rB, rC, rD, rK; try chain_contra; reflexivity.
Qed.

Lemma updates_st t0 nows : forall b c d k,
  chain b c d k ->
  updates nows (st t0 b c d k)
  = st t0 (b || reached (threshold cbStageB) t0 nows)
          (c || reached (threshold cbStageC) t0 nows)
          (d || reached (threshold cbStageD) t0 nows)
          (k || reached (threshold cbComplete) t0 nows).
Proof.
  induction nows as [|now rest IH]; intros b c d k Hc.
  - cbn. now rewrite !orb_false_r.
  - change (updates (now :: rest) (st t0 b c d k))
      with (updates rest (update now (st t0 b c d k))).
    rewrite update_st by exact Hc.
    rewrite IH by (apply chain_orb; [exact Hc | apply due_chain]).
    cbn [reached existsb]. fold (due cbStageB t0 now) (due cbStageC t0 now)
      (due cbStageD t0 now) (due cbComplete t0 now).
    now rewrite !orb_assoc.
Qed.

Lemma reached_chain t0 nows :
  chain (reached (threshold cbStageB) t0 nows)
        (reached (threshold cbStageC) t0 nows)
        (reached (threshold cbStageD) t0 nows)
        (reached (threshold cbComplete) t0 nows).
Proof.
  induction nows as [|now rest IH].
  - cbn. unfold chain. repeat split; intros H; exact H.
  - cbn [reached existsb]. apply chain_orb; [apply due_chain | exact IH].
Qed.

(** Closed form of every run: which transitions were taken depends only
    on which thresholds some [update()] has seen. *)
Lemma run_st t0 nows :
  run t0 nows
  = st t0 (reached (threshold cbStageB) t0 nows)
          (reached (threshold cbStageC) t0 nows)
          (reached (threshold cbStageD) t0 nows)
          (reached (threshold cbComplete) t0 nows).
Proof.
  unfold run. rewrite start_st, updates_st.
  - reflexivity.
  - unfold chain. repeat split; intros H; exact H.
Qed.

(** C1, as stated, fails: a run whose updates all come before the
    stage B threshold has fired the stage B callback zero times. *)
Lemma entrance_exactly_once_fails :
  ~ (forall (t0 : Q) (nows : list Q) (c : Callback),
       count_fired c (run t0 nows) = 1%nat).
Proof.
  intros H. specialize (H 0 [0; 1499] cbStageB). vm_compute in H.
  discriminate H.
Qed.

(** C1, amended.  For every start time and every sequence of [update()]
    clock readings (of any length, in any order): the callbacks fired so
    far are an initial segment of A, B, C, D, Complete, so each has fired
    at most once and in that order; stage A has fired once, and any other
    callback has fired once exactly when some [update()] saw an elapsed
    time at or past its threshold (1500, 4000, 7000, 9000 ms), otherwise
    not at all.  In particular all five have fired exactly once as soon
    as one update reaches 9000 ms, and after completion [update()] changes
    nothing, so no callback fires again. *)
Theorem entrance_callbacks_once_in_order (t0 : Q) (nows : list Q) :
  let s := run t0 nows in
  (exists n : nat, (1 <= n)%nat /\ fired s = firstn n all_callbacks)
  /\ (forall c : Callback,
        count_fired c s
        = if Callback_eq_dec c cbStageA then 1%nat
          else if reached (threshold c) t0 nows then 1%nat else 0%nat)
  /\ (reached (threshold cbComplete) t0 nows = true ->
      fired s = all_callbacks)
  /\ (isComplete s = true -> forall now : Q, update now s = s).
Proof.
  cbv zeta. rewrite run_st.
  destruct (reached_chain t0 nows) as (H1 & H2 & H3).
  destruct (reached (threshold cbStageB) t0 nows) eqn:Eb,
    (reached (threshold cbStageC) t0 nows) eqn:Ec,
    (reached (threshold cbStageD) t0 nows) eqn:Ed,
    (reached (threshold cbComplete) t0 nows) eqn:Ek;
    try chain_contra.
  all: clear H1 H2 H3; cbn in Eb, Ec, Ed, Ek.
  all: split;
    [ first [ exists 5%nat; split; [lia | reflexivity]
            | exists 4%nat; split; [lia | reflexivity]
            | exists 3%nat; split; [lia | reflexivity]
            | exists 2%nat; split; [lia | reflexivity]
            | exists 1%nat; split; [lia | reflexivity] ]
    | split;
      [ intros c; destruct c; unfold count_fired; cbn;
        rewrite ?Eb, ?Ec, ?Ed, ?Ek; reflexivity
      | split;
        [ intros H; first [discriminate H | reflexivity]
        | cbn [st isComplete]; intros H now;
          first [discriminate H | reflexivity] ] ] ].
Qed.

(** The amended statement at the scenario of the specification: elapsed
    times 0, 1499, 1500, 4000, 7000, 9000 ms. *)
Lemma entrance_callbacks_once_in_order_witness :
  let s := run 0 [0; 1499; 1500; 4000; 7000; 9000] in
  fired s = all_callbacks /\ forall now : Q, update now s = s.
Proof.
  pose proof (entrance_callbacks_once_in_order
                0 [0; 1499; 1500; 4000; 7000; 9000]) as (_ & _ & H3 & H4).
  split; [apply H3; reflexivity | apply H4; reflexivity].
Defined.

End EntranceAnimationSpec.

Module StateManagerSpec.
Import StateManager.
Local Open Scope Q_scope.

Example night_trace :
  trace (updates [100; 120000; 150000; 160000]
           (onNightShift (new 0 0)))
  = [NightShift (30000 # 60000); NightShift 1; NightShift 1].
Proof. vm_compute. reflexivity. Qed.

(** *** Night shift *)

(** [invoke] only ever touches the trace. *)
Lemma invoke_night r e s :
  nightShiftActive (invoke r e s) = nightShiftActive s
  /\ nightShiftProgress (invoke r e s) = nightShiftProgress s
  /\ sessionStartTime (invoke r e s) = sessionStartTime s.
Proof. destruct r; repeat split. Qed.

Lemma stepIdle_night now s :
  nightShiftActive (stepIdle now s) = nightShiftActive s
  /\ nightShiftProgress (stepIdle now s) = nightShiftProgress s
  /\ sessionStartTime (stepIdle now s) = sessionStartTime s.
Proof.
  unfold stepIdle.
  destruct (negb (isIdle s) && _); [|repeat split].
  destruct (cb_onIdleStart _); repeat split.
Qed.

Lemma stepCuriosity_night now s :
  nightShiftActive (stepCuriosity now s) = nightShiftActive s
  /\ nightShiftProgress (stepCuriosity now s) = nightShiftProgress s
  /\ sessionStartTime (stepCuriosity now s) = sessionStartTime s.
Proof.
  unfold stepCuriosity.
  destruct (curiosityActive s && _); [|repeat split].
  destruct (cb_onCuriosityEnd _); repeat split.
Qed.

Lemma stepNightActivate_progress now s :
  nightShiftProgress (stepNightActivate now s) = nightShiftProgress s.
Proof.
  unfold stepNightActivate.
  destruct (negb (nightShiftActive s) && _); reflexivity.
Qed.

(** The night-shift block never lowers the progress, and keeps it at or
    below 1. *)
Lemma stepNightProgress_mono now s :
  nightShiftProgress s <= 1 ->
  nightShiftProgress s <= nightShiftProgress (stepNightProgress now s)
  /\ nightShiftProgress (stepNightProgress now s) <= 1.
Proof.
  intros H1. unfold stepNightProgress.
  destruct (nightShiftActive s); [|split; [apply Qle_refl | exact H1]].
  destruct (Qlt_le_dec _ _) as [Hlt|Hle]; [|split; [apply Qle_refl | exact H1]].
  destruct (invoke_night (cb_onNightShift (callbacks
     (set_night true (Qmin 1 ((now - (sessionStartTime s
        + TIMING.nightShiftThreshold)) / TIMING.nightTransitionDuration)) s)))
     (NightShift (nightShiftProgress
     (set_night true (Qmin 1 ((now - (sessionStartTime s
        + TIMING.nightShiftThreshold)) / TIMING.nightTransitionDuration)) s)))
     (set_night true (Qmin 1 ((now - (sessionStartTime s
        + TIMING.nightShiftThreshold)) / TIMING.nightTransitionDuration)) s))
    as (_ & -> & _).
  cbn [set_night nightShiftProgress]. split.
  - apply Q.min_glb; [exact H1 | apply Qlt_le_weak; exact Hlt].
  - apply Q.le_min_l.
Qed.

(** [getNightProgress()] never decreases across an [update()], whatever
    the clock reading, and stays within [0, 1]. *)
Lemma update_night_monotone now s :
  nightShiftProgress s <= 1 ->
  getNightProgress s <= getNightProgress (update now s)
  /\ getNightProgress (update now s) <= 1.
Proof.
  intros H1. unfold update, getNightProgress.
  set (s' := stepNightActivate now (stepCuriosity now (stepIdle now s))).
  assert (E : nightShiftProgress s' = nightShiftProgress s).
  { unfold s'. rewrite stepNightActivate_progress.
    destruct (stepCuriosity_night now (stepIdle now s)) as (_ & -> & _).
    destruct (stepIdle_night now s) as (_ & -> & _). reflexivity. }
  rewrite <- E in *. apply stepNightProgress_mono. exact H1.
Qed.

(** C6: after the ramp has saturated, an [update()] leaves
    [getNightProgress()] at 1 and still invokes [onNightShift].  The guard
    compares the unclamped ratio (here 70000/60000) with the stored,
    clamped progress (1), so it holds on every later frame. *)
Theorem night_shift_callback_refires_when_saturated :
  let s1 := update 150000 (onNightShift (new 0 0)) in
  let s2 := update 160000 s1 in
  getNightProgress s1 = 1
  /\ getNightProgress s2 = 1
  /\ trace s1 = [NightShift 1]
  /\ trace s2 = [NightShift 1; NightShift 1]
  /\ count_NightShift s1 = 1%nat
  /\ count_NightShift s2 = 2%nat.
Proof. vm_compute. repeat split. Qed.

(** *** Curiosity mode *)

(** The curiosity-related part of the state. *)
Lemma invoke_fields r e s :
  curiosityActive (invoke r e s) = curiosityActive s
  /\ curiosityEndTime (invoke r e s) = curiosityEndTime s
  /\ interactionTypes (invoke r e s) = interactionTypes s
  /\ callbacks (invoke r e s) = callbacks s
  /\ count_CuriosityStart (invoke r e s)
     = (count_CuriosityStart s
        + if r && is_CuriosityStart e then 1 else 0)%nat.
Proof.
  unfold count_CuriosityStart.
  destruct r; cbn [invoke andb trace curiosityActive curiosityEndTime
                   interactionTypes callbacks]; repeat split; try lia.
  rewrite List.filter_app, length_app. cbn [List.filter].
  destruct (is_CuriosityStart e); reflexivity.
Qed.

Lemma touch_fields now s :
  curiosityActive (touch now s) = curiosityActive s
  /\ curiosityEndTime (touch now s) = curiosityEndTime s
  /\ interactionTypes (touch now s) = interactionTypes s
  /\ callbacks (touch now s) = callbacks s
  /\ count_CuriosityStart (touch now s) = count_CuriosityStart s.
Proof.
  unfold touch. cbv zeta.
  match goal with |- context [invoke ?r ?e ?x] =>
    destruct (invoke_fields r e x) as (-> & -> & -> & -> & ->) end.
  rewrite andb_false_r. repeat split. unfold count_CuriosityStart.
  cbn [trace]. lia.
Qed.

Lemma track_fields ty x y s :
  curiosityActive (track ty x y s) = curiosityActive s
  /\ curiosityEndTime (track ty x y s) = curiosityEndTime s
  /\ interactionTypes (track ty x y s) = {[ ty ]} ∪ interactionTypes s
  /\ callbacks (track ty x y s) = callbacks s
  /\ count_CuriosityStart (track ty x y s) = count_CuriosityStart s.
Proof. repeat split. Qed.

(** State after the two unconditional halves of [recordInteraction]. *)
Lemma touch_track_fields now ty x y s :
  let s1 := track ty x y (touch now s) in
  curiosityActive s1 = curiosityActive s
  /\ curiosityEndTime s1 = curiosityEndTime s
  /\ interactionTypes s1 = {[ ty ]} ∪ interactionTypes s
  /\ callbacks s1 = callbacks s
  /\ count_CuriosityStart s1 = count_CuriosityStart s.
Proof.
  cbv zeta.
  destruct (track_fields ty x y (touch now s)) as (-> & -> & -> & -> & ->).
  destruct (touch_fields now s) as (-> & -> & -> & -> & ->).
  repeat split.
Qed.

(** Recording an interaction while curiosity is inactive and fewer than
    three types are known: nothing is activated. *)
Lemma record_below_three now now' ty x y s :
  curiosityActive s = false ->
  (size ({[ ty ]} ∪ interactionTypes s) < 3)%nat ->
  let s' := recordInteraction now now' ty x y s in
  curiosityActive s' = false
  /\ interactionTypes s' = {[ ty ]} ∪ interactionTypes s
  /\ callbacks s' = callbacks s
  /\ count_CuriosityStart s' = count_CuriosityStart s.
Proof.
  intros Ha Hsz. cbv zeta. unfold recordInteraction. cbv zeta.
  destruct (touch_track_fields now ty x y s) as (E1 & E2 & E3 & E4 & E5).
  rewrite E3, E1, Ha.
  destruct (Nat.leb_spec 3 (size ({[ty]} ∪ interactionTypes s))) as [Hge|_];
    [lia|].
  cbn [andb]. rewrite E1, E3, E4, E5. repeat split. exact Ha.
Qed.

(** Recording the interaction that brings the number of known types to
    three while curiosity is inactive: [onCuriosityStart] fires once and
    the mode lasts [curiosityDuration] from the clock reading [now']. *)
Lemma record_third now now' ty x y s :
  curiosityActive s = false ->
  cb_onCuriosityStart (callbacks s) = true ->
  (3 <= size ({[ ty ]} ∪ interactionTypes s))%nat ->
  let s' := recordInteraction now now' ty x y s in
  curiosityActive s' = true
  /\ curiosityEndTime s' = now' + TIMING.curiosityDuration
  /\ callbacks s' = callbacks s
  /\ count_CuriosityStart s' = S (count_CuriosityStart s).
Proof.
  intros Ha Hcb Hsz. cbv zeta. unfold recordInteraction. cbv zeta.
  destruct (touch_track_fields now ty x y s) as (E1 & E2 & E3 & E4 & E5).
  rewrite E3, E1, Ha.
  destruct (Nat.leb_spec 3 (size ({[ty]} ∪ interactionTypes s))) as [_|Hlt];
    [|lia].
  cbn [andb negb]. unfold activateCuriosity. cbv zeta.
  cbn [callbacks lastCursorX lastCursorY]. rewrite E4, Hcb.
  match goal with |- context [invoke true ?e ?x] =>
    destruct (invoke_fields true e x) as (-> & -> & _ & -> & ->) end.
  cbn [curiosityActive curiosityEndTime callbacks andb is_CuriosityStart].
  repeat split.
  unfold count_CuriosityStart in *. cbn [trace]. rewrite E5. lia.
Qed.

(** Recording any interaction while curiosity is active does not
    re-trigger it: no callback, same end time. *)
Lemma record_while_active now now' ty x y s :
  curiosityActive s = true ->
  let s' := recordInteraction now now' ty x y s in
  curiosityActive s' = true
  /\ curiosityEndTime s' = curiosityEndTime s
  /\ callbacks s' = callbacks s
  /\ count_CuriosityStart s' = count_CuriosityStart s.
Proof.
  intros Ha. cbv zeta. unfold recordInteraction. cbv zeta.
  destruct (touch_track_fields now ty x y s) as (E1 & E2 & E3 & E4 & E5).
  rewrite E1, Ha, andb_false_r, E1, E2, E4, E5. repeat split. exact Ha.
Qed.

(** The blocks of [update()] other than the curiosity check leave the
    curiosity state alone. *)
Lemma stepIdle_fields now s :
  curiosityActive (stepIdle now s) = curiosityActive s
  /\ curiosityEndTime (stepIdle now s) = curiosityEndTime s
  /\ interactionTypes (stepIdle now s) = interactionTypes s
  /\ callbacks (stepIdle now s) = callbacks s
  /\ count_CuriosityStart (stepIdle now s) = count_CuriosityStart s.
Proof.
  unfold stepIdle. destruct (negb (isIdle s) && _); [|repeat split].
  cbv zeta.
  match goal with |- context [invoke ?r ?e ?x] =>
    destruct (invoke_fields r e x) as (-> & -> & -> & -> & ->) end.
  rewrite andb_false_r. repeat split. unfold count_CuriosityStart.
  cbn [trace]. lia.
Qed.

Lemma stepNightActivate_fields now s :
  curiosityActive (stepNightActivate now s) = curiosityActive s
  /\ curiosityEndTime (stepNightActivate now s) = curiosityEndTime s
  /\ interactionTypes (stepNightActivate now s) = interactionTypes s
  /\ callbacks (stepNightActivate now s) = callbacks s
  /\ count_CuriosityStart (stepNightActivate now s) = count_CuriosityStart s.
Proof.
  unfold stepNightActivate. cbv zeta.
  destruct (negb (nightShiftActive s) && _); repeat split.
Qed.

Lemma stepNightProgress_fields now s :
  curiosityActive (stepNightProgress now s) = curiosityActive s
  /\ curiosityEndTime (stepNightProgress now s) = curiosityEndTime s
  /\ interactionTypes (stepNightProgress now s) = interactionTypes s
  /\ callbacks (stepNightProgress now s) = callbacks s
  /\ count_CuriosityStart (stepNightProgress now s) = count_CuriosityStart s.
Proof.
  unfold stepNightProgress. cbv zeta.
  destruct (nightShiftActive s); [|repeat split].
  destruct (Qlt_le_dec _ _); [|repeat split].
  match goal with |- context [invoke ?r ?e ?x] =>
    destruct (invoke_fields r e x) as (-> & -> & -> & -> & ->) end.
  rewrite andb_false_r. repeat split. unfold count_CuriosityStart.
  cbn [trace set_night]. lia.
Qed.

(** The curiosity check before the end time does nothing. *)
Lemma stepCuriosity_before now s :
  now < curiosityEndTime s -> stepCuriosity now s = s.
Proof.
  intros Hlt. unfold stepCuriosity.
  destruct (Qle_bool (curiosityEndTime s) now) eqn:E.
  - apply Qle_bool_iff in E. Lqa.lra.
  - now rewrite andb_false_r.
Qed.

(** The curiosity check at or after the end time deactivates the mode and
    clears the tracked types. *)
Lemma stepCuriosity_after now s :
  curiosityActive s = true ->
  curiosityEndTime s <= now ->
  curiosityActive (stepCuriosity now s) = false
  /\ interactionTypes (stepCuriosity now s) = ∅
  /\ callbacks (stepCuriosity now s) = callbacks s
  /\ count_CuriosityStart (stepCuriosity now s) = count_CuriosityStart s.
Proof.
  intros Ha Hle. unfold stepCuriosity. rewrite Ha.
  apply Qle_bool_iff in Hle. rewrite Hle. cbn [andb]. cbv zeta.
  match goal with |- context [invoke ?r ?e ?x] =>
    destruct (invoke_fields r e x) as (-> & _ & -> & -> & ->) end.
  rewrite andb_false_r. repeat split. unfold count_CuriosityStart.
  cbn [trace]. lia.
Qed.

Lemma update_before_end now s :
  now < curiosityEndTime s ->
  curiosityActive (update now s) = curiosityActive s
  /\ curiosityEndTime (update now s) = curiosityEndTime s
  /\ interactionTypes (update now s) = interactionTypes s
  /\ callbacks (update now s) = callbacks s
  /\ count_CuriosityStart (update now s) = count_CuriosityStart s.
Proof.
  intros Hlt. unfold update.
  destruct (stepNightProgress_fields now
              (stepNightActivate now (stepCuriosity now (stepIdle now s))))
    as (-> & -> & -> & -> & ->).
  destruct (stepNightActivate_fields now (stepCuriosity now (stepIdle now s)))
    as (-> & -> & -> & -> & ->).
  destruct (stepIdle_fields now s) as (E1 & E2 & E3 & E4 & E5).
  rewrite stepCuriosity_before by (rewrite E2; exact Hlt).
  repeat split; assumption.
Qed.

Lemma update_after_end now s :
  curiosityActive s = true ->
  curiosityEndTime s <= now ->
  curiosityActive (update now s) = false
  /\ interactionTypes (update now s) = ∅
  /\ count_CuriosityStart (update now s) = count_CuriosityStart s.
Proof.
  intros Ha Hle. unfold update.
  destruct (stepNightProgress_fields now
              (stepNightActivate now (stepCuriosity now (stepIdle now s))))
    as (-> & _ & -> & _ & ->).
  destruct (stepNightActivate_fields now (stepCuriosity now (stepIdle now s)))
    as (-> & _ & -> & _ & ->).
  destruct (stepIdle_fields now s) as (E1 & E2 & E3 & E4 & E5).
  destruct (stepCuriosity_after now (stepIdle now s)) as (-> & -> & _ & ->).
  - rewrite E1. exact Ha.
  - rewrite E2. exact Hle.
  - repeat split. exact E5.
Qed.

(** Any number of [update()] calls before the end time keep the mode. *)
Lemma updates_before_end nows : forall s,
  Forall (fun now => now < curiosityEndTime s) nows ->
  curiosityActive (updates nows s) = curiosityActive s
  /\ curiosityEndTime (updates nows s) = curiosityEndTime s
  /\ interactionTypes (updates nows s) = interactionTypes s
  /\ callbacks (updates nows s) = callbacks s
  /\ count_CuriosityStart (updates nows s) = count_CuriosityStart s.
Proof.
  induction nows as [|now rest IH]; intros s HF.
  - repeat split.
  - change (updates (now :: rest) s) with (updates rest (update now s)).
    apply Forall_cons_iff in HF as [Hnow Hrest].
    destruct (update_before_end now s Hnow) as (E1 & E2 & E3 & E4 & E5).
    destruct (IH (update now s)) as (-> & -> & -> & -> & ->).
    + rewrite E2. exact Hrest.
    + repeat split; assumption.
Qed.

Lemma size_types_one (a : string) : size ({[ a ]} ∪ (∅ : gset string)) = 1%nat.
Proof. rewrite (right_id_L ∅ (∪)). apply size_singleton. Qed.

Lemma size_types_two (a b : string) :
  a <> b -> size ({[ b ]} ∪ ({[ a ]} ∪ (∅ : gset string))) = 2%nat.
Proof.
  intros Hab. rewrite (right_id_L ∅ (∪)).
  rewrite size_union.
  - now rewrite !size_singleton.
  - apply disjoint_singleton_l. rewrite elem_of_singleton. congruence.
Qed.

Lemma size_types_three (a b c : string) :
  a <> b -> a <> c -> b <> c ->
  size ({[ c ]} ∪ ({[ b ]} ∪ ({[ a ]} ∪ (∅ : gset string)))) = 3%nat.
Proof.
  intros H1 H2 H3. rewrite size_union.
  - rewrite size_types_two by exact H1. now rewrite size_singleton.
  - apply disjoint_singleton_l. rewrite !elem_of_union, !elem_of_singleton.
    rewrite elem_of_empty. intuition congruence.
Qed.

(** C7.  On a fresh manager with its callbacks registered, record three
    pairwise distinct interaction types [a], [b], [c] (at any clock
    readings and cursor positions): curiosity is inactive with no
    [onCuriosityStart] call after the first two, and active with exactly
    one call after the third, ending [curiosityDuration] after the
    activation reading.  Recording a further type [d] while active leaves
    the mode active, the end time unchanged and the call count at one.
    With or without that fourth interaction, updates before the end time
    keep the mode, and the first [update()] at or after the end time
    deactivates it and empties the set of tracked types, still with a
    single [onCuriosityStart] call. *)
Theorem curiosity_activates_once_and_expires
    (n1 n2 : Q) (a b c d : string)
    (t1 t1' t2 t2' t3 t3' t4 t4' x1 y1 x2 y2 x3 y3 x4 y4 : Q) :
  a <> b -> a <> c -> b <> c ->
  let s0 := registered n1 n2 in
  let s1 := recordInteraction t1 t1' a x1 y1 s0 in
  let s2 := recordInteraction t2 t2' b x2 y2 s1 in
  let s3 := recordInteraction t3 t3' c x3 y3 s2 in
  let s4 := recordInteraction t4 t4' d x4 y4 s3 in
  (getCuriosityActive s1 = false /\ count_CuriosityStart s1 = 0%nat)
  /\ (getCuriosityActive s2 = false /\ count_CuriosityStart s2 = 0%nat)
  /\ (getCuriosityActive s3 = true /\ count_CuriosityStart s3 = 1%nat
      /\ curiosityEndTime s3 = t3' + TIMING.curiosityDuration)
  /\ (getCuriosityActive s4 = true /\ count_CuriosityStart s4 = 1%nat
      /\ curiosityEndTime s4 = t3' + TIMING.curiosityDuration)
  /\ (forall (s : t) (nows : list Q) (now : Q),
        s = s3 \/ s = s4 ->
        Forall (fun u => u < t3' + TIMING.curiosityDuration) nows ->
        t3' + TIMING.curiosityDuration <= now ->
        getCuriosityActive (updates nows s) = true
        /\ count_CuriosityStart (updates nows s) = 1%nat
        /\ getCuriosityActive (update now (updates nows s)) = false
        /\ interactionTypes (update now (updates nows s)) = ∅
        /\ count_CuriosityStart (update now (updates nows s)) = 1%nat).
Proof.
  intros Hab Hac Hbc s0 s1 s2 s3 s4. unfold getCuriosityActive.
  assert (A0 : curiosityActive s0 = false) by reflexivity.
  assert (C0 : cb_onCuriosityStart (callbacks s0) = true) by reflexivity.
  assert (T0 : interactionTypes s0 = ∅) by reflexivity.
  assert (N0 : count_CuriosityStart s0 = 0%nat) by reflexivity.
  destruct (record_below_three t1 t1' a x1 y1 s0 A0) as (A1 & T1 & C1 & N1).
  { rewrite T0, size_types_one. lia. }
  fold s1 in A1, T1, C1, N1. rewrite T0 in T1. rewrite N0 in N1.
  destruct (record_below_three t2 t2' b x2 y2 s1 A1) as (A2 & T2 & C2 & N2).
  { rewrite T1, size_types_two by exact Hab. lia. }
  fold s2 in A2, T2, C2, N2. rewrite T1 in T2. rewrite N1 in N2.
  destruct (record_third t3 t3' c x3 y3 s2 A2) as (A3 & E3 & C3 & N3).
  { rewrite C2, C1. exact C0. }
  { rewrite T2, size_types_three by assumption. lia. }
  fold s3 in A3, E3, C3, N3. rewrite N2 in N3.
  destruct (record_while_active t4 t4' d x4 y4 s3 A3) as (A4 & E4 & C4 & N4).
  fold s4 in A4, E4, C4, N4. rewrite E3 in E4. rewrite N3 in N4.
  refine (conj (conj A1 N1) (conj (conj A2 N2)
            (conj (conj A3 (conj N3 E3)) (conj (conj A4 (conj N4 E4)) _)))).
  intros s nows now [-> | ->] HF Hnow.
  all: match goal with |- context [update ?u (updates ?l ?x)] =>
         destruct (updates_before_end l x) as (B1 & B2 & B3 & B4 & B5);
         [ rewrite ?E3, ?E4; exact HF | ];
         destruct (update_after_end u (updates l x))
           as (D1 & D2 & D3);
         [ rewrite B1; assumption
         | rewrite B2, ?E3, ?E4; exact Hnow | ]
       end.
  all: rewrite ?D1, ?D2, ?D3, ?B1, ?B5, ?N3, ?N4, ?A3, ?A4; repeat split.
Qed.

(** The theorem at three concrete interaction types, with a fourth one
    while active, frames at 3 s and 5 s and expiry at 7 s. *)
Lemma curiosity_activates_once_and_expires_witness :
  let s3 := recordInteraction 2000 2000 "petalHover" 3 3
              (recordInteraction 1500 1500 "centerClick" 2 2
                 (recordInteraction 1000 1000 "petalClick" 1 1
                    (registered 0 0))) in
  let s4 := recordInteraction 2500 2500 "centerHover" 4 4 s3 in
  (getCuriosityActive s3 = true /\ count_CuriosityStart s3 = 1%nat)
  /\ getCuriosityActive (update 7000 (updates [3000; 5000] s4)) = false
  /\ interactionTypes (update 7000 (updates [3000; 5000] s4)) = ∅
  /\ count_CuriosityStart (update 7000 (updates [3000; 5000] s4)) = 1%nat.
Proof.
  cbv zeta.
  destruct (curiosity_activates_once_and_expires 0 0
              "petalClick" "centerClick" "petalHover" "centerHover"
              1000 1000 1500 1500 2000 2000 2500 2500 1 1 2 2 3 3 4 4)
    as (_ & _ & (A3 & N3 & _) & _ & H); [discriminate..|].
  split; [split; assumption|].
  destruct (H _ [3000; 5000] 7000 (or_intror eq_refl))
    as (_ & _ & D1 & D2 & D3).
  - repeat constructor.
  - unfold TIMING.curiosityDuration. Lqa.lra.
  - repeat split; assumption.
Defined.

End StateManagerSpec.

Module JSMathFacts.
Local Open Scope R_scope.

Lemma hypot_nonneg x y : 0 <= JSMath.hypot x y.
Proof. apply sqrt_pos. Qed.

(** Scaling a vector by a non-negative factor scales its length. *)
Lemma hypot_scale k x y :
  0 <= k -> JSMath.hypot (x * k) (y * k) = k * JSMath.hypot x y.
Proof.
  intros Hk. unfold JSMath.hypot.
  replace (x * k * (x * k) + y * k * (y * k))
    with ((k * k) * (x * x + y * y)) by ring.
  rewrite sqrt_mult_alt by nra. now rewrite sqrt_square.
Qed.

Lemma hypot_zero : JSMath.hypot 0 0 = 0.
Proof.
  unfold JSMath.hypot. replace (0 * 0 + 0 * 0) with 0 by ring. apply sqrt_0.
Qed.

Lemma hypot_eq_0 x y : JSMath.hypot x y = 0 -> x = 0 /\ y = 0.
Proof.
  unfold JSMath.hypot. intros H. apply sqrt_eq_0 in H; [|nra]. split; nra.
Qed.

(** [Utils.normalize] returns a unit vector, except on the zero vector
    (where [len] falls back to 1 and the result is the zero vector). *)
Lemma normalize_unit x y :
  x <> 0 \/ y <> 0 ->
  JSMath.hypot (vx (Utils.normalize x y)) (vy (Utils.normalize x y)) = 1.
Proof.
  intros Hnz. unfold Utils.normalize. cbv zeta.
  destruct (Req_dec_T (JSMath.hypot x y) 0) as [E|NE].
  - apply hypot_eq_0 in E. tauto.
  - cbn [vx vy]. pose proof (hypot_nonneg x y) as Hp.
    unfold Rdiv. rewrite hypot_scale.
    + field. exact NE.
    + apply Rlt_le, Rinv_0_lt_compat. lra.
Qed.

(** Case analysis on the next comparison of the goal. *)
Ltac case_dec :=
  match goal with
  | |- context [Rlt_dec ?a ?b] => destruct (Rlt_dec a b)
  | |- context [Rle_dec ?a ?b] => destruct (Rle_dec a b)
  end.

Lemma hypot_polar d theta :
  0 <= d -> JSMath.hypot (d * cos theta) (d * sin theta) = d.
Proof.
  intros Hd.
  replace (d * cos theta) with (cos theta * d) by ring.
  replace (d * sin theta) with (sin theta * d) by ring.
  rewrite hypot_scale by exact Hd. unfold JSMath.hypot.
  replace (cos theta * cos theta + sin theta * sin theta) with 1.
  - rewrite sqrt_1. ring.
  - pose proof (sin2_cos2 theta) as H. unfold Rsqr in H. lra.
Qed.

Lemma polar_quotient r phi :
  0 < r -> 0 < cos phi -> r * sin phi / (r * cos phi) = tan phi.
Proof. intros Hr Hc. unfold tan. field. split; lra. Qed.

(** [Math.atan2(0, -0)] is PI: the angle of a stem whose top segment is
    the anchored one. *)
Lemma atan2_neg_origin : JSMath.atan2_neg 0 0 = PI.
Proof.
  unfold JSMath.atan2_neg.
  destruct (Req_dec_T 0 0) as [_|N]; [|now destruct N].
  destruct (Rlt_dec 0 0) as [L|_]; [lra | reflexivity].
Qed.

(** Away from a zero second argument it is [Math.atan2] of the negated
    argument. *)
Lemma atan2_neg_nonzero y x :
  x <> 0 -> JSMath.atan2_neg y x = JSMath.atan2 y (- x).
Proof.
  intros Hx. unfold JSMath.atan2_neg.
  destruct (Req_dec_T x 0) as [E|_]; [contradiction | reflexivity].
Qed.

(** [Math.atan2] recovers the polar angle of a point, in (-PI, PI]. *)
Lemma atan2_polar r theta :
  0 < r -> - PI < theta <= PI ->
  JSMath.atan2 (r * sin theta) (r * cos theta) = theta.
Proof.
  intros Hr [Hlo Hhi]. pose proof PI_RGT_0 as Hpi. unfold JSMath.atan2.
  destruct (Rlt_dec theta (- (PI / 2))) as [H1|H1];
    [|destruct (Req_dec theta (- (PI / 2))) as [H2|H2];
      [|destruct (Rlt_dec theta (PI / 2)) as [H3|H3];
        [|destruct (Req_dec theta (PI / 2)) as [H4|H4]]]].
  - (* third quadrant: theta = phi - PI with phi in (0, PI/2) *)
    set (phi := theta + PI).
    assert (Hs : sin theta = - sin phi).
    { unfold phi. now rewrite neg_sin, Ropp_involutive. }
    assert (Hc : cos theta = - cos phi).
    { unfold phi. now rewrite neg_cos, Ropp_involutive. }
    assert (Hcp : 0 < cos phi) by (apply cos_gt_0; unfold phi; lra).
    assert (Hsp : 0 < sin phi) by (apply sin_gt_0; unfold phi; lra).
    assert (Ht : r * sin theta / (r * cos theta) = tan phi).
    { rewrite Hs, Hc. unfold tan. field. split; lra. }
    rewrite Ht, atan_tan by (unfold phi; lra).
    repeat case_dec; try nra; unfold phi; lra.
  - subst theta. rewrite cos_neg, sin_neg, cos_PI2, sin_PI2.
    repeat case_dec; lra.
  - assert (Hcp : 0 < cos theta) by (apply cos_gt_0; lra).
    rewrite polar_quotient by assumption. rewrite atan_tan by lra.
    repeat case_dec; try nra; lra.
  - subst theta. rewrite cos_PI2, sin_PI2.
    repeat case_dec; lra.
  - (* second quadrant: theta = phi + PI with phi in (-PI/2, 0] *)
    set (phi := theta - PI).
    assert (Hs : sin theta = - sin phi).
    { replace theta with (phi + PI) by (unfold phi; ring). apply neg_sin. }
    assert (Hc : cos theta = - cos phi).
    { replace theta with (phi + PI) by (unfold phi; ring). apply neg_cos. }
    assert (Hcp : 0 < cos phi) by (apply cos_gt_0; unfold phi; lra).
    assert (Hsp : sin phi <= 0).
    { rewrite <- (Ropp_involutive phi), sin_neg.
      assert (0 <= sin (- phi)) by (apply sin_ge_0; unfold phi; lra). lra. }
    assert (Ht : r * sin theta / (r * cos theta) = tan phi).
    { rewrite Hs, Hc. unfold tan. field. split; lra. }
    rewrite Ht, atan_tan by (unfold phi; lra).
    repeat case_dec; try nra; unfold phi; lra.
Qed.

(** Sine and cosine have period [2 * PI], in whole turns of either sign. *)
Lemma sin_cos_turns theta (k : Z) :
  sin (theta + 2 * PI * IZR k) = sin theta
  /\ cos (theta + 2 * PI * IZR k) = cos theta.
Proof.
  destruct (Z_le_gt_dec 0 k) as [Hk|Hk].
  - rewrite <- (Z2Nat.id k Hk), <- INR_IZR_INZ.
    replace (theta + 2 * PI * INR (Z.to_nat k))
      with (theta + 2 * INR (Z.to_nat k) * PI) by ring.
    split; [apply sin_period | apply cos_period].
  - set (x := theta + 2 * PI * IZR k).
    assert (E : theta = x + 2 * INR (Z.to_nat (- k)) * PI).
    { unfold x. rewrite INR_IZR_INZ, Z2Nat.id by lia. rewrite opp_IZR. ring. }
    clearbody x. rewrite E. now rewrite sin_period, cos_period.
Qed.

(** Every angle is a whole number of turns away from one in (-PI, PI]. *)
Lemma angle_reduce a :
  exists (theta : R) (k : Z),
    - PI < theta <= PI /\ a = theta + 2 * PI * IZR k.
Proof.
  pose proof PI_RGT_0 as Hpi.
  set (r := (PI - a) / (2 * PI)).
  destruct (archimed r) as [Hup1 Hup2].
  exists (a - 2 * PI * IZR (1 - up r)), (1 - up r)%Z.
  split; [|ring].
  rewrite minus_IZR.
  assert (Hr : r * (2 * PI) = PI - a) by (unfold r; field; lra).
  split; nra.
Qed.

End JSMathFacts.

Module WindFieldSpec.
Import WindField JSMathFacts.
Local Open Scope R_scope.

(** The noise and cursor blocks do not touch the gust state. *)
Lemma pre_gust_fields dt cx cy w :
  let w' := stepCursor cx cy (stepNoise dt w) in
  gustActive w' = gustActive w /\ gustProgress w' = gustProgress w
  /\ gustDuration w' = gustDuration w /\ gustDirection w' = gustDirection w.
Proof. destruct cx, cy; repeat split. Qed.


(** Gust state after one [update], for a state with an active gust. *)
Lemma update_gust dt cx cy w :
  gustActive w = true ->
  let p := gustProgress w + dt / gustDuration w in
  let w2 := update dt cx cy w in
  (1 <= p ->
   gustActive w2 = false /\ gustProgress w2 = 0
   /\ gustWind w2 = {| vx := 0; vy := 0 |})
  /\ (p < 1 ->
      gustActive w2 = true /\ gustProgress w2 = p
      /\ gustDirection w2 = gustDirection w
      /\ gustWind w2
         = {| vx := vx (gustDirection w)
                    * (envelope p * PHYSICS.windGustStrength);
              vy := vy (gustDirection w)
                    * (envelope p * PHYSICS.windGustStrength) * 0.3 |}).
Proof.
  intros Ha. cbv zeta. unfold update.
  destruct (pre_gust_fields dt cx cy w) as (E1 & E2 & E3 & E4).
  set (w' := stepCursor cx cy (stepNoise dt w)) in *.
  unfold stepGust. rewrite E1, E2, E3, E4, Ha.
  destruct (Rle_dec 1 (gustProgress w + dt / gustDuration w)) as [Hge|Hlt].
  - split; [intros _; repeat split | intros H; lra].
  - split; [intros H; lra | intros _]. cbn. rewrite E4. repeat split.
Qed.



End WindFieldSpec.

Module TimersFacts.
Import Timers.
Local Open Scope R_scope.

(** A timer due before every pending one goes to the front. *)
Lemma insert_front due a q :
  Forall (fun tm => due < fst tm) q -> insert due a q = (due, a) :: q.
Proof.
  destruct q as [|[due' a'] rest]; intros HF; [reflexivity|].
  apply Forall_cons_iff in HF as [Hlt _]. cbn [fst] in Hlt. cbn [insert].
  destruct (Rlt_dec due due'); [reflexivity | contradiction].
Qed.

(** A timer not due before the head goes behind it, also on a tie. *)
Lemma insert_behind due a due' a' q :
  due' <= due -> insert due a ((due', a') :: q) = (due', a') :: insert due a q.
Proof.
  intros Hle. cbn [insert]. destruct (Rlt_dec due due'); [lra | reflexivity].
Qed.

End TimersFacts.

Module RippleSpec.
Import PetalManager TimersFacts.
Local Open Scope R_scope.

Lemma runTimer_cons u due a rest m :
  timers m = (due, a) :: rest ->
  runTimer u m = fire due u a (set_timers rest m).
Proof. intros E. unfold runTimer. now rewrite E. Qed.

(** What [triggerRipple] registers. *)
Lemma triggerRipple_fields now k m :
  Forall (fun tm => now + 3 * TIMING.rippleDelay < fst tm) (timers m) ->
  timers (triggerRipple now k m)
  = (now + TIMING.rippleDelay, RippleFirst k (-1))
    :: (now + TIMING.rippleDelay * 2, RippleFirst k 1) :: timers m
  /\ log (triggerRipple now k m) = log m
  /\ petalCount (triggerRipple now k m) = petalCount m.
Proof.
  intros HF. unfold triggerRipple, TIMING.rippleDelay in *.
  cbn [imap nth Timers.setTimeouts fold_left fst snd timers set_timers log
       petalCount].
  unfold Timers.setTimeout, compose. cbn [fst snd].
  repeat split.
  rewrite (insert_front (now + 40)).
  - rewrite insert_behind by lra. rewrite insert_front; [reflexivity|].
    eapply Forall_impl; [exact HF|]. cbn. intros [d a] H. cbn in *. lra.
  - eapply Forall_impl; [exact HF|]. cbn. intros [d a] H. cbn in *. lra.
Qed.

(** Running a first-level ripple timer. *)
Lemma fire_first due u src dir m :
  log (fire due u (RippleFirst src dir) m)
  = log m ++ [RippleCall due (neighbor src dir m)]
  /\ timers (fire due u (RippleFirst src dir) m)
     = Timers.insert (due + TIMING.rippleDelay)
         (RippleSecond (neighbor src dir m) dir) (timers m)
  /\ petalCount (fire due u (RippleFirst src dir) m) = petalCount m.
Proof. repeat split. Qed.

(** Running a second-level ripple timer. *)
Lemma fire_second due u nb dir m :
  log (fire due u (RippleSecond nb dir) m)
  = log m ++ [RippleCall due (neighbor nb dir m)]
  /\ timers (fire due u (RippleSecond nb dir) m) = timers m
  /\ petalCount (fire due u (RippleSecond nb dir) m) = petalCount m.
Proof. repeat split. Qed.

Lemma rippleCalls_app_call m m' time i :
  log m' = log m ++ [RippleCall time i] ->
  rippleCalls m' = rippleCalls m ++ [(time, i)].
Proof.
  intros E. unfold rippleCalls. rewrite E, flat_map_app. reflexivity.
Qed.

(** The neighbor computation of the source is the ring index, one and two
    steps away on either side. *)
Lemma neighbor_ring k m :
  petalCount m = 36%nat -> (k < 36)%nat ->
  neighbor k (-1) m = ringIndex k (-1)
  /\ neighbor k 1 m = ringIndex k 1
  /\ neighbor (neighbor k (-1) m) (-1) m = ringIndex k (-2)
  /\ neighbor (neighbor k 1 m) 1 m = ringIndex k 2.
Proof.
  intros E Hk. unfold neighbor, ringIndex. rewrite E.
  change PHYSICS.petalCount with 36%nat.
  do 36 (destruct k as [|k]; [vm_compute; repeat split|]). lia.
Qed.

(** The four [triggerRipple] calls that follow [triggerRipple(k)] at time
    [now], with their timer times, in the order in which they run. *)
Lemma ripple_calls_after now k u1 u2 u3 u4 m :
  petalCount m = 36%nat -> (k < 36)%nat ->
  Forall (fun tm => now + 3 * TIMING.rippleDelay < fst tm) (timers m) ->
  let m' := runTimers [u1; u2; u3; u4] (triggerRipple now k m) in
  rippleCalls m'
  = rippleCalls m
    ++ [(now + TIMING.rippleDelay, ringIndex k (-1));
        (now + TIMING.rippleDelay * 2, ringIndex k 1);
        (now + TIMING.rippleDelay + TIMING.rippleDelay, ringIndex k (-2));
        (now + TIMING.rippleDelay * 2 + TIMING.rippleDelay, ringIndex k 2)]
  /\ timers m' = timers m.
Proof.
  intros EN Hk HF. cbv zeta.
  destruct (neighbor_ring k m EN Hk) as (N1 & N2 & N3 & N4).
  destruct (triggerRipple_fields now k m HF) as (T0 & L0 & C0).
  set (m0 := triggerRipple now k m) in *.
  assert (HF' : forall d, d <= now + 3 * TIMING.rippleDelay ->
            Forall (fun tm => d < fst tm) (timers m)).
  { intros d Hd. eapply Forall_impl; [exact HF|]. cbn. intros tm H. lra. }
  unfold runTimers. cbn [fold_left].
  (* first timer: left neighbor *)
  rewrite (runTimer_cons u1 _ _ _ m0 T0).
  set (m0' := set_timers _ m0).
  destruct (fire_first (now + TIMING.rippleDelay) u1 k (-1) m0')
    as (L1 & T1 & C1).
  set (m1 := fire _ u1 _ m0') in *.
  assert (Nb1 : neighbor k (-1) m0' = ringIndex k (-1)).
  { rewrite <- N1. unfold neighbor. unfold m0'. cbn [petalCount set_timers].
    now rewrite C0. }
  rewrite Nb1 in L1, T1. unfold m0' in T1, L1, C1.
  cbn [timers set_timers log petalCount] in T1, L1, C1.
  rewrite insert_behind in T1 by (unfold TIMING.rippleDelay; lra).
  rewrite insert_front in T1
    by (apply HF'; unfold TIMING.rippleDelay; lra).
  (* second timer: right neighbor *)
  rewrite (runTimer_cons u2 _ _ _ m1 T1).
  set (m1' := set_timers _ m1).
  destruct (fire_first (now + TIMING.rippleDelay * 2) u2 k 1 m1')
    as (L2 & T2 & C2).
  set (m2 := fire _ u2 _ m1') in *.
  assert (Nb2 : neighbor k 1 m1' = ringIndex k 1).
  { rewrite <- N2. unfold neighbor. unfold m1'. cbn [petalCount set_timers].
    now rewrite C1, C0. }
  rewrite Nb2 in L2, T2. unfold m1' in T2, L2, C2.
  cbn [timers set_timers log petalCount] in T2, L2, C2.
  rewrite insert_behind in T2 by (unfold TIMING.rippleDelay; lra).
  rewrite insert_front in T2
    by (apply HF'; unfold TIMING.rippleDelay; lra).
  (* third timer: second ring on the left *)
  rewrite (runTimer_cons u3 _ _ _ m2 T2).
  set (m2' := set_timers _ m2).
  destruct (fire_second (now + TIMING.rippleDelay + TIMING.rippleDelay) u3
              (ringIndex k (-1)) (-1) m2') as (L3 & T3 & C3).
  set (m3 := fire _ u3 _ m2') in *.
  assert (Nb3 : neighbor (ringIndex k (-1)) (-1) m2' = ringIndex k (-2)).
  { rewrite <- N3, N1. unfold neighbor. unfold m2'.
    cbn [petalCount set_timers]. now rewrite C2, C1, C0. }
  rewrite Nb3 in L3. unfold m2' in T3, L3, C3.
  cbn [timers set_timers log petalCount] in T3, L3, C3.
  (* fourth timer: second ring on the right *)
  rewrite (runTimer_cons u4 _ _ _ m3 T3).
  set (m3' := set_timers _ m3).
  destruct (fire_second (now + TIMING.rippleDelay * 2 + TIMING.rippleDelay) u4
              (ringIndex k 1) 1 m3') as (L4 & T4 & C4).
  set (m4 := fire _ u4 _ m3') in *.
  assert (Nb4 : neighbor (ringIndex k 1) 1 m3' = ringIndex k 2).
  { rewrite <- N4, N2. unfold neighbor. unfold m3'.
    cbn [petalCount set_timers]. now rewrite C3, C2, C1, C0. }
  rewrite Nb4 in L4. unfold m3' in T4, L4, C4.
  cbn [timers set_timers log petalCount] in T4, L4, C4.
  split; [|exact T4].
  rewrite (rippleCalls_app_call m3 m4 _ _ L4).
  rewrite (rippleCalls_app_call m2 m3 _ _ L3).
  rewrite (rippleCalls_app_call m1 m2 _ _ L2).
  rewrite (rippleCalls_app_call m0 m1 _ _ (eq_trans L1 (f_equal (fun l => l ++ _) L0))).
  rewrite <- !app_assoc. reflexivity.
Qed.

(** [handleClick] on a hit clicks the petal and starts the ripple from its
    index. *)
Lemma handleClick_hit now x y u k petal m :
  getPetalAtPoint x y m = Some k ->
  petals m !! k = Some petal ->
  exists m0,
    snd (handleClick now x y u m) = triggerRipple now (Petal.index petal) m0
    /\ petalCount m0 = petalCount m
    /\ timers m0
       = Timers.insert (now + 200) (PetalResetScale (Petal.index petal))
           (timers m)
    /\ log m0 = log m.
Proof.
  intros Hhit Hk. unfold handleClick. rewrite Hhit, Hk.
  cbn [Petal.triggerClick snd Petal.index Petal.set_spin_scale].
  eexists. split; [reflexivity|]. repeat split.
Qed.

(** C2 as stated fails: the delay values do not order the right immediate
    neighbor before the left second-ring neighbor.  After a click on petal
    5 at time 0, petal 6 and petal 3 are both rippled at time 80. *)
Lemma ripple_delays_do_not_separate_rings :
  let m' := runTimers [0; 0; 0; 0]
              (triggerRipple 0 5 (new 0 0 100 (fun _ _ => 0))) in
  ~ (forall (ta tb : R) (a b : nat),
       a = ringIndex 5 (-1) \/ a = ringIndex 5 1 ->
       b = ringIndex 5 (-2) \/ b = ringIndex 5 2 ->
       In (ta, a) (rippleCalls m') -> In (tb, b) (rippleCalls m') ->
       ta < tb).
Proof.
  cbv zeta. intros H.
  destruct (ripple_calls_after 0 5 0 0 0 0 (new 0 0 100 (fun _ _ => 0)))
    as (E & _); [reflexivity | lia | constructor |].
  cbv zeta in E. rewrite E in H. cbn [rippleCalls new log flat_map app] in H.
  specialize (H (0 + TIMING.rippleDelay * 2)
                (0 + TIMING.rippleDelay + TIMING.rippleDelay)
                (ringIndex 5 1) (ringIndex 5 (-2))
                (or_intror eq_refl) (or_introl eq_refl)).
  unfold TIMING.rippleDelay in H.
  assert (0 + 40 * 2 < 0 + 40 + 40); [|lra].
  apply H; cbn [In]; tauto.
Qed.

(** C2, amended.  With [D] the ripple delay and no other timer due within
    [3 * D], the ripple started on petal [k] at time [now] makes exactly
    four [triggerRipple] calls, in this order: petal [(k-1) mod 36] at
    [now + D], petal [(k+1) mod 36] at [now + 2 * D], petal [(k-2) mod 36]
    at [now + D + D] and petal [(k+2) mod 36] at [now + 2 * D + D].  On
    each side the immediate neighbor's delay is strictly smaller than the
    second-ring neighbor's; [(k+1)] and [(k-2)] have equal delays. *)
Theorem ripple_rings_in_timer_order
    (now : R) (k : nat) (u1 u2 u3 u4 : R) (m : t) :
  petalCount m = 36%nat -> (k < 36)%nat ->
  Forall (fun tm => now + 3 * TIMING.rippleDelay < fst tm) (timers m) ->
  let m' := runTimers [u1; u2; u3; u4] (triggerRipple now k m) in
  rippleCalls m'
  = rippleCalls m
    ++ [(now + TIMING.rippleDelay, ringIndex k (-1));
        (now + TIMING.rippleDelay * 2, ringIndex k 1);
        (now + TIMING.rippleDelay + TIMING.rippleDelay, ringIndex k (-2));
        (now + TIMING.rippleDelay * 2 + TIMING.rippleDelay, ringIndex k 2)]
  /\ timers m' = timers m
  /\ now + TIMING.rippleDelay < now + TIMING.rippleDelay + TIMING.rippleDelay
  /\ now + TIMING.rippleDelay * 2
     < now + TIMING.rippleDelay * 2 + TIMING.rippleDelay
  /\ now + TIMING.rippleDelay
     < now + TIMING.rippleDelay * 2 + TIMING.rippleDelay
  /\ now + TIMING.rippleDelay * 2
     = now + TIMING.rippleDelay + TIMING.rippleDelay.
Proof.
  intros EN Hk HF. cbv zeta.
  destruct (ripple_calls_after now k u1 u2 u3 u4 m EN Hk HF) as (E & T).
  split; [exact E|]. split; [exact T|].
  unfold TIMING.rippleDelay. repeat split; lra.
Qed.

(** The ripple of a click on petal 5 at time 0 on a fresh manager. *)
Lemma ripple_rings_in_timer_order_witness :
  rippleCalls (runTimers [0; 0; 0; 0]
                 (triggerRipple 0 5 (new 0 0 100 (fun _ _ => 0))))
  = [(0 + 40, 4%nat); (0 + 40 * 2, 6%nat);
     (0 + 40 + 40, 3%nat); (0 + 40 * 2 + 40, 7%nat)].
Proof.
  destruct (ripple_rings_in_timer_order 0 5 0 0 0 0
              (new 0 0 100 (fun _ _ => 0))) as (E & _);
    [reflexivity | lia | constructor |].
  cbv zeta in E. rewrite E. reflexivity.
Defined.

End RippleSpec.

Module HoverSpec.
Import PetalManager.
Local Open Scope R_scope.

(** *** Petal operations and the hover flag *)

Lemma setHovered_flag h u p : Petal.isHovered (Petal.setHovered h u p) = h.
Proof. destruct h; reflexivity. Qed.

Lemma setHovered_containsPoint h u x y cx cy p :
  Petal.containsPoint x y cx cy (Petal.setHovered h u p)
  = Petal.containsPoint x y cx cy p.
Proof. destruct h; reflexivity. Qed.

Lemma update_flag dt wind now p p' :
  Petal.update dt wind now p = Returned p' ->
  Petal.isHovered p' = Petal.isHovered p.
Proof.
  unfold Petal.update. destruct (negb (Petal.visible p)).
  - intros [= <-]. reflexivity.
  - destruct wind; [intros [= <-]; reflexivity | discriminate].
Qed.

(** *** Lists of petals with the same hover flags *)

Lemma same_flags_refl ps : same_flags ps ps.
Proof. intros i p H. eauto. Qed.

Lemma same_flags_trans ps1 ps2 ps3 :
  same_flags ps1 ps2 -> same_flags ps2 ps3 -> same_flags ps1 ps3.
Proof.
  intros H12 H23 i p3 H3. destruct (H23 i p3 H3) as (p2 & H2 & E2).
  destruct (H12 i p2 H2) as (p1 & H1 & E1). exists p1. split; [exact H1|].
  congruence.
Qed.

Lemma same_flags_alter (f : Petal.t -> Petal.t) k ps :
  (forall p, Petal.isHovered (f p) = Petal.isHovered p) ->
  same_flags ps (alter f k ps).
Proof.
  intros Hf i p' H. rewrite list_lookup_alter in H.
  destruct (decide (k = i)) as [->|Hne]; [|eauto].
  destruct (ps !! i) as [p|] eqn:E; [|discriminate].
  injection H as <-. eauto.
Qed.

Lemma same_flags_fmap (f : Petal.t -> Petal.t) ps :
  (forall p, Petal.isHovered (f p) = Petal.isHovered p) ->
  same_flags ps (f <$> ps).
Proof.
  intros Hf i p' H. rewrite list_lookup_fmap in H.
  destruct (ps !! i) as [p|] eqn:E; [|discriminate].
  injection H as <-. eauto.
Qed.

Lemma same_flags_imap (f : nat -> Petal.t -> Petal.t) ps :
  (forall i p, Petal.isHovered (f i p) = Petal.isHovered p) ->
  same_flags ps (imap f ps).
Proof.
  intros Hf i p' H. rewrite list_lookup_imap in H.
  destruct (ps !! i) as [p|] eqn:E; [|discriminate].
  injection H as <-. eauto.
Qed.

Lemma same_flags_insert k p p' ps :
  ps !! k = Some p -> Petal.isHovered p' = Petal.isHovered p ->
  same_flags ps (<[ k := p' ]> ps).
Proof.
  intros Hk E i q H. apply list_lookup_insert_Some in H as [(-> & -> & _)|(_ & H)];
    eauto.
Qed.

Lemma same_flags_updateAll dt wind now : forall ps i ps',
  updateAll dt wind now i ps = Returned ps' -> same_flags ps ps'.
Proof.
  induction ps as [|p rest IH]; intros i ps' H; cbn [updateAll] in H.
  - injection H as <-. apply same_flags_refl.
  - destruct (Petal.update dt wind (now i) p) as [q|] eqn:Eq; [|discriminate].
    destruct (updateAll dt wind now (S i) rest) as [rest'|] eqn:Er;
      [|discriminate].
    injection H as <-. intros [|j] q' Hq; cbn in Hq.
    + injection Hq as <-. exists p. split; [reflexivity|].
      eapply update_flag; eassumption.
    + apply (IH _ _ Er j q' Hq).
Qed.

(** An operation that keeps [hoveredPetal] and the hover flags keeps the
    invariant. *)
Lemma hover_inv_same_flags m m' :
  hoveredPetal m' = hoveredPetal m ->
  same_flags (petals m) (petals m') ->
  hover_inv m -> hover_inv m'.
Proof.
  intros Eh Hs Hinv i p' H. destruct (Hs i p' H) as (p & Hp & E).
  rewrite E, Eh. apply Hinv. exact Hp.
Qed.

(** *** The hit test *)

Lemma scan_Some x y m : forall n k,
  scan x y m n = Some k ->
  (k < n)%nat
  /\ exists p, petals m !! k = Some p
       /\ Petal.containsPoint x y (centerX m) (centerY m) p = true.
Proof.
  induction n as [|n IH]; intros k H; cbn [scan] in H; [discriminate|].
  destruct (petals m !! n) as [p|] eqn:E.
  - destruct (Petal.containsPoint x y (centerX m) (centerY m) p) eqn:C.
    + injection H as <-. split; [lia|]. eauto.
    + destruct (IH k H) as (Hlt & Hp). split; [lia | exact Hp].
  - destruct (IH k H) as (Hlt & Hp). split; [lia | exact Hp].
Qed.

(** The hit test only looks at the center and at what [containsPoint]
    answers for each petal. *)
Lemma scan_ext x y m m' :
  centerX m' = centerX m -> centerY m' = centerY m ->
  (forall i,
     Petal.containsPoint x y (centerX m) (centerY m) <$> petals m' !! i
     = Petal.containsPoint x y (centerX m) (centerY m) <$> petals m !! i) ->
  forall n, scan x y m' n = scan x y m n.
Proof.
  intros Ex Ey Hc. induction n as [|n IH]; [reflexivity|]. cbn [scan].
  specialize (Hc n). rewrite Ex, Ey, IH.
  destruct (petals m' !! n) as [p'|], (petals m !! n) as [p|];
    cbn in Hc; try discriminate; [|reflexivity].
  injection Hc as ->. reflexivity.
Qed.

(** *** [handleHover] *)

Lemma hoverCalls_app l1 l2 :
  hoverCalls (l1 ++ l2) = hoverCalls l1 ++ hoverCalls l2.
Proof. unfold hoverCalls. apply flat_map_app. Qed.

(** Where a petal of an altered list comes from. *)
Lemma lookup_alter_inv (f : Petal.t -> Petal.t) (k : nat)
    (ps : list Petal.t) (i : nat) (p' : Petal.t) :
  alter f k ps !! i = Some p' ->
  (i = k /\ exists p, ps !! k = Some p /\ p' = f p)
  \/ (i <> k /\ ps !! i = Some p').
Proof.
  rewrite list_lookup_alter. destruct (decide (k = i)) as [->|Hne].
  - destruct (ps !! i) as [p|]; [|discriminate]. intros [= <-]. left. eauto.
  - intros H. right. split; [congruence | exact H].
Qed.

(** [petals[k].setHovered(..)] does not change any hit-test answer. *)
Lemma containsPoint_alter_setHovered b u (k : nat) x y cx cy
    (ps : list Petal.t) (i : nat) :
  Petal.containsPoint x y cx cy <$> alter (Petal.setHovered b u) k ps !! i
  = Petal.containsPoint x y cx cy <$> ps !! i.
Proof.
  rewrite list_lookup_alter. destruct (decide (k = i)) as [->|Hne];
    [|reflexivity].
  destruct (ps !! i); [|reflexivity]. cbn.
  now rewrite setHovered_containsPoint.
Qed.

(** The state reached by the two conditional [setHovered] calls. *)
Lemma hover_switch_inv old hit u m :
  hover_inv m -> hoveredPetal m = old -> old <> hit ->
  forall i p',
    match hit with
    | Some k => alter (Petal.setHovered true u) k
    | None => fun ps => ps
    end (match old with
         | Some h => alter (Petal.setHovered false u) h
         | None => fun ps => ps
         end (petals m)) !! i = Some p' ->
    (Petal.isHovered p' = true <-> hit = Some i).
Proof.
  intros Hinv Eold Hne i p' Hp'.
  assert (Hm : forall q, petals m !! i = Some q ->
                 (Petal.isHovered q = true <-> old = Some i)).
  { intros q Hq. rewrite <- Eold. apply Hinv. exact Hq. }
  destruct hit as [k|], old as [h|].
  - apply lookup_alter_inv in Hp' as [(-> & p & Hp & ->)|(Hik & Hp')].
    + rewrite setHovered_flag. tauto.
    + apply lookup_alter_inv in Hp' as [(-> & p & Hp & ->)|(Hih & Hp')].
      * rewrite setHovered_flag. split; congruence.
      * rewrite (Hm _ Hp'). split; congruence.
  - apply lookup_alter_inv in Hp' as [(-> & p & Hp & ->)|(Hik & Hp')].
    + rewrite setHovered_flag. tauto.
    + rewrite (Hm _ Hp'). split; congruence.
  - apply lookup_alter_inv in Hp' as [(-> & p & Hp & ->)|(Hih & Hp')].
    + rewrite setHovered_flag. split; congruence.
    + rewrite (Hm _ Hp'). split; congruence.
  - congruence.
Qed.

Lemma handleHover_spec x y u m :
  hover_inv m ->
  let hit := getPetalAtPoint x y m in
  let m' := snd (handleHover x y u m) in
  fst (handleHover x y u m) = hit
  /\ hoveredPetal m' = hit
  /\ getPetalAtPoint x y m' = hit
  /\ hover_inv m'
  /\ hoverCalls (log m')
     = hoverCalls (log m)
       ++ (if decide (hoveredPetal m = hit) then []
           else match hoveredPetal m with
                | Some h => [(h, false)]
                | None => []
                end
                ++ match hit with
                   | Some k => [(k, true)]
                   | None => []
                   end).
Proof.
  intros Hinv. cbv zeta. unfold handleHover.
  destruct (decide (hoveredPetal m = getPetalAtPoint x y m)) as [E|NE].
  { cbn [fst snd]. rewrite app_nil_r. repeat split; try assumption.
    - apply Hinv; assumption.
    - apply Hinv; assumption. }
  cbn [fst snd].
  set (hit := getPetalAtPoint x y m) in *.
  set (m1 := match hoveredPetal m with
             | Some h => callSetHovered h false u m
             | None => m
             end).
  set (m2 := match hit with
             | Some k => callSetHovered k true u m1
             | None => m1
             end).
  assert (P : petals m2
              = match hit with
                | Some k => alter (Petal.setHovered true u) k
                | None => fun ps => ps
                end (match hoveredPetal m with
                     | Some h => alter (Petal.setHovered false u) h
                     | None => fun ps => ps
                     end (petals m))).
  { unfold m2, m1. destruct hit, (hoveredPetal m); reflexivity. }
  assert (C2 : centerX m2 = centerX m /\ centerY m2 = centerY m).
  { unfold m2, m1. destruct hit, (hoveredPetal m); split; reflexivity. }
  assert (L : log m2
              = log m ++ match hoveredPetal m with
                         | Some h => [SetHoveredCall h false]
                         | None => []
                         end
                      ++ match hit with
                         | Some k => [SetHoveredCall k true]
                         | None => []
                         end).
  { unfold m2, m1. destruct hit, (hoveredPetal m); cbn [log callSetHovered
      add_log on_petal set_petals]; rewrite <- ?app_assoc, ?app_nil_r;
      reflexivity. }
  split; [reflexivity|]. split; [reflexivity|].
  split; [|split].
  - (* the hit test is not affected by the hover flags *)
    unfold getPetalAtPoint. cbn [petals set_hoveredPetal].
    replace (List.length (petals m2)) with (List.length (petals m)).
    + fold (getPetalAtPoint x y m). apply scan_ext.
      * apply C2.
      * apply C2.
      * intros i. cbn [petals set_hoveredPetal]. rewrite P.
        destruct hit, (hoveredPetal m);
          now rewrite ?containsPoint_alter_setHovered.
    + rewrite P. destruct hit, (hoveredPetal m); now rewrite ?length_alter.
  - (* exactly the hit petal is hovered *)
    intros i p' Hp'. cbn [petals set_hoveredPetal hoveredPetal] in *.
    rewrite P in Hp'.
    apply (hover_switch_inv (hoveredPetal m) hit u m Hinv eq_refl NE i p' Hp').
  - cbn [log set_hoveredPetal]. rewrite L, !hoverCalls_app.
    destruct (hoveredPetal m), hit; reflexivity.
Qed.

(** *** The invariant along every history *)

Lemma new_hover_inv cx cy radius rand : hover_inv (new cx cy radius rand).
Proof.
  intros i p H. cbn [new petals hoveredPetal] in *.
  rewrite list_lookup_fmap in H.
  destruct (seq 0 PHYSICS.petalCount !! i); [|discriminate].
  injection H as <-. cbn [Petal.new Petal.isHovered]. split; discriminate.
Qed.

Lemma fire_hover_inv due u a m : hover_inv m -> hover_inv (fire due u a m).
Proof.
  intros Hinv.
  destruct a; cbn [fire];
    (eapply hover_inv_same_flags; [| |exact Hinv]; [reflexivity|]);
    cbn [petals on_petal set_petals add_log set_timers];
    try apply same_flags_refl;
    apply same_flags_alter; reflexivity.
Qed.

Lemma clearPetalHover_inv m : hover_inv m -> hover_inv (clearPetalHover m).
Proof.
  intros Hinv. unfold clearPetalHover.
  destruct (hoveredPetal m) as [h|] eqn:Eold; [|exact Hinv].
  intros i p' Hp'.
  cbn [petals hoveredPetal set_hoveredPetal callSetHovered add_log on_petal
       set_petals] in *.
  apply (hover_switch_inv (Some h) None 0 m Hinv Eold); [discriminate|].
  exact Hp'.
Qed.

Lemma apply_hover_inv o m : hover_inv m -> hover_inv (apply o m).
Proof.
  intros Hinv. destruct o; cbn [apply].
  - exact Hinv.
  - exact Hinv.
  - apply (handleHover_spec x y u m Hinv).
  - unfold handleClick. destruct (getPetalAtPoint x y m) as [k|]; [|exact Hinv].
    destruct (petals m !! k) as [petal|] eqn:Ek; [|exact Hinv].
    cbn [Petal.triggerClick snd].
    eapply hover_inv_same_flags; [| |exact Hinv]; [reflexivity|].
    cbn [petals triggerRipple set_timers set_petals].
    eapply same_flags_insert; [exact Ek | reflexivity].
  - unfold runTimer. destruct (timers m) as [|[due a] rest]; [exact Hinv|].
    apply fire_hover_inv. exact Hinv.
  - eapply hover_inv_same_flags; [| |exact Hinv]; [reflexivity|].
    cbn [petals triggerAllBloom set_timers set_petals].
    apply same_flags_fmap. reflexivity.
  - eapply hover_inv_same_flags; [| |exact Hinv]; [reflexivity|].
    cbn [petals setCuriositySide set_petals].
    apply same_flags_fmap. reflexivity.
  - eapply hover_inv_same_flags; [| |exact Hinv]; [reflexivity|].
    cbn [petals resetCuriosity set_petals].
    apply same_flags_imap. reflexivity.
  - unfold update.
    destruct (updateAll deltaTime (Some wind) now 0 (petals m)) as [ps|] eqn:E;
      [|exact Hinv].
    eapply hover_inv_same_flags; [| |exact Hinv]; [reflexivity|].
    cbn [petals set_petals]. eapply same_flags_updateAll. exact E.
  - apply clearPetalHover_inv. exact Hinv.
Qed.

Lemma history_hover_inv ops : forall m,
  hover_inv m -> hover_inv (history ops m).
Proof.
  induction ops as [|o ops IH]; intros m Hinv; [exact Hinv|].
  apply IH, apply_hover_inv, Hinv.
Qed.

(** C10.  Take any manager reached from its constructor by any sequence
    of operations (position updates, bloom start, hovers, clicks, timers,
    blooms, curiosity changes, frame updates, hover clearing by the
    flower).  Then [handleHover(x, y)] returns the petal found by the hit
    test, leaves [hoveredPetal] equal to it (and the hit test still finds
    it afterwards), and afterwards a petal is in the hovered state exactly
    when it is that petal, so at most one petal is hovered.  When the
    petal under the cursor changes, the [setHovered] calls made are
    [setHovered(false)] on the previously hovered petal (if any) followed
    by [setHovered(true)] on the newly hit petal (if any); otherwise no
    call is made. *)
Theorem hover_tracks_hit_test
    (cx cy radius : R) (rand : nat -> nat -> R) (ops : list op)
    (x y u : R) :
  let m := history ops (new cx cy radius rand) in
  let hit := getPetalAtPoint x y m in
  let m' := snd (handleHover x y u m) in
  fst (handleHover x y u m) = hit
  /\ hoveredPetal m' = hit
  /\ getPetalAtPoint x y m' = hit
  /\ (forall (i : nat) (p : Petal.t),
        petals m' !! i = Some p ->
        (Petal.isHovered p = true <-> hit = Some i))
  /\ (forall (i j : nat) (p q : Petal.t),
        petals m' !! i = Some p -> petals m' !! j = Some q ->
        Petal.isHovered p = true -> Petal.isHovered q = true -> i = j)
  /\ hoverCalls (log m')
     = hoverCalls (log m)
       ++ (if decide (hoveredPetal m = hit) then []
           else match hoveredPetal m with
                | Some h => [(h, false)]
                | None => []
                end
                ++ match hit with
                   | Some k => [(k, true)]
                   | None => []
                   end).
Proof.
  cbv zeta.
  pose proof (history_hover_inv ops _ (new_hover_inv cx cy radius rand)) as Hinv.
  destruct (handleHover_spec x y u _ Hinv) as (H1 & H2 & H3 & H4 & H5).
  cbv zeta in *.
  split; [exact H1|]. split; [exact H2|]. split; [exact H3|].
  split; [|split; [|exact H5]].
  - intros i p Hp. rewrite <- H2. apply H4. exact Hp.
  - intros i j p q Hp Hq Fp Fq.
    apply (H4 i p Hp) in Fp. apply (H4 j q Hq) in Fq. congruence.
Qed.

End HoverSpec.

Module PetalSpec.
Import JSMathFacts.
Local Open Scope R_scope.

(** *** Hit test in polar coordinates *)

Lemma ltb_true a b : a < b -> JSMath.ltb a b = true.
Proof. intros H. unfold JSMath.ltb. destruct (Rlt_dec a b); [reflexivity | lra]. Qed.

Lemma ltb_false a b : b <= a -> JSMath.ltb a b = false.
Proof. intros H. unfold JSMath.ltb. destruct (Rlt_dec a b); [lra | reflexivity]. Qed.

(** [containsPoint] at the point with polar coordinates [(d, theta)]
    around the center. *)
Lemma containsPoint_polar cx cy d theta p :
  0 < d -> - PI < theta <= PI ->
  Petal.visible p = true -> 0.5 <= Petal.bloomProgress p ->
  Petal.containsPoint (cx + d * cos theta) (cy + d * sin theta) cx cy p
  = Petal.containsPolar d theta p.
Proof.
  intros Hd Hth Hv Hb. unfold Petal.containsPoint.
  rewrite Hv, ltb_false by exact Hb. cbn [negb orb]. cbv zeta.
  replace (cx + d * cos theta - cx) with (d * cos theta) by ring.
  replace (cy + d * sin theta - cy) with (d * sin theta) by ring.
  rewrite hypot_polar by lra. rewrite atan2_polar by assumption.
  reflexivity.
Qed.

(** The tip lies at distance [length * scale * bloomProgress] from the
    center, in direction [displayAngle]. *)
Lemma tip_polar cx cy p :
  Petal.getTipPosition cx cy p
  = {| vx := cx + Petal.length p * Petal.scale p * Petal.bloomProgress p
                * cos (Petal.displayAngle p);
       vy := cy + Petal.length p * Petal.scale p * Petal.bloomProgress p
                * sin (Petal.displayAngle p) |}.
Proof. unfold Petal.getTipPosition. f_equal; ring. Qed.

(** The width tolerance is positive inside the petal's length. *)
Lemma width_tolerance_pos w d len :
  0 < w -> 0 < d -> d <= len -> 0 < w * (1 - d / len * 0.5) / d.
Proof.
  intros Hw Hd Hle.
  assert (Hi : 0 < / len) by (apply Rinv_0_lt_compat; lra).
  assert (H1 : len * / len = 1) by (field; lra).
  assert (H2 : d / len <= 1) by (unfold Rdiv; nra).
  apply Rdiv_lt_0_compat; [|exact Hd]. apply Rmult_lt_0_compat; lra.
Qed.

(** A petal contains its own tip: the first half of the hit-test
    property. *)
Lemma own_tip_contained cx cy p :
  Petal.visible p = true -> 0.5 <= Petal.bloomProgress p ->
  0 < Petal.width p ->
  0 < Petal.length p * Petal.scale p * Petal.bloomProgress p ->
  Petal.length p * 0.1
  <= Petal.length p * Petal.scale p * Petal.bloomProgress p ->
  let tip := Petal.getTipPosition cx cy p in
  Petal.containsPoint (vx tip) (vy tip) cx cy p = true.
Proof.
  intros Hv Hb Hw Hd Hmin. cbv zeta. rewrite tip_polar. cbn [vx vy].
  set (d := Petal.length p * Petal.scale p * Petal.bloomProgress p) in *.
  destruct (angle_reduce (Petal.displayAngle p)) as (theta & k & Hth & Ea).
  destruct (sin_cos_turns theta k) as (Es & Ec).
  rewrite Ea, Es, Ec.
  rewrite containsPoint_polar by assumption.
  unfold Petal.containsPolar. fold d.
  rewrite (ltb_false d d) by lra. rewrite ltb_false by exact Hmin.
  cbn [orb]. cbv zeta. rewrite Ea.
  pose proof (width_tolerance_pos (Petal.width p) d d Hw Hd (Rle_refl d)) as Hpos.
  pose proof PI_RGT_0 as Hpi.
  replace (theta - (theta + 2 * PI * IZR k)) with (- (2 * PI * IZR k)) by ring.
  rewrite Rabs_Ropp.
  destruct (Z.eq_dec k 0%Z) as [->|Hk].
  - replace (2 * PI * 0) with 0 by ring. rewrite Rabs_R0.
    destruct (Rlt_dec PI 0); [lra|]. apply ltb_true. exact Hpos.
  - assert (Habs : 2 * PI <= Rabs (2 * PI * IZR k)).
    { destruct (Z_le_gt_dec 1%Z k) as [H1|H1].
      - apply IZR_le in H1. rewrite Rabs_right by nra. nra.
      - assert (H2 : (k <= -1)%Z) by lia. apply IZR_le in H2.
        rewrite Rabs_left by nra. nra. }
    destruct (Rlt_dec PI (Rabs (2 * PI * IZR k))); [|lra].
    apply ltb_true. lra.
Qed.

(** The hit test also accepts the tip of petal [p] for any long enough
    petal [q] further round the circle, once [p] points into the lower
    half turn: the point angle is then [displayAngle p - 2 * PI], the
    difference to [displayAngle q] exceeds a full turn, and
    [PI * 2 - angleDiff] is negative. *)
Lemma tip_hit_by_petal_further_round cx cy p q :
  Petal.visible q = true -> 0.5 <= Petal.bloomProgress q ->
  0 < Petal.width q ->
  let d := Petal.length p * Petal.scale p * Petal.bloomProgress p in
  0 < d -> Petal.length q * 0.1 <= d ->
  d <= Petal.length q * Petal.scale q * Petal.bloomProgress q ->
  PI < Petal.displayAngle p <= 3 * PI ->
  Petal.displayAngle p <= Petal.displayAngle q ->
  let tip := Petal.getTipPosition cx cy p in
  Petal.containsPoint (vx tip) (vy tip) cx cy q = true.
Proof.
  intros Hv Hb Hw d Hd Hmin Hmax Hp Hpq. cbv zeta. rewrite tip_polar.
  cbn [vx vy]. fold d. pose proof PI_RGT_0 as Hpi.
  set (theta := Petal.displayAngle p - 2 * PI).
  destruct (sin_cos_turns theta 1) as (Es & Ec).
  replace (theta + 2 * PI * 1) with (Petal.displayAngle p) in Es, Ec
    by (unfold theta; ring).
  rewrite Es, Ec.
  rewrite containsPoint_polar by (unfold theta; (assumption || lra)).
  unfold Petal.containsPolar.
  rewrite (ltb_false _ d) by lra. rewrite ltb_false by exact Hmin.
  cbn [orb]. cbv zeta.
  pose proof (width_tolerance_pos (Petal.width q) d _ Hw Hd Hmax) as Hpos.
  rewrite Rabs_left by (unfold theta; lra).
  destruct (Rlt_dec PI (- (theta - Petal.displayAngle q)));
    [|unfold theta in *; lra].
  apply ltb_true. unfold theta. lra.
Qed.

(** *** The hit-test property on a freshly bloomed flower *)

(** The scan stops at the first petal, from the last index down, that
    contains the point. *)
Lemma scan_first_hit x y m (n : nat) (p : Petal.t) :
  PetalManager.petals m !! n = Some p ->
  Petal.containsPoint x y (PetalManager.centerX m) (PetalManager.centerY m) p
  = true ->
  PetalManager.scan x y m (S n) = Some n.
Proof. intros Hp Hc. cbn [PetalManager.scan]. now rewrite Hp, Hc. Qed.

Lemma INR_numeral (n : nat) : INR n = IZR (Z.of_nat n).
Proof. apply INR_IZR_INZ. Qed.

(** Unfold the fields of a bloomed, freshly constructed petal. *)
Ltac fresh_petal_fields :=
  unfold Petal.displayAngle, Petal.bloomed, Petal.new, Utils.randomRange;
  cbn [Petal.visible Petal.bloomProgress Petal.width Petal.length
       Petal.scale Petal.angle Petal.spinAngle Petal.baseAngle];
  rewrite ?INR_numeral;
  repeat match goal with
         | |- context [Z.of_nat ?n] =>
             let z := eval vm_compute in (Z.of_nat n) in
             change (Z.of_nat n) with z
         end.

(** C4 fails on the flower as constructed and brought to full bloom
    (radius 100 at the origin, every random draw 0.5, so all petals are
    80 long and 15 wide).  The tip of petal 19 is contained by petal 19,
    but also by petal 20 and by petal 35, and the hit test at that point
    returns petal 35. *)
Theorem tip_of_petal_19_hit_by_other_petals :
  let m := PetalManager.bloomed (PetalManager.new 0 0 100 (fun _ _ => 0.5)) in
  let petal := fun i : nat =>
    Petal.bloomed (Petal.new i 36 0 0 100 (fun _ => 0.5)) in
  let tip := Petal.getTipPosition 0 0 (petal 19%nat) in
  PetalManager.petals m !! 19%nat = Some (petal 19%nat)
  /\ PetalManager.petals m !! 20%nat = Some (petal 20%nat)
  /\ PetalManager.petals m !! 35%nat = Some (petal 35%nat)
  /\ Petal.containsPoint (vx tip) (vy tip) 0 0 (petal 19%nat) = true
  /\ Petal.containsPoint (vx tip) (vy tip) 0 0 (petal 20%nat) = true
  /\ Petal.containsPoint (vx tip) (vy tip) 0 0 (petal 35%nat) = true
  /\ PetalManager.getPetalAtPoint (vx tip) (vy tip) m = Some 35%nat.
Proof.
  cbv zeta. pose proof PI_RGT_0 as Hpi.
  assert (L19 : PetalManager.petals
                  (PetalManager.bloomed
                     (PetalManager.new 0 0 100 (fun _ _ => 0.5))) !! 19%nat
                = Some (Petal.bloomed (Petal.new 19 36 0 0 100 (fun _ => 0.5))))
    by reflexivity.
  assert (L20 : PetalManager.petals
                  (PetalManager.bloomed
                     (PetalManager.new 0 0 100 (fun _ _ => 0.5))) !! 20%nat
                = Some (Petal.bloomed (Petal.new 20 36 0 0 100 (fun _ => 0.5))))
    by reflexivity.
  assert (L35 : PetalManager.petals
                  (PetalManager.bloomed
                     (PetalManager.new 0 0 100 (fun _ _ => 0.5))) !! 35%nat
                = Some (Petal.bloomed (Petal.new 35 36 0 0 100 (fun _ => 0.5))))
    by reflexivity.
  assert (C19 : Petal.containsPoint
                  (vx (Petal.getTipPosition 0 0
                         (Petal.bloomed (Petal.new 19 36 0 0 100 (fun _ => 0.5)))))
                  (vy (Petal.getTipPosition 0 0
                         (Petal.bloomed (Petal.new 19 36 0 0 100 (fun _ => 0.5)))))
                  0 0 (Petal.bloomed (Petal.new 19 36 0 0 100 (fun _ => 0.5)))
                = true).
  { apply own_tip_contained; try reflexivity; fresh_petal_fields; lra. }
  assert (Cq : forall j : nat, (j = 20 \/ j = 35)%nat ->
            Petal.containsPoint
              (vx (Petal.getTipPosition 0 0
                     (Petal.bloomed (Petal.new 19 36 0 0 100 (fun _ => 0.5)))))
              (vy (Petal.getTipPosition 0 0
                     (Petal.bloomed (Petal.new 19 36 0 0 100 (fun _ => 0.5)))))
              0 0 (Petal.bloomed (Petal.new j 36 0 0 100 (fun _ => 0.5)))
            = true).
  { intros j Hj. apply tip_hit_by_petal_further_round; try reflexivity;
      destruct Hj as [-> | ->]; fresh_petal_fields; lra. }
  split; [exact L19|]. split; [exact L20|]. split; [exact L35|].
  split; [exact C19|]. split; [apply Cq; now left|].
  split; [apply Cq; now right|].
  unfold PetalManager.getPetalAtPoint.
  replace (List.length (PetalManager.petals
             (PetalManager.bloomed (PetalManager.new 0 0 100 (fun _ _ => 0.5)))))
    with 36%nat by reflexivity.
  apply (scan_first_hit _ _ _ 35%nat _ L35).
  apply Cq. now right.
Qed.

(** *** Display angle and geometry *)












End PetalSpec.

Module CuriositySpec.
Import PetalManager JSMathFacts.
Local Open Scope R_scope.

(** *** [setCuriositySide] *)

(** On angles for which the difference to the base angle stays within one
    turn, [setCuriositySide] boosts exactly the petals within 90 degrees:
    this covers every base angle in [0, 2 * PI) and every angle in
    [-PI/2, PI]. *)
Lemma curiosityStiffness_within90 base angle :
  0 <= base < 2 * PI -> - (PI / 2) <= angle <= PI ->
  (within90 base angle -> curiosityStiffness base angle = 1.5)
  /\ (~ within90 base angle -> curiosityStiffness base angle = 1).
Proof.
  intros Hb Ha. pose proof PI_RGT_0 as Hpi. unfold curiosityStiffness.
  cbv zeta.
  assert (Hk : forall k : Z, Rabs (base - angle + 2 * PI * IZR k) < PI / 2 ->
                 k = 0%Z \/ k = (-1)%Z).
  { intros k H. apply Rabs_def2 in H as [H1 H2].
    destruct (Z_le_gt_dec 1 k) as [G|G];
      [apply IZR_le in G; nra|].
    destruct (Z_le_gt_dec k (-2)) as [L|L];
      [apply IZR_le in L; nra|]. lia. }
  split.
  - intros [k H]. destruct (Hk k H) as [-> | ->];
      apply Rabs_def2 in H as [H1 H2].
    + (* no wrap *)
      assert (E : Rabs (base - angle) < PI / 2).
      { apply Rabs_def1; lra. }
      destruct (Rlt_dec PI (Rabs (base - angle))); [lra|].
      destruct (Rlt_dec (Rabs (base - angle)) (PI / 2)); [reflexivity | lra].
    + (* one turn back *)
      assert (E : Rabs (base - angle) = base - angle).
      { apply Rabs_right. lra. }
      rewrite E.
      destruct (Rlt_dec PI (base - angle)); [|lra].
      destruct (Rlt_dec (PI * 2 - (base - angle)) (PI / 2));
        [reflexivity | lra].
  - intros Hn.
    destruct (Rlt_dec PI (Rabs (base - angle))) as [Hw|Hw].
    + destruct (Rlt_dec (PI * 2 - Rabs (base - angle)) (PI / 2)) as [Hc|Hc];
        [|reflexivity].
      exfalso. apply Hn. exists (-1)%Z.
      assert (E : Rabs (base - angle) = base - angle).
      { apply Rabs_right. unfold Rabs in Hw.
        destruct (Rcase_abs (base - angle)); lra. }
      rewrite E in *. apply Rabs_def1; lra.
    + destruct (Rlt_dec (Rabs (base - angle)) (PI / 2)) as [Hc|Hc];
        [|reflexivity].
      exfalso. apply Hn. exists 0%Z.
      replace (base - angle + 2 * PI * 0) with (base - angle) by ring.
      exact Hc.
Qed.

(** *** [resetCuriosity] *)

(** The value written by [resetCuriosity] lies in [0.8, 1.2), the
    constructor's in [0.08, 0.15): they never agree. *)
Lemma reset_stiffness_not_baseline u u' :
  0 <= u < 1 -> 0 <= u' < 1 ->
  0.08 <= Utils.randomRange u 0.08 0.15 < 0.15
  /\ 0.8 <= Utils.randomRange u' 0.8 1.2 < 1.2
  /\ Utils.randomRange u' 0.8 1.2 <> Utils.randomRange u 0.08 0.15.
Proof. unfold Utils.randomRange. intros Hu Hu'. repeat split; lra. Qed.

(** C8 fails on the flower as constructed (every random draw 0.5) when
    the curiosity angle is -120 degrees, the direction [Math.atan2] gives
    for a cursor up and to the left of the flower.  Petal 34 (base angle
    340 degrees) is 100 degrees away from that direction and is boosted to
    1.5 all the same.  [resetCuriosity] then leaves every petal at
    stiffness 1, not at the 0.115 it was constructed with. *)
Theorem curiosity_side_and_reset_diverge :
  let m := new 0 0 100 (fun _ _ => 0.5) in
  let angle := - (2 * PI / 3) in
  (exists p : Petal.t,
     petals m !! 34%nat = Some p
     /\ Petal.baseAngle p = 34 / 36 * PI * 2
     /\ ~ within90 (Petal.baseAngle p) angle)
  /\ Petal.bendStiffness <$> petals (setCuriositySide angle m) !! 34%nat
     = Some 1.5
  /\ (forall (i : nat) (p p' : Petal.t),
        petals m !! i = Some p ->
        petals (resetCuriosity (fun _ => 0.5) (setCuriositySide angle m)) !! i
        = Some p' ->
        Petal.bendStiffness p = 0.115 /\ Petal.bendStiffness p' = 1).
Proof.
  cbv zeta. pose proof PI_RGT_0 as Hpi.
  assert (B34 : Petal.baseAngle (Petal.new 34 PHYSICS.petalCount 0 0 100
                                   (fun _ => 0.5)) = 34 / 36 * PI * 2).
  { cbn [Petal.new Petal.baseAngle]. unfold PHYSICS.petalCount.
    rewrite !INR_IZR_INZ.
    change (Z.of_nat 34) with 34%Z. change (Z.of_nat 36) with 36%Z.
    reflexivity. }
  split; [|split].
  - eexists. split; [reflexivity|]. split; [exact B34|].
    rewrite B34. intros [k H]. apply Rabs_def2 in H as [H1 H2].
    destruct (Z_le_gt_dec (-1) k) as [G|G].
    + apply IZR_le in G. nra.
    + assert (L : (k <= -2)%Z) by lia. apply IZR_le in L. nra.
  - cbn [setCuriositySide petals set_petals]. rewrite list_lookup_fmap.
    replace (petals (new 0 0 100 (fun _ _ => 0.5)) !! 34%nat)
      with (Some (Petal.new 34 PHYSICS.petalCount 0 0 100 (fun _ => 0.5)))
      by reflexivity.
    cbn [fmap option_fmap option_map Petal.set_bendStiffness
         Petal.bendStiffness].
    f_equal. rewrite B34. unfold curiosityStiffness. cbv zeta.
    rewrite Rabs_right by lra.
    destruct (Rlt_dec PI (34 / 36 * PI * 2 - - (2 * PI / 3))); [|lra].
    destruct (Rlt_dec _ (PI / 2)); [reflexivity | lra].
  - intros i p p' Hp Hp'.
    cbn [resetCuriosity setCuriositySide petals set_petals] in Hp'.
    rewrite list_lookup_imap, list_lookup_fmap, Hp in Hp'.
    cbn in Hp'. injection Hp' as <-.
    cbn [new petals] in Hp. rewrite list_lookup_fmap in Hp.
    destruct (seq 0 PHYSICS.petalCount !! i); [|discriminate].
    injection Hp as <-.
    cbn [Petal.new Petal.bendStiffness Petal.set_bendStiffness].
    unfold Utils.randomRange. split; lra.
Qed.

End CuriositySpec.

Module DefensiveSpec.
Import JSMathFacts.
Local Open Scope R_scope.

(** A frame update of a manager whose petals are all still hidden. *)
Lemma updateAll_hidden dt wind now : forall ps i,
  Forall (fun p => Petal.visible p = false) ps ->
  PetalManager.updateAll dt wind now i ps = Returned ps.
Proof.
  induction ps as [|p rest IH]; intros i HF; [reflexivity|].
  apply Forall_cons_iff in HF as [Hp Hrest].
  cbn [PetalManager.updateAll]. unfold Petal.update. rewrite Hp.
  cbn [negb]. now rewrite IH.
Qed.

(** C9.  [update()] on a stem, a petal, a whole petal manager or the core
    that is not visible returns normally and leaves the object exactly as
    it was, whatever the frame time and clock, and even when the wind (or
    the music intensity) argument is missing; the freshly constructed
    objects are not visible.  The hit tests answer "no hit" for every
    point whenever the petal is hidden or its bloom progress is below 0.5,
    and whenever the core is hidden or its fill progress is below 0.5. *)
Theorem updates_before_visible_are_noops :
  (forall (s : Stem.t) (dt : R) (wind : option Vec2) (now : R),
     Stem.visible s = false -> Stem.update dt wind now s = Returned s)
  /\ (forall (p : Petal.t) (dt : R) (wind : option Vec2) (now : R),
        Petal.visible p = false -> Petal.update dt wind now p = Returned p)
  /\ (forall (m : PetalManager.t) (dt : R) (wind : option Vec2)
             (now : nat -> R),
        Forall (fun p => Petal.visible p = false) (PetalManager.petals m) ->
        PetalManager.update dt wind now m = Returned m)
  /\ (forall (c : CorePulse.t) (dt : R) (music : option R),
        CorePulse.visible c = false -> CorePulse.update dt music c = c)
  /\ (forall (bx by_ h : R), Stem.visible (Stem.new bx by_ h) = false)
  /\ (forall (i n : nat) (cx cy r : R) (u : nat -> R),
        Petal.visible (Petal.new i n cx cy r u) = false)
  /\ (forall (x y r : R) (rand : nat -> nat -> R),
        CorePulse.visible (CorePulse.new x y r rand) = false)
  /\ (forall (p : Petal.t) (px py cx cy : R),
        Petal.visible p = false \/ Petal.bloomProgress p < 0.5 ->
        Petal.containsPoint px py cx cy p = false)
  /\ (forall (c : CorePulse.t) (px py : R),
        CorePulse.visible c = false \/ CorePulse.fillProgress c < 0.5 ->
        CorePulse.containsPoint px py c = false).
Proof.
  repeat apply conj.
  - intros s dt wind now H. unfold Stem.update. now rewrite H.
  - intros p dt wind now H. unfold Petal.update. now rewrite H.
  - intros m dt wind now H. unfold PetalManager.update.
    rewrite updateAll_hidden by exact H. now destruct m.
  - intros c dt music H. unfold CorePulse.update. now rewrite H.
  - reflexivity.
  - reflexivity.
  - reflexivity.
  - intros p px py cx cy [H|H]; unfold Petal.containsPoint.
    + now rewrite H.
    + unfold JSMath.ltb at 1.
      destruct (Rlt_dec (Petal.bloomProgress p) 0.5); [|lra].
      now rewrite orb_true_r.
  - intros c px py [H|H]; unfold CorePulse.containsPoint.
    + now rewrite H.
    + unfold JSMath.ltb at 1.
      destruct (Rlt_dec (CorePulse.fillProgress c) 0.5); [|lra].
      now rewrite orb_true_r.
Qed.

(** The theorem on the objects as constructed, updated without a wind
    argument, and hit-tested at the flower center. *)
Lemma updates_before_visible_are_noops_witness :
  Stem.update 16 None 0 (Stem.new 400 500 200)
  = Returned (Stem.new 400 500 200)
  /\ Petal.update 16 None 0 (Petal.new 0 36 0 0 100 (fun _ => 0.5))
     = Returned (Petal.new 0 36 0 0 100 (fun _ => 0.5))
  /\ CorePulse.update 16 None (CorePulse.new 0 0 25 (fun _ _ => 0.5))
     = CorePulse.new 0 0 25 (fun _ _ => 0.5)
  /\ Petal.containsPoint 0 0 0 0 (Petal.new 0 36 0 0 100 (fun _ => 0.5))
     = false
  /\ CorePulse.containsPoint 0 0 (CorePulse.new 0 0 25 (fun _ _ => 0.5))
     = false.
Proof.
  destruct updates_before_visible_are_noops
    as (HS & HP & _ & HC & _ & _ & _ & HPc & HCc).
  split; [apply HS; reflexivity|]. split; [apply HP; reflexivity|].
  split; [apply HC; reflexivity|].
  split; [apply HPc; left; reflexivity | apply HCc; left; reflexivity].
Defined.

End DefensiveSpec.

(* ===================================================================== *)
(** * Part III: further properties of the embedded code                   *)
(* ===================================================================== *)

Module EntranceProgressSpec.
Import EntranceAnimation.
Local Open Scope Q_scope.

(** The four stage windows are non-empty. *)
Lemma timing_window stage timing :
  timing_of stage = Some timing ->
  TIMING.start timing < TIMING.end_ timing.
Proof.
  destruct stage; intros [= <-]; cbn; reflexivity.
Qed.

Lemma ratio_bounds e a b :
  a < b -> a <= e -> e < b -> 0 <= (e - a) / (b - a) /\ (e - a) / (b - a) < 1.
Proof.
  intros Hab Hae Heb.
  assert (Hpos : 0 < b - a) by Lqa.lra.
  split.
  - apply Qle_shift_div_l; [exact Hpos | Lqa.lra].
  - apply Qlt_shift_div_r; [exact Hpos | Lqa.lra].
Qed.

Lemma ratio_mono e1 e2 a b :
  a < b -> e1 <= e2 -> (e1 - a) / (b - a) <= (e2 - a) / (b - a).
Proof.
  intros Hab H12. assert (Hpos : 0 < b - a) by Lqa.lra.
  unfold Qdiv. apply Qmult_le_compat_r; [Lqa.lra|].
  apply Qlt_le_weak, Qinv_lt_0_compat. exact Hpos.
Qed.

(** The value computed from the elapsed time [x] for the window [a, b]. *)
Lemma window_value_range a b x :
  a < b ->
  0 <= (if Qlt_le_dec x a then 0
        else if Qle_bool b x then 1 else (x - a) / (b - a)) <= 1.
Proof.
  intros Hw. destruct (Qlt_le_dec x a); [Lqa.lra|].
  destruct (Qle_bool b x) eqn:Eb; [Lqa.lra|].
  assert (x < b).
  { apply Qnot_le_lt. intros Hc. apply Qle_bool_iff in Hc. congruence. }
  destruct (ratio_bounds x a b Hw q H). Lqa.lra.
Qed.

Lemma window_value_mono a b x x' :
  a < b -> x <= x' ->
  (if Qlt_le_dec x a then 0
   else if Qle_bool b x then 1 else (x - a) / (b - a))
  <= (if Qlt_le_dec x' a then 0
      else if Qle_bool b x' then 1 else (x' - a) / (b - a)).
Proof.
  intros Hw Hx.
  destruct (Qlt_le_dec x a) as [L|L].
  { apply window_value_range, Hw. }
  destruct (Qlt_le_dec x' a) as [L'|L']; [Lqa.lra|].
  destruct (Qle_bool b x) eqn:Eb.
  { apply Qle_bool_iff in Eb.
    assert (Eb' : Qle_bool b x' = true) by (apply Qle_bool_iff; Lqa.lra).
    rewrite Eb'. Lqa.lra. }
  assert (x < b).
  { apply Qnot_le_lt. intros Hc. apply Qle_bool_iff in Hc. congruence. }
  destruct (Qle_bool b x') eqn:Eb'.
  { destruct (ratio_bounds x a b Hw L H). Lqa.lra. }
  apply ratio_mono; assumption.
Qed.

Lemma stage_progress_range s stage now :
  0 <= getStageProgress now stage s <= 1.
Proof.
  unfold getStageProgress.
  destruct (negb (isPlaying s) && negb (isComplete s)); [Lqa.lra|].
  destruct (timing_of stage) as [tm|] eqn:Et; [|Lqa.lra].
  apply window_value_range, (timing_window stage tm Et).
Qed.

(** X1.  [getStageProgress] is a normalized position: it always lies in
    [0, 1], it is 0 while the sequencer has neither been started nor
    completed, it is 0 before the stage's window and 1 from the end of
    the window on, and it never decreases as the clock advances. *)
Theorem stage_progress_normalized
    (s : t) (stage : StageName) (now now' : Q) :
  0 <= getStageProgress now stage s <= 1
  /\ (isPlaying s = false -> isComplete s = false ->
      getStageProgress now stage s = 0)
  /\ (forall timing, timing_of stage = Some timing ->
        isPlaying s = true \/ isComplete s = true ->
        (now - startTime s < TIMING.start timing ->
         getStageProgress now stage s = 0)
        /\ (TIMING.end_ timing <= now - startTime s ->
            getStageProgress now stage s = 1))
  /\ (now <= now' ->
      getStageProgress now stage s <= getStageProgress now' stage s).
Proof.
  unfold getStageProgress.
  destruct (negb (isPlaying s) && negb (isComplete s)) eqn:Eg.
  { split; [Lqa.lra|]. split; [reflexivity|]. split; [|Lqa.lra].
    intros tm _ [H|H]; rewrite H in Eg; cbn in Eg;
      rewrite ?andb_false_r in Eg; discriminate. }
  assert (Hstarted : ~ (isPlaying s = false /\ isComplete s = false)).
  { intros [P C]. rewrite P, C in Eg. discriminate. }
  destruct (timing_of stage) as [tm|] eqn:Et.
  2:{ split; [Lqa.lra|]. split; [reflexivity|]. split; [|Lqa.lra].
      intros tm' [=]. }
  pose proof (timing_window stage tm Et) as Hw.
  cbv zeta.
  split; [apply window_value_range, Hw|]. split; [|split].
  - intros P C. destruct Hstarted. now split.
  - intros tm' [= <-] _. split.
    + intros Hlt.
      destruct (Qlt_le_dec (now - startTime s) (TIMING.start tm));
        [reflexivity | Lqa.lra].
    + intros Hge.
      destruct (Qlt_le_dec (now - startTime s) (TIMING.start tm));
        [Lqa.lra|].
      apply Qle_bool_iff in Hge. now rewrite Hge.
  - intros Hnow. apply window_value_mono; [exact Hw | Lqa.lra].
Qed.

(** Stage C (4000 to 7000 ms) of a sequencer started at clock 1000. *)
Lemma stage_progress_normalized_witness :
  getStageProgress 4500 C (start 1000 registered) = 0
  /\ getStageProgress 9000 C (start 1000 registered) = 1
  /\ getStageProgress 6500 C (start 1000 registered)
     <= getStageProgress 7000 C (start 1000 registered).
Proof.
  destruct (stage_progress_normalized (start 1000 registered) C 4500 4500)
    as (_ & _ & H & _).
  destruct (H _ eq_refl (or_introl eq_refl)) as [H0 _].
  destruct (stage_progress_normalized (start 1000 registered) C 9000 9000)
    as (_ & _ & H' & _).
  destruct (H' _ eq_refl (or_introl eq_refl)) as [_ H1].
  destruct (stage_progress_normalized (start 1000 registered) C 6500 7000)
    as (_ & _ & _ & Hm).
  split; [apply H0; reflexivity|]. split; [apply H1; discriminate|].
  apply Hm. discriminate.
Defined.

Lemma reached_app thr t0 nows more :
  reached thr t0 (nows ++ more) = reached thr t0 nows || reached thr t0 more.
Proof. unfold reached. apply existsb_app. Qed.

(** X2.  The sequencer tracks the latest stage whose start some [update()]
    has seen: after any run the current stage is the last one reached
    (even when several starts were passed in one update), the run is
    complete exactly when an update saw 9000 ms or more, playing stops
    exactly then, and the stage never moves backwards as the run goes
    on, whatever the clock readings. *)
Theorem run_tracks_latest_stage (t0 : Q) (nows more : list Q) :
  let s := run t0 nows in
  getIsComplete s = reached (threshold cbComplete) t0 nows
  /\ isPlaying s = negb (getIsComplete s)
  /\ getCurrentStage s
     = Some (if reached (threshold cbComplete) t0 nows then complete
             else if reached (threshold cbStageD) t0 nows then D
             else if reached (threshold cbStageC) t0 nows then C
             else if reached (threshold cbStageB) t0 nows then B
             else A)
  /\ (stage_rank (getCurrentStage s)
      <= stage_rank (getCurrentStage (run t0 (nows ++ more))))%nat.
Proof.
  cbv zeta. rewrite !EntranceAnimationSpec.run_st.
  unfold getIsComplete, getCurrentStage. cbn [st isComplete isPlaying currentStage].
  split; [reflexivity|]. split; [reflexivity|]. split; [reflexivity|].
  rewrite !reached_app.
  destruct (reached (threshold cbComplete) t0 nows),
           (reached (threshold cbStageD) t0 nows),
           (reached (threshold cbStageC) t0 nows),
           (reached (threshold cbStageB) t0 nows),
           (reached (threshold cbComplete) t0 more),
           (reached (threshold cbStageD) t0 more),
           (reached (threshold cbStageC) t0 more),
           (reached (threshold cbStageB) t0 more);
    cbn; lia.
Qed.

End EntranceProgressSpec.

Module EasingSpec.
Import EntranceAnimation.
Local Open Scope Q_scope.

Lemma cube_unfold x : x ^ 3 == x * x * x.
Proof. cbn. ring. Qed.

Lemma cube_mono x y : 0 <= x -> x <= y -> x * x * x <= y * y * y.
Proof.
  intros Hx Hxy.
  assert (H1 : x * x <= y * y) by (apply Qmult_le_compat_nonneg; split; Lqa.lra).
  assert (H0 : 0 <= x * x) by (apply Qmult_le_0_compat; assumption).
  apply Qmult_le_compat_nonneg; split; Lqa.lra.
Qed.

Lemma cubicInOut_low t : t < 0.5 -> Easing.cubicInOut t == 4 * (t * t * t).
Proof.
  intros H. unfold Easing.cubicInOut.
  destruct (Qlt_le_dec t 0.5); [ring | Lqa.lra].
Qed.

Lemma cubicInOut_high t :
  0.5 <= t -> Easing.cubicInOut t == 1 - 4 * ((1 - t) * (1 - t) * (1 - t)).
Proof.
  intros H. unfold Easing.cubicInOut.
  destruct (Qlt_le_dec t 0.5); [Lqa.lra|].
  rewrite cube_unfold. field.
Qed.

Lemma cubicInOut_mono t u :
  0 <= t -> t <= u -> u <= 1 -> Easing.cubicInOut t <= Easing.cubicInOut u.
Proof.
  intros H0 Htu H1.
  destruct (Qlt_le_dec t 0.5) as [Lt|Lt]; destruct (Qlt_le_dec u 0.5) as [Lu|Lu].
  - rewrite (cubicInOut_low t Lt), (cubicInOut_low u Lu).
    pose proof (cube_mono t u H0 Htu). Lqa.lra.
  - rewrite (cubicInOut_low t Lt), (cubicInOut_high u Lu).
    assert (A : t * t * t <= 0.5 * 0.5 * 0.5) by (apply cube_mono; Lqa.lra).
    assert (B : (1 - u) * (1 - u) * (1 - u) <= 0.5 * 0.5 * 0.5)
      by (apply cube_mono; Lqa.lra).
    Lqa.lra.
  - Lqa.lra.
  - rewrite (cubicInOut_high t Lt), (cubicInOut_high u Lu).
    assert (B : (1 - u) * (1 - u) * (1 - u) <= (1 - t) * (1 - t) * (1 - t))
      by (apply cube_mono; Lqa.lra).
    Lqa.lra.
Qed.

(** X3.  [cubicInOut] maps [0, 1] onto itself: it fixes 0, 0.5 and 1, it is
    non-decreasing on [0, 1], and its graph is symmetric about the point
    (0.5, 0.5).  Hence the eased progress of a stage lies in [0, 1] for
    every sequencer state and clock reading. *)
Theorem eased_progress_normalized :
  Easing.cubicInOut 0 == 0
  /\ Easing.cubicInOut 0.5 == 0.5
  /\ Easing.cubicInOut 1 == 1
  /\ (forall t u, 0 <= t -> t <= u -> u <= 1 ->
        Easing.cubicInOut t <= Easing.cubicInOut u)
  /\ (forall t, Easing.cubicInOut (1 - t) == 1 - Easing.cubicInOut t)
  /\ (forall (s : EntranceAnimation.t) stage now,
        0 <= getEasedProgress now stage s <= 1).
Proof.
  assert (E0 : Easing.cubicInOut 0 == 0) by reflexivity.
  assert (E1 : Easing.cubicInOut 1 == 1) by reflexivity.
  split; [exact E0|]. split; [reflexivity|]. split; [exact E1|].
  split; [exact cubicInOut_mono|]. split.
  - intros t. destruct (Qlt_le_dec t 0.5) as [L|L].
    + rewrite (cubicInOut_low t L), cubicInOut_high by Lqa.lra. ring.
    + destruct (Qlt_le_dec 0.5 t) as [L'|L'].
      * rewrite (cubicInOut_high t L), cubicInOut_low by Lqa.lra. ring.
      * assert (Et : t == 0.5) by Lqa.lra.
        rewrite (cubicInOut_high t L), cubicInOut_high by Lqa.lra.
        rewrite Et. reflexivity.
  - intros s stage now. unfold getEasedProgress.
    destruct (EntranceProgressSpec.stage_progress_range s stage now)
      as [Hlo Hhi].
    split.
    + apply Qle_trans with (Easing.cubicInOut 0);
        [rewrite E0; apply Qle_refl | apply cubicInOut_mono; Lqa.lra].
    + apply Qle_trans with (Easing.cubicInOut 1);
        [apply cubicInOut_mono; Lqa.lra | rewrite E1; apply Qle_refl].
Qed.

End EasingSpec.

Module StateManagerHistorySpec.
Import StateManager.
Local Open Scope Q_scope.

Lemma history_app ops more s :
  history (ops ++ more) s = history more (history ops s).
Proof. apply fold_left_app. Qed.

Ltac split_ifs :=
  repeat match goal with
         | |- context [if ?b then _ else _] => destruct b
         end.

(** *** Night shift *)

Lemma recordInteraction_night now now' ty x y s :
  nightShiftActive (recordInteraction now now' ty x y s) = nightShiftActive s
  /\ nightShiftProgress (recordInteraction now now' ty x y s)
     = nightShiftProgress s
  /\ sessionStartTime (recordInteraction now now' ty x y s)
     = sessionStartTime s.
Proof.
  unfold recordInteraction, activateCuriosity, track, touch, invoke.
  split_ifs; cbn; auto.
Qed.

Lemma apply_night_monotone o s :
  nightShiftProgress s <= 1 ->
  nightShiftProgress s <= nightShiftProgress (apply o s)
  /\ nightShiftProgress (apply o s) <= 1.
Proof.
  intros H. destruct o as [now now' ty x y|now]; cbn [apply].
  - destruct (recordInteraction_night now now' ty x y s) as (_ & -> & _).
    split; [apply Qle_refl | exact H].
  - apply (StateManagerSpec.update_night_monotone now s H).
Qed.

Lemma history_night_monotone ops : forall s,
  nightShiftProgress s <= 1 ->
  nightShiftProgress s <= nightShiftProgress (history ops s)
  /\ nightShiftProgress (history ops s) <= 1.
Proof.
  induction ops as [|o ops IH]; intros s H; cbn [history fold_left].
  - split; [apply Qle_refl | exact H].
  - destruct (apply_night_monotone o s H) as [H1 H2].
    destruct (IH (apply o s) H2) as [H3 H4]. split; [|exact H4].
    eapply Qle_trans; eassumption.
Qed.

(** X4.  Over any sequence of [recordInteraction] and [update] calls, with any
    clock readings, the night progress never decreases and never exceeds
    1; in particular it stays in [0, 1] from construction on. *)
Theorem night_progress_monotone_over_history
    (s : t) (ops more : list op) :
  getNightProgress s <= 1 ->
  getNightProgress s <= getNightProgress (history ops s)
  /\ getNightProgress (history ops s)
     <= getNightProgress (history (ops ++ more) s)
  /\ getNightProgress (history (ops ++ more) s) <= 1.
Proof.
  intros H. unfold getNightProgress.
  destruct (history_night_monotone ops s H) as [H1 H2].
  rewrite history_app.
  destruct (history_night_monotone more (history ops s) H2) as [H3 H4].
  auto.
Qed.

Lemma night_progress_monotone_over_history_witness :
  let s := registered 0 0 in
  let ops := [OpUpdate 100000; OpRecord 100500 100500 "petalClick" 1 2] in
  let more := [OpUpdate 95000; OpUpdate 200000] in
  getNightProgress s <= getNightProgress (history ops s)
  /\ getNightProgress (history ops s)
     <= getNightProgress (history (ops ++ more) s)
  /\ getNightProgress (history (ops ++ more) s) <= 1.
Proof.
  intros s ops more.
  apply (night_progress_monotone_over_history s ops more).
  discriminate.
Defined.

Lemma night_ramp_nonneg start now : 0 <= night_ramp start now.
Proof.
  unfold night_ramp. destruct (Qlt_le_dec _ _) as [L|L]; [|Lqa.lra].
  apply Q.min_glb; [Lqa.lra|].
  apply Qle_shift_div_l; [reflexivity|].
  unfold TIMING.nightShiftThreshold in *. Lqa.lra.
Qed.

Lemma night_ramp_mono start c now :
  c <= now -> night_ramp start c <= night_ramp start now.
Proof.
  intros H. unfold night_ramp.
  destruct (Qlt_le_dec _ (c - start)) as [L|L].
  - destruct (Qlt_le_dec _ (now - start)) as [L'|L']; [|Lqa.lra].
    apply Q.min_le_compat_l.
    unfold Qdiv. apply Qmult_le_compat_r; [Lqa.lra | discriminate].
  - apply night_ramp_nonneg.
Qed.

Lemma night_inv_record start bound now now' ty x y s :
  night_inv start bound s ->
  night_inv start bound (recordInteraction now now' ty x y s).
Proof.
  unfold night_inv.
  destruct (recordInteraction_night now now' ty x y s) as (-> & -> & ->).
  auto.
Qed.

Lemma update_night_fields now s :
  sessionStartTime (update now s) = sessionStartTime s
  /\ nightShiftActive (update now s)
     = nightShiftActive s
       || (if Qlt_le_dec TIMING.nightShiftThreshold
                          (now - sessionStartTime s)
           then true else false)
  /\ nightShiftProgress (update now s)
     = if nightShiftActive (update now s)
       then if Qlt_le_dec (nightShiftProgress s)
                  ((now - (sessionStartTime s + TIMING.nightShiftThreshold))
                   / TIMING.nightTransitionDuration)
            then Qmin 1
                   ((now - (sessionStartTime s + TIMING.nightShiftThreshold))
                    / TIMING.nightTransitionDuration)
            else nightShiftProgress s
       else nightShiftProgress s.
Proof.
  unfold update.
  destruct (StateManagerSpec.stepIdle_night now s) as (A1 & P1 & S1).
  destruct (StateManagerSpec.stepCuriosity_night now (stepIdle now s))
    as (A2 & P2 & S2).
  set (s2 := stepCuriosity now (stepIdle now s)) in *.
  rewrite A1 in A2. rewrite P1 in P2. rewrite S1 in S2.
  clearbody s2.
  unfold stepNightProgress, stepNightActivate.
  rewrite S2, A2, P2.
  set (thr := if Qlt_le_dec TIMING.nightShiftThreshold
                            (now - sessionStartTime s)
              then true else false).
  clearbody thr.
  destruct (nightShiftActive s), thr; cbn -[Qlt_le_dec Qmin Qdiv];
    rewrite ?S2, ?A2, ?P2;
    try (destruct (Qlt_le_dec _ _); unfold invoke;
         try destruct (cb_onNightShift _);
         cbn -[Qmin Qdiv]; rewrite ?S2, ?A2, ?P2; auto);
    auto.
Qed.

Lemma night_inv_update start bound now s :
  now <= bound ->
  night_inv start bound s -> night_inv start bound (update now s).
Proof.
  intros Hb (Hs & Ha & H0 & Hp).
  destruct (update_night_fields now s) as (S' & A' & P').
  unfold night_inv. rewrite S'. split; [exact Hs|].
  rewrite Hs in A', P'.
  assert (Hact : nightShiftActive (update now s) = true ->
                 TIMING.nightShiftThreshold < bound - start).
  { rewrite A'. intros E. apply orb_true_iff in E as [E|E]; [auto|].
    destruct (Qlt_le_dec _ _) as [L|L]; [Lqa.lra | discriminate]. }
  split; [exact Hact|].
  rewrite P'. clear A' P'.
  destruct (nightShiftActive (update now s)); [|auto].
  match goal with
  | |- context [Qlt_le_dec ?a ?b] => destruct (Qlt_le_dec a b) as [L|L]
  end; [|auto].
  specialize (Hact eq_refl). split.
  - apply Q.min_glb; [Lqa.lra|]. eapply Qle_trans; [exact H0|].
    apply Qlt_le_weak, L.
  - unfold night_ramp.
    destruct (Qlt_le_dec _ (bound - start)) as [L'|L']; [|Lqa.lra].
    apply Q.min_le_compat_l.
    unfold Qdiv. apply Qmult_le_compat_r; [Lqa.lra | discriminate].
Qed.

Lemma night_inv_history start bound ops : forall s,
  Forall (fun o => forall c, op_clock o = Some c -> c <= bound) ops ->
  night_inv start bound s -> night_inv start bound (history ops s).
Proof.
  induction ops as [|o ops IH]; intros s Hc Hi; cbn [history fold_left].
  - exact Hi.
  - inversion Hc as [|? ? Ho Hrest]; subst.
    apply IH; [exact Hrest|].
    destruct o as [now now' ty x y|now]; cbn [apply].
    + apply night_inv_record, Hi.
    + apply night_inv_update; [apply Ho; reflexivity | exact Hi].
Qed.

Lemma night_inv_registered n1 n2 bound :
  night_inv n2 bound (registered n1 n2).
Proof.
  unfold night_inv. cbn. split; [reflexivity|]. split; [discriminate|].
  split; [Lqa.lra | apply night_ramp_nonneg].
Qed.

(** X5.  When no earlier [update()] has read a clock later than [now], the
    night progress after [update()] at [now] is exactly the ramp
    [min(1, (now - sessionStart - 90000) / 60000)] once more than 90000 ms
    of session have elapsed, and 0 before. *)
Theorem night_progress_follows_ramp
    (n1 n2 : Q) (ops : list op) (now : Q) :
  Forall (fun o => forall c, op_clock o = Some c -> c <= now) ops ->
  getNightProgress (update now (history ops (registered n1 n2)))
  == night_ramp n2 now.
Proof.
  intros Hc.
  pose proof (night_inv_history n2 now ops _ Hc
                (night_inv_registered n1 n2 now)) as (Hs & Ha & H0 & Hp).
  set (s := history ops (registered n1 n2)) in *. clearbody s.
  destruct (update_night_fields now s) as (S' & A' & P').
  unfold getNightProgress. rewrite P', A'. rewrite Hs in *.
  unfold night_ramp in *.
  destruct (Qlt_le_dec TIMING.nightShiftThreshold (now - n2)) as [L|L].
  - rewrite orb_true_r.
    destruct (Qlt_le_dec (nightShiftProgress s) _) as [L'|L'];
      [reflexivity|].
    set (r := (now - (n2 + TIMING.nightShiftThreshold))
              / TIMING.nightTransitionDuration) in *.
    pose proof (Q.le_min_r 1 r). pose proof (Q.le_min_l 1 r).
    assert (Er : nightShiftProgress s == r) by Lqa.lra.
    rewrite Er. symmetry. apply Q.min_r. Lqa.lra.
  - destruct (nightShiftActive s) eqn:Ea.
    + specialize (Ha eq_refl). Lqa.lra.
    + cbn. Lqa.lra.
Qed.

Lemma night_progress_follows_ramp_witness :
  getNightProgress
    (update 120000
       (history [OpUpdate 50000; OpRecord 60000 60000 "petalClick" 0 0;
                 OpUpdate 100000] (registered 0 0)))
  == night_ramp 0 120000.
Proof.
  apply (night_progress_follows_ramp 0 0
           [OpUpdate 50000; OpRecord 60000 60000 "petalClick" 0 0;
            OpUpdate 100000] 120000).
  repeat constructor; intros c [= <-]; discriminate.
Defined.

(** *** Curiosity needs three distinct types *)

Lemma size_pair_le (a b : string) : (size ({[ a ]} ∪ {[ b ]} : gset string) <= 2)%nat.
Proof.
  rewrite size_union_alt, size_singleton.
  assert (H : (size (({[ b ]} : gset string) ∖ {[ a ]}) <= size ({[ b ]} : gset string))%nat).
  { apply subseteq_size. intros x Hx. apply elem_of_difference in Hx. tauto. }
  rewrite size_singleton in H. lia.
Qed.

Lemma update_inactive now s :
  curiosityActive s = false ->
  curiosityActive (update now s) = false
  /\ interactionTypes (update now s) = interactionTypes s
  /\ count_CuriosityStart (update now s) = count_CuriosityStart s.
Proof.
  intros H. unfold update.
  destruct (StateManagerSpec.stepIdle_fields now s) as (A1 & _ & T1 & _ & C1).
  assert (E : stepCuriosity now (stepIdle now s) = stepIdle now s).
  { unfold stepCuriosity. now rewrite A1, H. }
  rewrite E.
  destruct (StateManagerSpec.stepNightActivate_fields now (stepIdle now s))
    as (A2 & _ & T2 & _ & C2).
  destruct (StateManagerSpec.stepNightProgress_fields now
              (stepNightActivate now (stepIdle now s)))
    as (A3 & _ & T3 & _ & C3).
  rewrite A3, A2, A1, T3, T2, T1, C3, C2, C1. auto.
Qed.

(** X6.  When every recorded interaction carries one of two type names (the
    application records only ['centerClick'] and ['petalClick']), curiosity
    mode is never activated: the flag stays false and [onCuriosityStart]
    is never invoked, whatever the number of interactions. *)
Theorem two_interaction_types_never_activate
    (n1 n2 : Q) (a b : string) (ops : list op) :
  Forall (fun o => forall ty, op_type o = Some ty -> ty = a \/ ty = b) ops ->
  let s := history ops (registered n1 n2) in
  getCuriosityActive s = false
  /\ count_CuriosityStart s = 0%nat
  /\ interactionTypes s ⊆ {[ a ]} ∪ {[ b ]}.
Proof.
  intros Hops. cbv zeta. unfold getCuriosityActive.
  assert (H0 : curiosityActive (registered n1 n2) = false
               /\ count_CuriosityStart (registered n1 n2) = 0%nat
               /\ interactionTypes (registered n1 n2) ⊆ {[ a ]} ∪ {[ b ]}).
  { split; [reflexivity|]. split; [reflexivity|]. cbn.
    apply empty_subseteq. }
  revert H0. generalize (registered n1 n2) as s.
  induction Hops as [|o ops Ho Hops IH]; intros s (HA & HC & HT);
    cbn [history fold_left].
  { auto. }
  apply IH. destruct o as [now now' ty x y|now]; cbn [apply].
  - assert (Hsub : {[ ty ]} ∪ interactionTypes s ⊆ {[ a ]} ∪ {[ b ]}).
    { apply union_least; [|exact HT].
      apply singleton_subseteq_l.
      destruct (Ho ty eq_refl) as [-> | ->];
        [apply elem_of_union_l | apply elem_of_union_r];
        apply elem_of_singleton; reflexivity. }
    assert (Hsz : (size ({[ ty ]} ∪ interactionTypes s) < 3)%nat).
    { pose proof (subseteq_size _ _ Hsub). pose proof (size_pair_le a b).
      lia. }
    destruct (StateManagerSpec.record_below_three now now' ty x y s HA Hsz)
      as (A' & T' & _ & C').
    rewrite A', T', C'. auto.
  - destruct (update_inactive now s HA) as (A' & T' & C').
    rewrite A', T', C'. auto.
Qed.

Lemma two_interaction_types_never_activate_witness :
  let s := history [OpRecord 10 10 "petalClick" 1 1;
                    OpRecord 20 20 "centerClick" 2 2; OpUpdate 30;
                    OpRecord 40 40 "petalClick" 3 3]
             (registered 0 0) in
  getCuriosityActive s = false /\ count_CuriosityStart s = 0%nat.
Proof.
  intros s.
  destruct (two_interaction_types_never_activate 0 0
              "petalClick" "centerClick"
              [OpRecord 10 10 "petalClick" 1 1;
               OpRecord 20 20 "centerClick" 2 2; OpUpdate 30;
               OpRecord 40 40 "petalClick" 3 3]) as (A & C & _).
  - repeat (apply Forall_cons_2; [intros ty [= <-]; auto|]).
    apply Forall_nil_2.
  - split; assumption.
Defined.

(** *** Idle events *)

Lemma idle_flag_app l1 : forall c l2,
  idle_flag c (l1 ++ l2)
  = match idle_flag c l1 with
    | Some c' => idle_flag c' l2
    | None => None
    end.
Proof.
  induction l1 as [|e l1 IH]; intros c l2; [reflexivity|].
  destruct e, c; cbn; auto.
Qed.

Lemma idle_inv_record now now' ty x y s :
  cb_onIdleStart (callbacks s) = true ->
  cb_onIdleEnd (callbacks s) = true ->
  idle_flag false (trace s) = Some (isIdle s) ->
  let s' := recordInteraction now now' ty x y s in
  callbacks s' = callbacks s
  /\ idle_flag false (trace s') = Some (isIdle s').
Proof.
  intros H1 H2 H3. destruct s as [lt idle n ty0 ca ce lx ly ss na np cbs tr].
  cbn in H1, H2, H3.
  unfold recordInteraction, activateCuriosity, track, touch, invoke.
  cbn -[size]. rewrite H2.
  destruct idle; cbn -[size]; split_ifs; cbn;
    rewrite ?idle_flag_app, ?H3; cbn; auto.
Qed.

Lemma idle_inv_stepIdle now s :
  cb_onIdleStart (callbacks s) = true ->
  idle_flag false (trace s) = Some (isIdle s) ->
  callbacks (stepIdle now s) = callbacks s
  /\ idle_flag false (trace (stepIdle now s))
     = Some (isIdle (stepIdle now s)).
Proof.
  intros H1 H3. unfold stepIdle, invoke.
  destruct (isIdle s) eqn:Ei; cbn [negb andb]; [now rewrite Ei|].
  destruct (Qlt_le_dec _ _); cbn; rewrite ?H1; cbn;
    rewrite ?idle_flag_app, ?H3, ?Ei; auto.
Qed.

Lemma idle_inv_stepCuriosity now s :
  idle_flag false (trace s) = Some (isIdle s) ->
  callbacks (stepCuriosity now s) = callbacks s
  /\ idle_flag false (trace (stepCuriosity now s))
     = Some (isIdle (stepCuriosity now s)).
Proof.
  intros H3. unfold stepCuriosity, invoke.
  split_ifs; cbn; rewrite ?idle_flag_app, ?H3; auto.
Qed.

Lemma idle_inv_stepNightActivate now s :
  idle_flag false (trace s) = Some (isIdle s) ->
  callbacks (stepNightActivate now s) = callbacks s
  /\ idle_flag false (trace (stepNightActivate now s))
     = Some (isIdle (stepNightActivate now s)).
Proof.
  intros H3. unfold stepNightActivate, set_night. split_ifs; cbn; auto.
Qed.

Lemma idle_inv_stepNightProgress now s :
  idle_flag false (trace s) = Some (isIdle s) ->
  callbacks (stepNightProgress now s) = callbacks s
  /\ idle_flag false (trace (stepNightProgress now s))
     = Some (isIdle (stepNightProgress now s)).
Proof.
  intros H3. unfold stepNightProgress, set_night, invoke.
  split_ifs; cbn; rewrite ?idle_flag_app, ?H3; auto.
Qed.

Lemma idle_inv_update now s :
  cb_onIdleStart (callbacks s) = true ->
  idle_flag false (trace s) = Some (isIdle s) ->
  callbacks (update now s) = callbacks s
  /\ idle_flag false (trace (update now s)) = Some (isIdle (update now s)).
Proof.
  intros H1 H3. unfold update.
  destruct (idle_inv_stepIdle now s H1 H3) as [C1 F1].
  destruct (idle_inv_stepCuriosity now _ F1) as [C2 F2].
  destruct (idle_inv_stepNightActivate now _ F2) as [C3 F3].
  destruct (idle_inv_stepNightProgress now _ F3) as [C4 F4].
  split; [congruence | exact F4].
Qed.

(** X7.  With the idle callbacks registered, [onIdleStart] and [onIdleEnd]
    are invoked in strict alternation, starting with [onIdleStart], over
    any sequence of [recordInteraction] and [update] calls, and
    [getIsIdle()] is true exactly when the last of them was
    [onIdleStart]. *)
Theorem idle_callbacks_alternate (n1 n2 : Q) (ops : list op) :
  idle_flag false (trace (history ops (registered n1 n2)))
  = Some (getIsIdle (history ops (registered n1 n2))).
Proof.
  unfold getIsIdle.
  assert (H0 : cb_onIdleStart (callbacks (registered n1 n2)) = true
               /\ cb_onIdleEnd (callbacks (registered n1 n2)) = true
               /\ idle_flag false (trace (registered n1 n2))
                  = Some (isIdle (registered n1 n2))).
  { repeat split. }
  revert H0. generalize (registered n1 n2) as s.
  induction ops as [|o ops IH]; intros s (H1 & H2 & H3);
    cbn [history fold_left].
  { exact H3. }
  apply IH. destruct o as [now now' ty x y|now]; cbn [apply].
  - destruct (idle_inv_record now now' ty x y s H1 H2 H3) as [C F].
    rewrite C. auto.
  - destruct (idle_inv_update now s H1 H3) as [C F].
    rewrite C. auto.
Qed.

End StateManagerHistorySpec.

Module UtilsSpec.
Import JSMathFacts.
Local Open Scope R_scope.

(** X8.  [Utils.clamp] returns a value between the bounds when they are in
    order, returns the value itself when it already lies between them, and
    is idempotent; with the bounds out of order ([max < min]) it returns
    [min] whatever the value. *)
Theorem clamp_bounds (value min max : R) :
  (min <= max ->
   min <= Utils.clamp value min max <= max
   /\ (min <= value <= max -> Utils.clamp value min max = value)
   /\ (value < min -> Utils.clamp value min max = min)
   /\ (max < value -> Utils.clamp value min max = max)
   /\ Utils.clamp (Utils.clamp value min max) min max
      = Utils.clamp value min max)
  /\ (max < min -> Utils.clamp value min max = min).
Proof.
  unfold Utils.clamp. split.
  - intros Hmm.
    assert (A : min <= Rmax min (Rmin max value) <= max).
    { split; [apply Rmax_l|].
      apply Rmax_lub; [exact Hmm | apply Rmin_l]. }
    split; [exact A|]. split; [|split; [|split]].
    + intros [H1 H2]. rewrite (Rmin_right max value H2).
      apply Rmax_right, H1.
    + intros H. rewrite (Rmin_right max value) by lra.
      apply Rmax_left. lra.
    + intros H. rewrite (Rmin_left max value) by lra.
      apply Rmax_right, Hmm.
    + destruct A as [A1 A2].
      rewrite (Rmin_right max (Rmax min (Rmin max value)) A2).
      apply Rmax_right, A1.
  - intros H. apply Rmax_left.
    pose proof (Rmin_l max value). lra.
Qed.

Lemma clamp_bounds_witness :
  0 <= Utils.clamp 7 0 5 <= 5 /\ Utils.clamp 3 5 0 = 5.
Proof.
  destruct (clamp_bounds 7 0 5) as [H _].
  destruct (clamp_bounds 3 5 0) as [_ H'].
  split; [apply H; lra | apply H'; lra].
Defined.

(** X9.  For a draw [u] of [Math.random()] in [0, 1): [Utils.randomRange]
    lies in [min, max) and [Utils.randomInt] is an integer in
    [min, max], both bounds included. *)
Theorem random_helpers_in_range (u : R) :
  0 <= u < 1 ->
  (forall min max : R,
     min < max ->
     min <= Utils.randomRange u min max < max)
  /\ (forall min : R, Utils.randomRange u min min = min)
  /\ (forall min max : Z,
        (min <= max)%Z ->
        (min <= Utils.randomInt u min max <= max)%Z).
Proof.
  intros [H0 H1]. split; [|split].
  - intros min max Hmm. unfold Utils.randomRange. split; nra.
  - intros min. unfold Utils.randomRange. ring.
  - intros min max Hmm. unfold Utils.randomInt, JSMath.floor.
    set (n := (max - min + 1)%Z).
    assert (Hn : 1 <= IZR n) by (apply IZR_le; unfold n; lia).
    assert (Hlo : (0 <= Zfloor (u * IZR n))%Z).
    { apply Zfloor_lub. simpl. nra. }
    assert (Hhi : (Zfloor (u * IZR n) < n)%Z).
    { apply lt_IZR. destruct (Zfloor_bound (u * IZR n)) as [B _]. nra. }
    unfold n in *. lia.
Qed.

Lemma random_helpers_in_range_witness :
  0.88 <= Utils.randomRange 0.5 0.88 1.12 < 1.12
  /\ (0 <= Utils.randomInt 0.5 0 5 <= 5)%Z.
Proof.
  destruct (random_helpers_in_range 0.5) as (A & _ & B); [lra|].
  split; [apply A; lra | apply B; lia].
Defined.

(** X10.  [Utils.normalize] keeps the direction and sets the length to 1: a
    vector other than (0, 0) is the product of its length and its
    normalized vector, which has length 1 and is left unchanged by
    normalizing again; the zero vector is returned as it is (the
    [|| 1] fallback). *)
Theorem normalize_direction (x y : R) :
  Utils.normalize 0 0 = {| vx := 0; vy := 0 |}
  /\ (x <> 0 \/ y <> 0 ->
      let n := Utils.normalize x y in
      JSMath.hypot (vx n) (vy n) = 1
      /\ x = JSMath.hypot x y * vx n
      /\ y = JSMath.hypot x y * vy n
      /\ Utils.normalize (vx n) (vy n) = n).
Proof.
  split.
  - unfold Utils.normalize. rewrite hypot_zero.
    destruct (Req_dec_T 0 0) as [_|N]; [|now destruct N].
    f_equal; lra.
  - intros Hxy n.
    assert (U : JSMath.hypot (vx n) (vy n) = 1)
      by (apply normalize_unit, Hxy).
    assert (Hh : JSMath.hypot x y <> 0).
    { intros E. apply hypot_eq_0 in E. destruct E, Hxy; contradiction. }
    assert (En : n = {| vx := x / JSMath.hypot x y;
                        vy := y / JSMath.hypot x y |}).
    { unfold n, Utils.normalize.
      destruct (Req_dec_T (JSMath.hypot x y) 0); [contradiction|].
      reflexivity. }
    split; [exact U|]. split; [|split].
    + rewrite En. cbn. field. exact Hh.
    + rewrite En. cbn. field. exact Hh.
    + unfold Utils.normalize at 1. rewrite U.
      destruct (Req_dec_T 1 0) as [E|_]; [lra|].
      destruct n as [a b]. cbn. f_equal; field.
Qed.

Lemma normalize_direction_witness :
  JSMath.hypot (vx (Utils.normalize 3 4)) (vy (Utils.normalize 3 4)) = 1.
Proof.
  destruct (normalize_direction 3 4) as [_ H].
  destruct H as (U & _); [left; lra | exact U].
Defined.

(** X11.  The linear helpers invert each other: degrees to radians and back,
    [mapRange] from one interval to another and back, and [lerp] read
    back by [mapRange]; [mapRange] sends the ends of the input interval
    to the ends of the output interval. *)
Theorem linear_helpers_round_trip
    (v inMin inMax outMin outMax : R) :
  Utils.radToDeg (Utils.degToRad v) = v
  /\ Utils.degToRad (Utils.radToDeg v) = v
  /\ Utils.degToRad 180 = PI
  /\ (inMin <> inMax ->
      Utils.mapRange inMin inMin inMax outMin outMax = outMin
      /\ Utils.mapRange inMax inMin inMax outMin outMax = outMax
      /\ Utils.mapRange (Utils.lerp inMin inMax v) inMin inMax 0 1 = v
      /\ (outMin <> outMax ->
          Utils.mapRange (Utils.mapRange v inMin inMax outMin outMax)
            outMin outMax inMin inMax = v)).
Proof.
  pose proof PI_neq0 as HP.
  unfold Utils.radToDeg, Utils.degToRad, Utils.mapRange, Utils.lerp.
  split; [field; exact HP|]. split; [field; exact HP|].
  split; [field|].
  intros Hin. assert (inMax - inMin <> 0) by lra.
  split; [field; assumption|]. split; [field; assumption|].
  split; [field; assumption|].
  intros Hout. assert (outMax - outMin <> 0) by lra.
  field. split; assumption.
Qed.

(** X12.  [Utils.distance] is symmetric and non-negative, vanishes exactly
    between equal points, and is the length of the difference vector. *)
Theorem distance_properties (x1 y1 x2 y2 : R) :
  0 <= Utils.distance x1 y1 x2 y2
  /\ Utils.distance x1 y1 x2 y2 = Utils.distance x2 y2 x1 y1
  /\ (Utils.distance x1 y1 x2 y2 = 0 <-> x1 = x2 /\ y1 = y2)
  /\ Utils.distance x1 y1 x2 y2 * Utils.distance x1 y1 x2 y2
     = (x2 - x1) * (x2 - x1) + (y2 - y1) * (y2 - y1).
Proof.
  unfold Utils.distance. split; [apply hypot_nonneg|].
  split; [|split].
  - unfold JSMath.hypot. f_equal. ring.
  - split.
    + intros E. apply hypot_eq_0 in E. destruct E. split; lra.
    + intros [-> ->]. replace (x2 - x2) with 0 by ring.
      replace (y2 - y2) with 0 by ring. apply hypot_zero.
  - unfold JSMath.hypot. apply sqrt_sqrt.
    apply Rplus_le_le_0_compat; apply Rle_0_sqr.
Qed.

End UtilsSpec.

Module WindFieldFieldSpec.
Import WindField JSMathFacts WindFieldSpec.
Local Open Scope R_scope.

(** *** Polar coordinates *)

Lemma atan2_range y x : - PI < JSMath.atan2 y x <= PI.
Proof.
  pose proof PI_RGT_0 as HP.
  unfold JSMath.atan2.
  destruct (Rlt_dec 0 x) as [Hx|Hx].
  { pose proof (atan_bound (y / x)). lra. }
  destruct (Rlt_dec x 0) as [Hx'|Hx'].
  - pose proof (atan_bound (y / x)) as Hb.
    assert (Hinv : / x < 0) by (apply Rinv_lt_0_compat, Hx').
    destruct (Rle_dec 0 y) as [Hy|Hy].
    + assert (Hq : y / x <= 0) by (unfold Rdiv; nra).
      assert (atan (y / x) <= 0).
      { destruct Hq as [Hq|Hq].
        - left. rewrite <- atan_0. apply atan_increasing, Hq.
        - rewrite Hq, atan_0. lra. }
      lra.
    + assert (Hq : 0 < y / x) by (unfold Rdiv; nra).
      assert (0 < atan (y / x)).
      { rewrite <- atan_0. apply atan_increasing, Hq. }
      lra.
  - destruct (Rlt_dec 0 y); [lra|]. destruct (Rlt_dec y 0); lra.
Qed.

Lemma hypot_factor x y :
  x <> 0 -> JSMath.hypot x y = Rabs x * sqrt (1 + (y / x)²).
Proof.
  intros Hx. unfold JSMath.hypot.
  replace (x * x + y * y) with (x² * (1 + (y / x)²))
    by (unfold Rsqr; field; exact Hx).
  rewrite sqrt_mult.
  - now rewrite sqrt_Rsqr_abs.
  - apply Rle_0_sqr.
  - pose proof (Rle_0_sqr (y / x)). lra.
Qed.

Lemma sqrt_one_plus_sqr_pos t : 0 < sqrt (1 + t²).
Proof. apply sqrt_lt_R0. pose proof (Rle_0_sqr t). lra. Qed.

Lemma atan2_polar_inverse x y :
  x = JSMath.hypot x y * cos (JSMath.atan2 y x)
  /\ y = JSMath.hypot x y * sin (JSMath.atan2 y x).
Proof.
  unfold JSMath.atan2.
  destruct (Rlt_dec 0 x) as [Hx|Hx].
  { rewrite hypot_factor by lra. rewrite cos_atan, sin_atan.
    rewrite (Rabs_right x) by lra.
    pose proof (sqrt_one_plus_sqr_pos (y / x)).
    split; field; lra. }
  destruct (Rlt_dec x 0) as [Hx'|Hx'].
  - pose proof (sqrt_one_plus_sqr_pos (y / x)).
    destruct (Rle_dec 0 y) as [Hy|Hy].
    + rewrite hypot_factor by lra.
      rewrite (Rabs_left x) by lra.
      rewrite neg_cos, neg_sin, cos_atan, sin_atan.
      split; field; lra.
    + rewrite hypot_factor by lra.
      rewrite (Rabs_left x) by lra.
      replace (atan (y / x) - PI) with (- (PI - atan (y / x))) by ring.
      rewrite cos_neg, sin_neg.
      replace (PI - atan (y / x)) with (- atan (y / x) + PI) by ring.
      rewrite neg_cos, neg_sin, cos_neg, sin_neg, cos_atan, sin_atan.
      split; field; lra.
  - assert (E : x = 0) by lra. subst x.
    unfold JSMath.hypot. replace (0 * 0 + y * y) with (y²)
      by (unfold Rsqr; ring).
    rewrite sqrt_Rsqr_abs.
    destruct (Rlt_dec 0 y) as [Hy|Hy].
    { rewrite cos_PI2, sin_PI2, (Rabs_right y) by lra. split; ring. }
    destruct (Rlt_dec y 0) as [Hy'|Hy'].
    { rewrite cos_neg, sin_neg, cos_PI2, sin_PI2, (Rabs_left y) by lra.
      split; ring. }
    assert (E : y = 0) by lra. subst y.
    rewrite Rabs_R0. split; ring.
Qed.

(** X13.  [getStrength()] and [getDirection()] are polar coordinates of the
    current wind: the direction lies in (-PI, PI], the strength is
    non-negative, and the wind vector is the strength times the unit vector
    of the direction.  With no wind at all the direction is 0. *)
Theorem wind_strength_direction_polar (w : t) :
  - PI < getDirection w <= PI
  /\ 0 <= getStrength w
  /\ vx (currentWind w) = getStrength w * cos (getDirection w)
  /\ vy (currentWind w) = getStrength w * sin (getDirection w)
  /\ (vx (currentWind w) = 0 -> vy (currentWind w) = 0 ->
      getStrength w = 0 /\ getDirection w = 0).
Proof.
  unfold getDirection, getStrength.
  split; [apply atan2_range|]. split; [apply hypot_nonneg|].
  destruct (atan2_polar_inverse (vx (currentWind w)) (vy (currentWind w)))
    as [Hx Hy].
  split; [exact Hx|]. split; [exact Hy|].
  intros -> ->. split; [apply hypot_zero|].
  unfold JSMath.atan2.
  destruct (Rlt_dec 0 0); [lra|]. reflexivity.
Qed.

(** *** The permutation table *)

Lemma swap_perm i j (p : list Z) : swap i j p ≡ₚ p.
Proof.
  unfold swap. destruct (p !! i) as [a|] eqn:Ei; [|reflexivity].
  destruct (p !! j) as [b|] eqn:Ej; [|reflexivity].
  apply Permutation_insert_swap; assumption.
Qed.

Lemma shuffle_perm rand n : forall p : list Z, shuffle rand n p ≡ₚ p.
Proof.
  induction n as [|n IH]; intros p; [reflexivity|].
  cbn [shuffle]. rewrite IH. apply swap_perm.
Qed.

Lemma partner_index_bound (u : R) (i : nat) :
  0 <= u < 1 -> (Z.to_nat (JSMath.floor (u * INR (i + 1))) <= i)%nat.
Proof.
  intros [H0 H1]. unfold JSMath.floor.
  assert (Hn : 1 <= INR (i + 1)).
  { rewrite plus_INR. pose proof (pos_INR i). simpl. lra. }
  assert (Hlt : (Zfloor (u * INR (i + 1)) < Z.of_nat (i + 1))%Z).
  { apply lt_IZR. rewrite <- INR_IZR_INZ.
    destruct (Zfloor_bound (u * INR (i + 1))) as [B _]. nra. }
  lia.
Qed.

(** X14.  [generatePermutation] returns a table of 512 entries whose first
    half is a permutation of 0..255 (no value lost or repeated by the
    shuffle) and whose second half repeats the first; each partner index
    drawn by the shuffle lies at or below the index it is exchanged
    with. *)
Theorem permutation_table_shape (rand : nat -> R) :
  (forall i : nat, 0 <= rand i < 1) ->
  let p := generatePermutation rand in
  length p = 512%nat
  /\ take 256 p ≡ₚ Z.of_nat <$> seq 0 256
  /\ drop 256 p = take 256 p
  /\ NoDup (take 256 p)
  /\ (forall (i : nat) (v : Z), p !! i = Some v -> (0 <= v < 256)%Z)
  /\ (forall i : nat,
        (Z.to_nat (JSMath.floor (rand i * INR (i + 1))) <= i)%nat).
Proof.
  intros Hrand p.
  set (p0 := List.map Z.of_nat (seq 0 256)).
  set (p1 := shuffle rand 255 p0).
  assert (Hp : p = p1 ++ p1) by reflexivity.
  assert (Hperm : p1 ≡ₚ p0) by apply shuffle_perm.
  assert (Hlen : length p1 = 256%nat).
  { rewrite Hperm. unfold p0. now rewrite length_map, length_seq. }
  assert (Htake : take 256 p = p1).
  { rewrite Hp, <- Hlen. apply take_app_length. }
  assert (Hdrop : drop 256 p = p1).
  { rewrite Hp, <- Hlen. apply drop_app_length. }
  assert (Hval : forall v, v ∈ p1 -> (0 <= v < 256)%Z).
  { intros v Hv. rewrite Hperm in Hv. unfold p0 in Hv.
    apply list_elem_of_In, in_map_iff in Hv as (n & <- & Hn).
    apply in_seq in Hn. lia. }
  split; [rewrite Hp, length_app, Hlen; reflexivity|].
  split; [rewrite Htake; exact Hperm|].
  split; [congruence|].
  split.
  { rewrite Htake, Hperm. unfold p0.
    change (NoDup (Z.of_nat <$> seq 0 256)).
    apply (NoDup_fmap_2 Z.of_nat), NoDup_seq. }
  split.
  { intros i v Hi. apply Hval. rewrite Hp in Hi.
    apply list_elem_of_lookup_2 in Hi.
    apply elem_of_app in Hi. tauto. }
  intros i. apply partner_index_bound, Hrand.
Qed.

Lemma permutation_table_shape_witness :
  length (generatePermutation (fun _ => 0)) = 512%nat.
Proof.
  destruct (permutation_table_shape (fun _ => 0)) as [H _].
  - intros _. lra.
  - exact H.
Defined.

(** *** Noise *)

Lemma fade_range t : 0 <= t <= 1 -> 0 <= fade t <= 1.
Proof.
  intros [H0 H1]. unfold fade.
  assert (A : 0 <= t * t * t).
  { apply Rmult_le_pos; [apply Rmult_le_pos|]; assumption. }
  assert (B : 0 <= t * (t * 6 - 15) + 10) by nra.
  split; [apply Rmult_le_pos; assumption|].
  assert (C : 0 <= (1 - t) * (1 - t) * (1 - t)).
  { apply Rmult_le_pos; [apply Rmult_le_pos|]; lra. }
  assert (D : 0 <= 6 * (t * t) + 3 * t + 1) by nra.
  pose proof (Rmult_le_pos _ _ C D) as E.
  replace (t * t * t * (t * (t * 6 - 15) + 10))
    with (1 - (1 - t) * (1 - t) * (1 - t) * (6 * (t * t) + 3 * t + 1))
    by ring.
  lra.
Qed.

Lemma Rabs_le_between a b : Rabs a <= b -> - b <= a <= b.
Proof. unfold Rabs. destruct (Rcase_abs a); lra. Qed.

Lemma grad_bound hash a b : Rabs (grad hash a b) <= Rabs a + Rabs b.
Proof.
  unfold grad. cbv zeta.
  destruct (Z.land hash 3 <? 2)%Z;
    destruct (Z.land (Z.land hash 3) 1 =? 0)%Z;
    destruct (Z.land (Z.land hash 3) 2 =? 0)%Z;
    unfold Rabs; repeat destruct (Rcase_abs _); lra.
Qed.

Lemma lerp_bound a b u M :
  0 <= u <= 1 -> Rabs a <= M -> Rabs b <= M -> Rabs (Utils.lerp a b u) <= M.
Proof.
  intros [H0 H1] Ha Hb. unfold Utils.lerp.
  apply Rabs_le. apply Rabs_le_between in Ha, Hb. split; nra.
Qed.

Lemma noise_bound w x y : Rabs (noise w x y) <= 2.
Proof.
  unfold noise. cbv zeta. unfold JSMath.floor.
  destruct (Zfloor_bound x) as [X0 X1]. destruct (Zfloor_bound y) as [Y0 Y1].
  set (fx := x - IZR (Zfloor x)). set (fy := y - IZR (Zfloor y)).
  assert (Hfx : 0 <= fx <= 1) by (unfold fx; lra).
  assert (Hfy : 0 <= fy <= 1) by (unfold fy; lra).
  assert (G : forall h a b, Rabs a <= 1 -> Rabs b <= 1 ->
                            Rabs (grad h a b) <= 2).
  { intros h a b Ha Hb. pose proof (grad_bound h a b). lra. }
  assert (A1 : Rabs fx <= 1) by (apply Rabs_le; lra).
  assert (A2 : Rabs (fx - 1) <= 1) by (apply Rabs_le; lra).
  assert (B1 : Rabs fy <= 1) by (apply Rabs_le; lra).
  assert (B2 : Rabs (fy - 1) <= 1) by (apply Rabs_le; lra).
  apply lerp_bound; [apply fade_range, Hfy | |];
    (apply lerp_bound; [apply fade_range, Hfx | |]); apply G; assumption.
Qed.

Lemma update_baseWind dt cx cy w :
  baseWind (update dt cx cy w) = baseWind (stepNoise dt w).
Proof.
  unfold update, stepCombine. cbn [baseWind].
  unfold stepGust. set (w1 := stepNoise dt w).
  assert (E : baseWind (stepCursor cx cy w1) = baseWind w1).
  { unfold stepCursor. destruct cx, cy; reflexivity. }
  destruct (gustActive _); [|exact E].
  destruct (Rle_dec _ _); cbn [set_gust baseWind]; exact E.
Qed.

(** X15.  The noise function is bounded by 2 in absolute value, whatever the
    permutation table holds.  So after every [update] the base wind is
    within [2 * windBaseStrength] horizontally and 0.3 times that
    vertically, and [getWindAt] differs from the current wind by at most
    0.2 horizontally and 0.1 vertically. *)
Theorem noise_and_base_wind_bounded
    (w : t) (x y deltaTime : R) (cursorX cursorY : option R) :
  Rabs (noise w x y) <= 2
  /\ Rabs (vx (baseWind (update deltaTime cursorX cursorY w)))
     <= 2 * PHYSICS.windBaseStrength
  /\ Rabs (vy (baseWind (update deltaTime cursorX cursorY w)))
     <= 2 * PHYSICS.windBaseStrength * 0.3
  /\ Rabs (vx (getWindAt x y w) - vx (currentWind w)) <= 0.2
  /\ Rabs (vy (getWindAt x y w) - vy (currentWind w)) <= 0.1.
Proof.
  split; [apply noise_bound|].
  rewrite update_baseWind. unfold stepNoise, getWindAt. cbn [baseWind vx vy].
  unfold PHYSICS.windBaseStrength.
  repeat split;
    match goal with
    | |- context [noise ?w' ?a ?b] =>
        let H := fresh in
        pose proof (noise_bound w' a b) as H;
        apply Rabs_le_between in H; apply Rabs_le; lra
    end.
Qed.

(** *** Lifetime of a gust *)

Lemma updates_app calls more w :
  updates (calls ++ more) w = updates more (updates calls w).
Proof. apply fold_left_app. Qed.

Lemma updates_cons c calls w :
  updates (c :: calls) w
  = updates calls (update (fst c) (fst (snd c)) (snd (snd c)) w).
Proof. reflexivity. Qed.

Lemma elapsed_cons c calls : elapsed (c :: calls) = fst c + elapsed calls.
Proof. reflexivity. Qed.

Lemma elapsed_nonneg calls :
  Forall (fun c => 0 <= fst c) calls -> 0 <= elapsed calls.
Proof.
  induction 1 as [|c l Hc _ IH]; [cbn; lra|].
  rewrite elapsed_cons. lra.
Qed.

Lemma update_gust_fields dt cx cy w :
  gustDuration (update dt cx cy w) = gustDuration w
  /\ gustDirection (update dt cx cy w) = gustDirection w.
Proof.
  destruct (pre_gust_fields dt cx cy w) as (A & P & D & V).
  unfold update, stepCombine. cbn [gustDuration gustDirection].
  unfold stepGust.
  destruct (gustActive _); [|auto].
  destruct (Rle_dec _ _); cbn [set_gust gustDuration gustDirection]; auto.
Qed.

Lemma update_no_gust dt cx cy w :
  gustActive w = false ->
  gustActive (update dt cx cy w) = false
  /\ gustWind (update dt cx cy w) = gustWind w
  /\ gustProgress (update dt cx cy w) = gustProgress w.
Proof.
  intros H. destruct (pre_gust_fields dt cx cy w) as (A & P & D & V).
  unfold update, stepCombine. cbn [gustActive gustWind gustProgress].
  unfold stepGust. rewrite A, H.
  assert (G : gustWind (stepCursor cx cy (stepNoise dt w)) = gustWind w).
  { unfold stepCursor. destruct cx, cy; reflexivity. }
  rewrite A, H, G, P. auto.
Qed.

Lemma updates_no_gust calls : forall w,
  gustActive w = false ->
  gustActive (updates calls w) = false
  /\ gustWind (updates calls w) = gustWind w.
Proof.
  induction calls as [|c calls IH]; intros w H; [auto|].
  rewrite updates_cons.
  destruct (update_no_gust (fst c) (fst (snd c)) (snd (snd c)) w H)
    as (A & G & _).
  destruct (IH _ A) as [A' G'].
  split; [exact A' | congruence].
Qed.

Lemma updates_gust_running calls : forall w,
  0 < gustDuration w ->
  gustActive w = true ->
  Forall (fun c => 0 <= fst c) calls ->
  gustProgress w + elapsed calls / gustDuration w < 1 ->
  gustActive (updates calls w) = true
  /\ gustProgress (updates calls w)
     = gustProgress w + elapsed calls / gustDuration w
  /\ gustDuration (updates calls w) = gustDuration w
  /\ gustDirection (updates calls w) = gustDirection w.
Proof.
  induction calls as [|c calls IH]; intros w HD HA Hpos Hlt.
  { cbn. repeat split; auto. lra. }
  inversion Hpos as [|? ? Hc Hrest]; subst.
  rewrite updates_cons. rewrite elapsed_cons in *.
  set (dt := fst c) in *.
  pose proof (elapsed_nonneg calls Hrest) as He.
  assert (Hq : 0 <= elapsed calls / gustDuration w).
  { apply Rmult_le_pos; [exact He|]. left. apply Rinv_0_lt_compat, HD. }
  assert (Hsplit : (dt + elapsed calls) / gustDuration w
                   = dt / gustDuration w + elapsed calls / gustDuration w)
    by (field; lra).
  rewrite Hsplit in Hlt.
  destruct (update_gust dt (fst (snd c)) (snd (snd c)) w HA) as [_ Hrun].
  destruct Hrun as (A1 & P1 & D1 & _); [lra|].
  destruct (update_gust_fields dt (fst (snd c)) (snd (snd c)) w)
    as [Du Di].
  set (w1 := update dt (fst (snd c)) (snd (snd c)) w) in *.
  destruct (IH w1) as (A2 & P2 & D2 & Di2); try assumption.
  - rewrite Du. exact HD.
  - rewrite P1, Du. lra.
  - rewrite A2, P2, D2, Di2, P1, Du, Di, Hsplit.
    repeat split; auto. ring.
Qed.

(** X16.  A gust triggered with a positive duration stays active, with
    progress equal to the frame time elapsed since the trigger divided by
    the duration, as long as that elapsed time is below the duration; the
    [update] at which the elapsed time reaches the duration switches the
    gust off, resets its progress and clears the gust wind, and later
    updates leave it off. *)
Theorem gust_lasts_for_its_duration
    (w : t) (direction : Vec2) (duration : R)
    (calls more : list (R * (option R * option R)))
    (dt : R) (cx cy : option R) :
  0 < duration ->
  Forall (fun c => 0 <= fst c) calls ->
  elapsed calls < duration ->
  let w1 := updates calls (triggerGust direction duration w) in
  gustActive w1 = true
  /\ gustProgress w1 = elapsed calls / duration
  /\ (duration <= elapsed calls + dt ->
      let w2 := update dt cx cy w1 in
      gustActive w2 = false /\ gustProgress w2 = 0
      /\ gustWind w2 = {| vx := 0; vy := 0 |}
      /\ gustActive (updates more w2) = false
      /\ gustWind (updates more w2) = {| vx := 0; vy := 0 |}).
Proof.
  intros HD Hpos Hlt w1. subst w1.
  set (w0 := triggerGust direction duration w).
  assert (Hfrac : elapsed calls / duration < 1).
  { apply Rmult_lt_reg_r with duration; [exact HD|].
    unfold Rdiv. rewrite Rmult_assoc, Rinv_l by lra. lra. }
  assert (Hrun : gustProgress w0 + elapsed calls / gustDuration w0 < 1).
  { cbn [w0 triggerGust gustProgress gustDuration]. lra. }
  destruct (updates_gust_running calls w0 HD eq_refl Hpos Hrun)
    as (A & P & D & _).
  cbn [w0 triggerGust gustProgress gustDuration] in P, D.
  set (w1 := updates calls w0) in *.
  split; [exact A|]. split; [rewrite P; ring|].
  intros Hend w2. subst w2.
  destruct (update_gust dt cx cy w1 A) as [Hstop _].
  destruct Hstop as (A2 & P2 & G2).
  { rewrite P, D. rewrite Rplus_0_l.
    replace (elapsed calls / duration + dt / duration)
      with ((elapsed calls + dt) / duration) by (field; lra).
    apply Rmult_le_reg_r with duration; [exact HD|].
    unfold Rdiv. rewrite Rmult_assoc, Rinv_l by lra. lra. }
  destruct (updates_no_gust more _ A2) as [A3 G3].
  repeat split; auto. congruence.
Qed.

Lemma gust_lasts_for_its_duration_witness :
  let w0 := triggerGust {| vx := 1; vy := 0 |} 2000
              (new 800 600 (fun _ => 0)) in
  let w1 := updates [(600, (None, None)); (900, (Some 10, Some 20))] w0 in
  gustActive w1 = true
  /\ gustProgress w1
     = elapsed [(600, (None, None)); (900, (Some 10, Some 20))] / 2000
  /\ gustActive (update 500 None None w1) = false.
Proof.
  intros w0 w1.
  destruct (gust_lasts_for_its_duration (new 800 600 (fun _ => 0))
              {| vx := 1; vy := 0 |} 2000
              [(600, (None, None)); (900, (Some 10, Some 20))] []
              500 None None) as (A & P & H).
  - lra.
  - repeat (apply Forall_cons_2; [cbn; lra|]). apply Forall_nil_2.
  - cbn. lra.
  - split; [exact A|]. split; [exact P|].
    destruct H as (A2 & _); [cbn; lra | exact A2].
Defined.

End WindFieldFieldSpec.

Module PetalStateSpec.
Import Petal.
Local Open Scope R_scope.

Lemma petal_history_cons o ops p :
  history (o :: ops) p = history ops (apply o p).
Proof. reflexivity. Qed.

(** *** Bloom *)

Lemma apply_bloom o p :
  visible (apply o p) = visible p || is_show o
  /\ bloomProgress (apply o p)
     = match o with
       | OpUpdate deltaTime _ _ =>
           if visible p
           then if Rlt_dec (bloomProgress p) 1
                then Rmin 1 (bloomProgress p + deltaTime * 0.001 * 0.8)
                else bloomProgress p
           else bloomProgress p
       | _ => bloomProgress p
       end.
Proof.
  destruct o; cbn [apply is_show]; rewrite ?orb_false_r, ?orb_true_r;
    try (split; reflexivity).
  - destruct hovered; split; reflexivity.
  - unfold update. destruct (visible p) eqn:E; cbn [negb].
    + unfold updateVisible. cbn [visible bloomProgress]. auto.
    + rewrite E. auto.
Qed.

Lemma Rmin_one_add b a c :
  0 <= a -> 0 <= c -> Rmin 1 (Rmin 1 (b + a) + c) = Rmin 1 (b + a + c).
Proof.
  intros Ha Hc. unfold Rmin.
  repeat destruct (Rle_dec _ _); lra.
Qed.

Lemma history_bloom ops : forall p,
  0 <= bloomProgress p <= 1 ->
  Forall frame_nonneg ops ->
  0 <= visibleTime (visible p) ops
  /\ bloomProgress (history ops p)
     = Rmin 1 (bloomProgress p + visibleTime (visible p) ops * 0.001 * 0.8)
  /\ visible (history ops p) = visible p || existsb is_show ops.
Proof.
  induction ops as [|o ops IH]; intros p Hb Hf.
  { cbn. rewrite orb_false_r, Rmin_right by lra.
    repeat split; [lra | f_equal; ring]. }
  inversion Hf as [|? ? Ho Hrest]; subst.
  rewrite petal_history_cons.
  destruct (apply_bloom o p) as [Hv Hp].
  assert (Hb' : 0 <= bloomProgress (apply o p) <= 1).
  { rewrite Hp. destruct o; try exact Hb.
    destruct (visible p); [|exact Hb].
    destruct (Rlt_dec _ _); [|exact Hb].
    cbn in Ho. split; [apply Rmin_glb; lra | apply Rmin_l]. }
  destruct (IH (apply o p) Hb' Hrest) as (T & B & V).
  rewrite B, V, Hv, Hp. clear B V Hp.
  rewrite Hv in T.
  destruct o; cbn [is_show visibleTime existsb orb] in *;
    rewrite ?orb_false_r in *; try (split; [exact T | split; reflexivity]).
  - (* show *)
    rewrite ?orb_true_r in *. split; [exact T|]. split; reflexivity.
  - (* update *)
    cbn [frame_nonneg] in Ho.
    destruct (visible p) eqn:Ev; cbn [orb] in *.
    + split; [lra|]. split; [|reflexivity].
      destruct (Rlt_dec (bloomProgress p) 1) as [L|L].
      * rewrite Rmin_one_add by lra. f_equal. ring.
      * assert (E1 : bloomProgress p = 1) by lra. rewrite E1.
        rewrite !Rmin_left by lra. reflexivity.
    + split; [lra|]. split; [f_equal; ring | reflexivity].
Qed.

(** X17.  The bloom progress of a petal is a function of the frame time it has
    been updated with while visible: [min(1, 0.8 * seconds)], so it lies
    in [0, 1], never decreases, and is 1 once 1250 ms of visible frame time
    have passed; the petal is visible exactly when its bloom timer has
    run. *)
Theorem bloom_progress_closed_form
    (index total : nat) (cx cy radius : R) (u : nat -> R)
    (ops more : list op) :
  Forall frame_nonneg ops -> Forall frame_nonneg more ->
  let p := history ops (new index total cx cy radius u) in
  bloomProgress p = Rmin 1 (visibleTime false ops * 0.001 * 0.8)
  /\ visible p = existsb is_show ops
  /\ 0 <= bloomProgress p <= 1
  /\ (1250 <= visibleTime false ops -> bloomProgress p = 1)
  /\ bloomProgress p <= bloomProgress (history more p).
Proof.
  intros Hf Hm p.
  destruct (history_bloom ops (new index total cx cy radius u)) as (T & B & V);
    [cbn; lra | exact Hf |].
  cbn [new visible bloomProgress orb] in T, B, V.
  rewrite Rplus_0_l in B. fold p in B, V.
  assert (Hr : 0 <= bloomProgress p <= 1).
  { rewrite B. split; [apply Rmin_glb; lra | apply Rmin_l]. }
  split; [exact B|]. split; [exact V|]. split; [exact Hr|]. split.
  - intros H. rewrite B. apply Rmin_left. lra.
  - destruct (history_bloom more p Hr Hm) as (T' & B' & _).
    rewrite B'. apply Rmin_glb; lra.
Qed.

Lemma bloom_progress_closed_form_witness :
  let p := history [OpUpdate 16 {| vx := 0; vy := 0 |} 0; OpShow;
                    OpUpdate 500 {| vx := 0; vy := 0 |} 500;
                    OpUpdate 800 {| vx := 0; vy := 0 |} 1300]
             (new 0 36 0 0 100 (fun _ => 0)) in
  bloomProgress p = 1 /\ visible p = true.
Proof.
  intros p.
  destruct (bloom_progress_closed_form 0 36 0 0 100 (fun _ => 0)
              [OpUpdate 16 {| vx := 0; vy := 0 |} 0; OpShow;
               OpUpdate 500 {| vx := 0; vy := 0 |} 500;
               OpUpdate 800 {| vx := 0; vy := 0 |} 1300] [])
    as (_ & V & _ & F & _).
  - repeat (apply Forall_cons_2; [cbn; lra || exact I|]). apply Forall_nil_2.
  - apply Forall_nil_2.
  - split; [apply F; cbn; lra | exact V].
Defined.

(** *** Glow *)

Lemma apply_glow o p :
  isHovered (apply o p)
  = match o with OpSetHovered h _ => h | _ => isHovered p end
  /\ glowIntensity (apply o p)
     = match o with
       | OpUpdate _ _ _ =>
           if visible p
           then glowIntensity p
                + ((if isHovered p then 0.7 else 0) - glowIntensity p) * 0.08
           else glowIntensity p
       | _ => glowIntensity p
       end.
Proof.
  destruct o; cbn [apply]; try (split; reflexivity).
  - destruct hovered; split; reflexivity.
  - unfold update. destruct (visible p) eqn:E; cbn [negb]; [|auto].
    unfold updateVisible. cbn [glowIntensity isHovered]. auto.
Qed.

(** X18.  The glow intensity of a petal stays in [0, 0.7] over every
    history; each update of a visible petal moves it 8% of the way to
    its target, 0.7 while hovered and 0 otherwise. *)
Theorem glow_intensity_bounded
    (index total : nat) (cx cy radius : R) (u : nat -> R) (ops : list op)
    (deltaTime : R) (wind : Vec2) (now : R) :
  let p := history ops (new index total cx cy radius u) in
  0 <= glowIntensity p <= 0.7
  /\ (visible p = true ->
      glowIntensity (apply (OpUpdate deltaTime wind now) p)
      = if isHovered p then 0.92 * glowIntensity p + 0.056
        else 0.92 * glowIntensity p).
Proof.
  intros p.
  assert (Hinv : 0 <= glowIntensity p <= 0.7).
  { unfold p.
    assert (H0 : 0 <= glowIntensity (new index total cx cy radius u) <= 0.7)
      by (cbn; lra).
    revert H0. generalize (new index total cx cy radius u).
    induction ops as [|o ops IH]; intros q0 H0; [exact H0|].
    rewrite petal_history_cons. apply IH.
    destruct (apply_glow o q0) as [_ G]. rewrite G.
    destruct o; try exact H0.
    destruct (visible q0); [|exact H0].
    destruct (isHovered q0); lra. }
  split; [exact Hinv|].
  intros Hv. destruct (apply_glow (OpUpdate deltaTime wind now) p) as [_ G].
  rewrite G, Hv. destruct (isHovered p); lra.
Qed.

(** *** Ripple *)

Lemma apply_ripple o p :
  match o with
  | OpTriggerRipple _ =>
      rippleActive (apply o p) = true
      /\ rippleProgress (apply o p) = 0
      /\ rippleIntensity (apply o p) = rippleIntensity p
  | OpUpdate deltaTime _ _ =>
      if visible p && rippleActive p
      then
        let progress := rippleProgress p + deltaTime * 0.001 * 4 in
        if Rle_dec 1 progress
        then rippleActive (apply o p) = false
             /\ rippleProgress (apply o p) = 0
             /\ rippleIntensity (apply o p) = 0
        else rippleActive (apply o p) = true
             /\ rippleProgress (apply o p) = progress
             /\ rippleIntensity (apply o p)
                = sin (progress * PI) * (1 - progress)
      else rippleActive (apply o p) = rippleActive p
           /\ rippleProgress (apply o p) = rippleProgress p
           /\ rippleIntensity (apply o p) = rippleIntensity p
  | _ => rippleActive (apply o p) = rippleActive p
         /\ rippleProgress (apply o p) = rippleProgress p
         /\ rippleIntensity (apply o p) = rippleIntensity p
  end.
Proof.
  destruct o; cbn [apply]; try (repeat split; reflexivity).
  - destruct hovered; repeat split; reflexivity.
  - unfold update. destruct (visible p) eqn:E; cbn [negb andb];
      [|repeat split; reflexivity].
    unfold updateVisible, JSMath.leb.
    cbn [rippleActive rippleProgress rippleIntensity].
    destruct (rippleActive p); [|repeat split; reflexivity].
    cbv zeta. destruct (Rle_dec _ _); repeat split; reflexivity.
Qed.

Lemma ripple_intensity_range x :
  0 <= x < 1 -> 0 <= sin (x * PI) * (1 - x) <= 1.
Proof.
  intros [H0 H1]. pose proof PI_RGT_0 as HP.
  assert (S0 : 0 <= sin (x * PI)) by (apply sin_ge_0; nra).
  pose proof (SIN_bound (x * PI)) as [_ S1].
  split; [apply Rmult_le_pos; lra | nra].
Qed.

(** X19.  The ripple state of a petal is well formed over every history
    with non-negative frame times: the progress lies in [0, 1), the
    intensity in [0, 1], and both are exactly 0 whenever no ripple is
    active.  A ripple on a visible petal ends at the update that brings
    its frame time to 250 ms. *)
Theorem ripple_state_well_formed
    (index total : nat) (cx cy radius : R) (u : nat -> R) (ops : list op)
    (v deltaTime : R) (wind : Vec2) (now : R) :
  Forall frame_nonneg ops ->
  let p := history ops (new index total cx cy radius u) in
  0 <= rippleProgress p < 1
  /\ 0 <= rippleIntensity p <= 1
  /\ (rippleActive p = false ->
      rippleProgress p = 0 /\ rippleIntensity p = 0)
  /\ (visible p = true -> 250 <= deltaTime ->
      rippleActive
        (apply (OpUpdate deltaTime wind now) (apply (OpTriggerRipple v) p))
      = false).
Proof.
  intros Hf p.
  assert (Hinv : 0 <= rippleProgress p < 1
                 /\ 0 <= rippleIntensity p <= 1
                 /\ (rippleActive p = false ->
                     rippleProgress p = 0 /\ rippleIntensity p = 0)).
  { unfold p.
    assert (H0 : let q := new index total cx cy radius u in
                 0 <= rippleProgress q < 1
                 /\ 0 <= rippleIntensity q <= 1
                 /\ (rippleActive q = false ->
                     rippleProgress q = 0 /\ rippleIntensity q = 0)).
    { cbn. repeat split; lra. }
    revert H0. generalize (new index total cx cy radius u).
    induction Hf as [|o ops Ho Hf IH]; intros q H0; [exact H0|].
    rewrite petal_history_cons. apply IH. cbv zeta in *.
    destruct H0 as (HP & HI & HA).
    pose proof (apply_ripple o q) as E.
    destruct o.
    1-4, 6-7: destruct E as (-> & -> & ->); auto.
    - (* triggerRipple *)
      destruct E as (-> & -> & ->).
      split; [lra|]. split; [exact HI | discriminate].
    - (* update *)
      cbn [frame_nonneg] in Ho.
      destruct (visible q && rippleActive q);
        [|destruct E as (-> & -> & ->); auto].
      cbv zeta in E. destruct (Rle_dec _ _) as [L|L];
        destruct E as (-> & -> & ->).
      + repeat split; lra.
      + split; [lra|]. split; [apply ripple_intensity_range; lra|].
        discriminate. }
  destruct Hinv as (HP & HI & HA).
  split; [exact HP|]. split; [exact HI|]. split; [exact HA|].
  intros Hv Hdt.
  pose proof (apply_ripple (OpTriggerRipple v) p) as (A & P & _).
  set (p1 := apply (OpTriggerRipple v) p) in *.
  assert (Hv1 : visible p1 = true) by (rewrite <- Hv; reflexivity).
  pose proof (apply_ripple (OpUpdate deltaTime wind now) p1) as E.
  rewrite Hv1, A in E. cbn [andb] in E. cbv zeta in E. rewrite P in E.
  destruct (Rle_dec _ _) as [L|L]; [tauto | lra].
Qed.

Lemma ripple_state_well_formed_witness :
  let p := history [OpShow; OpTriggerRipple 0.7;
                    OpUpdate 100 {| vx := 0; vy := 0 |} 100]
             (new 3 36 0 0 100 (fun _ => 0)) in
  0 <= rippleIntensity p <= 1.
Proof.
  intros p.
  destruct (ripple_state_well_formed 3 36 0 0 100 (fun _ => 0)
              [OpShow; OpTriggerRipple 0.7;
               OpUpdate 100 {| vx := 0; vy := 0 |} 100]
              0 0 {| vx := 0; vy := 0 |} 0) as (_ & H & _).
  - repeat (apply Forall_cons_2; [cbn; lra || exact I|]). apply Forall_nil_2.
  - exact H.
Defined.

(** *** Hover target *)

Lemma apply_hover_target o p :
  match o with
  | OpSetHovered true u =>
      isHovered (apply o p) = true
      /\ targetTilt (apply o p)
         = Utils.degToRad (Utils.randomRange u 2 PHYSICS.petalTiltMax)
      /\ hueShift (apply o p) = 2
  | OpSetHovered false _ =>
      isHovered (apply o p) = false
      /\ targetTilt (apply o p) = 0 /\ hueShift (apply o p) = 0
  | _ =>
      isHovered (apply o p) = isHovered p
      /\ targetTilt (apply o p) = targetTilt p
      /\ hueShift (apply o p) = hueShift p
  end.
Proof.
  destruct o; cbn [apply]; try (repeat split; reflexivity).
  - destruct hovered; repeat split; reflexivity.
  - unfold update. destruct (visible p); cbn [negb];
      repeat split; reflexivity.
Qed.

(** X20.  The hover target of a petal follows its hover flag over every
    history whose draws lie in [0, 1): a hovered petal tilts towards an
    angle between 2 degrees and [petalTiltMax] degrees with hue shift 2,
    and a petal that is not hovered has target tilt 0 and hue shift
    0. *)
Theorem hover_target_follows_flag
    (index total : nat) (cx cy radius : R) (u : nat -> R) (ops : list op) :
  Forall draw_in_range ops ->
  let p := history ops (new index total cx cy radius u) in
  (isHovered p = true ->
   Utils.degToRad 2 <= targetTilt p < Utils.degToRad PHYSICS.petalTiltMax
   /\ hueShift p = 2)
  /\ (isHovered p = false -> targetTilt p = 0 /\ hueShift p = 0).
Proof.
  intros Hf p. unfold p.
  assert (H0 : let q := new index total cx cy radius u in
               (isHovered q = true ->
                Utils.degToRad 2 <= targetTilt q
                  < Utils.degToRad PHYSICS.petalTiltMax
                /\ hueShift q = 2)
               /\ (isHovered q = false ->
                   targetTilt q = 0 /\ hueShift q = 0)).
  { cbn. split; [discriminate | auto]. }
  revert H0. generalize (new index total cx cy radius u).
  induction Hf as [|o ops Ho Hf IH]; intros q H0; [exact H0|].
  rewrite petal_history_cons. apply IH. cbv zeta in *.
  pose proof (apply_hover_target o q) as E.
  destruct o; try (destruct E as (-> & -> & ->); exact H0).
  destruct hovered; destruct E as (-> & -> & ->).
  - split; [|discriminate]. intros _. split; [|reflexivity].
    cbn in Ho. pose proof PI_RGT_0 as HP.
    unfold Utils.degToRad, Utils.randomRange, PHYSICS.petalTiltMax.
    assert (HK : 0 < PI / 180) by lra.
    split; nra.
  - split; [discriminate | auto].
Qed.

Lemma hover_target_follows_flag_witness :
  let p := history [OpSetHovered true 0.5; OpShow]
             (new 3 36 0 0 100 (fun _ => 0)) in
  Utils.degToRad 2 <= targetTilt p < Utils.degToRad PHYSICS.petalTiltMax.
Proof.
  intros p.
  destruct (hover_target_follows_flag 3 36 0 0 100 (fun _ => 0)
              [OpSetHovered true 0.5; OpShow]) as [H _].
  - repeat (apply Forall_cons_2; [cbn; lra || exact I|]). apply Forall_nil_2.
  - apply H. reflexivity.
Defined.

End PetalStateSpec.

Module TimerQueueSpec.
Import Timers.
Local Open Scope R_scope.

Lemma insert_last due a q :
  Forall (fun tm => fst tm <= due) q -> insert due a q = q ++ [(due, a)].
Proof.
  induction 1 as [|[due' a'] q Hd _ IH]; [reflexivity|].
  cbn [insert]. cbn [fst] in Hd.
  destruct (Rlt_dec due due'); [lra|]. now rewrite IH.
Qed.

Lemma insert_split due a q :
  sorted q ->
  exists q1 q2,
    q = q1 ++ q2
    /\ insert due a q = q1 ++ (due, a) :: q2
    /\ Forall (fun tm => fst tm <= due) q1
    /\ Forall (fun tm => due < fst tm) q2.
Proof.
  induction q as [|[due' a'] q IH]; intros Hs.
  { exists [], []. repeat split; constructor. }
  destruct Hs as [Hhd Hs]. cbn [insert].
  destruct (Rlt_dec due due') as [L|L].
  - exists [], ((due', a') :: q). repeat split; [constructor|].
    apply Forall_cons_2; [exact L|].
    eapply Forall_impl; [exact Hhd|]. cbn. intros tm Htm. lra.
  - destruct (IH Hs) as (q1 & q2 & E & Ei & F1 & F2).
    exists ((due', a') :: q1), q2. rewrite Ei, E.
    repeat split; [|exact F2].
    apply Forall_cons_2; [cbn; lra | exact F1].
Qed.

Lemma insert_sorted due a q : sorted q -> sorted (insert due a q).
Proof.
  induction q as [|[due' a'] q IH]; intros Hs.
  { cbn. split; [constructor | exact I]. }
  destruct Hs as [Hhd Hs]. cbn [insert].
  destruct (Rlt_dec due due') as [L|L].
  - cbn [sorted]. split; [|split; assumption].
    apply Forall_cons_2; [cbn; lra|].
    eapply Forall_impl; [exact Hhd|]. cbn. intros tm Htm. lra.
  - cbn [sorted]. split; [|apply IH, Hs].
    destruct (insert_split due a q Hs) as (q1 & q2 & E & -> & _ & _).
    rewrite E in Hhd. apply Forall_app in Hhd as [H1 H2].
    apply Forall_app. split; [exact H1|].
    apply Forall_cons_2; [cbn; lra | exact H2].
Qed.

Lemma setTimeouts_sorted now l : forall q,
  sorted q -> sorted (setTimeouts now l q).
Proof.
  induction l as [|da l IH]; intros q H; [exact H|].
  cbn [setTimeouts fold_left]. apply IH. apply insert_sorted, H.
Qed.

End TimerQueueSpec.

Module PetalManagerQueueSpec.
Import PetalManager.
Local Open Scope R_scope.

Lemma callSetHovered_timers i h u m :
  timers (callSetHovered i h u m) = timers m.
Proof. reflexivity. Qed.

Lemma apply_timers_sorted o m :
  Timers.sorted (timers m) -> Timers.sorted (timers (apply o m)).
Proof.
  intros H. destruct o; cbn [apply].
  - exact H.
  - apply TimerQueueSpec.setTimeouts_sorted, H.
  - unfold handleHover. destruct (decide _); [exact H|].
    cbn [snd]. destruct (hoveredPetal m), (getPetalAtPoint x y m); exact H.
  - unfold handleClick. destruct (getPetalAtPoint x y m) as [k|]; [|exact H].
    destruct (petals m !! k) as [petal|]; [|exact H].
    cbn [snd Petal.triggerClick]. unfold triggerRipple. cbn [timers set_timers].
    apply TimerQueueSpec.setTimeouts_sorted.
    apply TimerQueueSpec.setTimeouts_sorted, H.
  - unfold runTimer. destruct (timers m) as [|[due a] rest] eqn:E; [now rewrite E|].
    destruct H as [_ H].
    destruct a; cbn [fire on_petal set_petals set_timers add_log timers];
      try exact H.
    apply TimerQueueSpec.insert_sorted, H.
  - apply TimerQueueSpec.setTimeouts_sorted, H.
  - exact H.
  - exact H.
  - unfold update. destruct (updateAll _ _ _ _ _); exact H.
  - unfold clearPetalHover. destruct (hoveredPetal m); exact H.
Qed.

(** The pending timers of a petal manager stay in running order. *)
Lemma history_timers_sorted ops : forall m,
  Timers.sorted (timers m) -> Timers.sorted (timers (history ops m)).
Proof.
  induction ops as [|o ops IH]; intros m H; [exact H|].
  apply IH, apply_timers_sorted, H.
Qed.

(** *** Neighbors on the ring *)

Lemma neighbor_mod k d m :
  (0 < petalCount m)%nat ->
  (- Z.of_nat (petalCount m) <= d)%Z ->
  Z.of_nat (neighbor k d m)
  = ((Z.of_nat k + d) mod Z.of_nat (petalCount m))%Z.
Proof.
  intros Hn Hd. unfold neighbor.
  set (n := Z.of_nat (petalCount m)) in *.
  assert (Hn' : (0 < n)%Z) by (unfold n; lia).
  rewrite Z.rem_mod_nonneg by lia.
  rewrite Z2Nat.id by (apply Z.mod_pos_bound; lia).
  replace (Z.of_nat k + d + n)%Z with (Z.of_nat k + d + 1 * n)%Z by ring.
  apply Z_mod_plus_full.
Qed.

(** X21.  The neighbor index [(index + direction + petalCount) % petalCount]
    stays on the ring for every direction not below [-petalCount]: it
    is [(index + direction) mod petalCount], a valid petal index; the
    two directions used by the ripple are inverse to each other, and
    they wrap around at both ends of the ring. *)
Theorem neighbor_wraps_around (m : t) (k : nat) (d : Z) :
  (k < petalCount m)%nat ->
  (- Z.of_nat (petalCount m) <= d)%Z ->
  (neighbor k d m < petalCount m)%nat
  /\ Z.of_nat (neighbor k d m)
     = ((Z.of_nat k + d) mod Z.of_nat (petalCount m))%Z
  /\ neighbor (neighbor k 1 m) (-1) m = k
  /\ neighbor (neighbor k (-1) m) 1 m = k
  /\ neighbor (petalCount m - 1) 1 m = 0%nat
  /\ neighbor 0 (-1) m = (petalCount m - 1)%nat.
Proof.
  intros Hk Hd.
  assert (Hn : (0 < petalCount m)%nat) by lia.
  set (n := Z.of_nat (petalCount m)) in *.
  assert (Hn' : (0 < n)%Z) by (unfold n; lia).
  assert (Hmod : forall j e, (- n <= e)%Z ->
            Z.of_nat (neighbor j e m) = ((Z.of_nat j + e) mod n)%Z).
  { intros j e He. apply neighbor_mod; assumption. }
  assert (Hup : forall j, (j < petalCount m)%nat ->
            Z.of_nat (neighbor j 1 m)
            = (if decide (Z.of_nat j + 1 = n) then 0 else Z.of_nat j + 1)%Z).
  { intros j Hj. rewrite Hmod by lia. destruct (decide _) as [E|E].
    - rewrite E. apply Z_mod_same_full.
    - apply Z.mod_small. unfold n in *. lia. }
  assert (Hdown : forall j, (j < petalCount m)%nat ->
            Z.of_nat (neighbor j (-1) m)
            = (if decide (j = 0%nat) then n - 1 else Z.of_nat j - 1)%Z).
  { intros j Hj. rewrite Hmod by lia. destruct (decide _) as [E|E].
    - subst j.
      replace (Z.of_nat 0 + -1)%Z with (n - 1 + (-1) * n)%Z by lia.
      rewrite Z_mod_plus_full. apply Z.mod_small. lia.
    - apply Z.mod_small. unfold n in *. lia. }
  assert (Hrange : forall j e, (- n <= e)%Z ->
            (neighbor j e m < petalCount m)%nat).
  { intros j e He. apply Nat2Z.inj_lt. rewrite Hmod by exact He.
    fold n. apply Z.mod_pos_bound. exact Hn'. }
  split; [apply Hrange, Hd|]. split; [apply Hmod, Hd|].
  split; [|split; [|split]]; apply Nat2Z.inj.
  - rewrite Hdown by (apply Hrange; lia).
    pose proof (Hup k Hk) as E. destruct (decide (Z.of_nat k + 1 = n)%Z).
    + destruct (decide _) as [E0|E0]; unfold n in *; lia.
    + destruct (decide _) as [E0|E0]; unfold n in *; lia.
  - rewrite Hup by (apply Hrange; lia).
    pose proof (Hdown k Hk) as E. destruct (decide (k = 0%nat)).
    + destruct (decide _) as [E0|E0]; unfold n in *; lia.
    + destruct (decide _) as [E0|E0]; unfold n in *; lia.
  - rewrite Hup by lia. destruct (decide _); unfold n in *; lia.
  - rewrite Hdown by lia. destruct (decide _); unfold n in *; lia.
Qed.

Lemma neighbor_wraps_around_witness :
  neighbor 35 1 (new 0 0 100 (fun _ _ => 0)) = 0%nat
  /\ neighbor 0 (-1) (new 0 0 100 (fun _ _ => 0)) = 35%nat.
Proof.
  destruct (neighbor_wraps_around (new 0 0 100 (fun _ _ => 0)) 0 1)
    as (_ & _ & _ & _ & H1 & H2).
  - cbn [petalCount new]. unfold PHYSICS.petalCount. lia.
  - cbn [petalCount new]. unfold PHYSICS.petalCount. lia.
  - split; [exact H1 | exact H2].
Defined.

(** *** The hit test scans the petals from the highest index down *)

Lemma scan_spec x y m n :
  match scan x y m n with
  | Some k =>
      (k < n)%nat
      /\ (exists p, petals m !! k = Some p
            /\ Petal.containsPoint x y (centerX m) (centerY m) p = true)
      /\ (forall j q, (k < j < n)%nat -> petals m !! j = Some q ->
            Petal.containsPoint x y (centerX m) (centerY m) q = false)
  | None =>
      forall j q, (j < n)%nat -> petals m !! j = Some q ->
        Petal.containsPoint x y (centerX m) (centerY m) q = false
  end.
Proof.
  induction n as [|n IH]; cbn [scan].
  { intros j q Hj. lia. }
  destruct (petals m !! n) as [petal|] eqn:En.
  - destruct (Petal.containsPoint x y (centerX m) (centerY m) petal) eqn:Ec.
    + split; [lia|]. split; [eauto|]. intros j q Hj. lia.
    + destruct (scan x y m n) as [k|].
      * destruct IH as (Hk & Hp & Hn). split; [lia|]. split; [exact Hp|].
        intros j q Hj Eq. destruct (decide (j = n)) as [->|Hne].
        -- congruence.
        -- apply (Hn j q); [lia | exact Eq].
      * intros j q Hj Eq. destruct (decide (j = n)) as [->|Hne].
        -- congruence.
        -- apply (IH j q); [lia | exact Eq].
  - destruct (scan x y m n) as [k|].
    + destruct IH as (Hk & Hp & Hn). split; [lia|]. split; [exact Hp|].
      intros j q Hj Eq. destruct (decide (j = n)) as [->|Hne].
      * congruence.
      * apply (Hn j q); [lia | exact Eq].
    + intros j q Hj Eq. destruct (decide (j = n)) as [->|Hne].
      * congruence.
      * apply (IH j q); [lia | exact Eq].
Qed.

Lemma getPetalAtPoint_spec x y m :
  match getPetalAtPoint x y m with
  | Some k =>
      (exists p, petals m !! k = Some p
         /\ Petal.containsPoint x y (centerX m) (centerY m) p = true)
      /\ (forall j q, (k < j)%nat -> petals m !! j = Some q ->
            Petal.containsPoint x y (centerX m) (centerY m) q = false)
  | None =>
      forall j q, petals m !! j = Some q ->
        Petal.containsPoint x y (centerX m) (centerY m) q = false
  end.
Proof.
  unfold getPetalAtPoint.
  pose proof (scan_spec x y m (List.length (petals m))) as H.
  destruct (scan x y m (List.length (petals m))) as [k|].
  - destruct H as (Hk & Hp & Hn). split; [exact Hp|].
    intros j q Hj Eq. apply (Hn j q); [|exact Eq].
    apply lookup_lt_Some in Eq. lia.
  - intros j q Eq. apply (H j q); [|exact Eq].
    apply lookup_lt_Some in Eq. exact Eq.
Qed.

(** X22.  [getPetalAtPoint] returns the petal with the highest index among
    those that contain the point, and nothing exactly when no petal
    contains the point. *)
Theorem hit_test_returns_highest_index (x y : R) (m : t) :
  match getPetalAtPoint x y m with
  | Some k =>
      (exists p, petals m !! k = Some p
         /\ Petal.containsPoint x y (centerX m) (centerY m) p = true)
      /\ (forall j q, (k < j)%nat -> petals m !! j = Some q ->
            Petal.containsPoint x y (centerX m) (centerY m) q = false)
  | None =>
      forall j q, petals m !! j = Some q ->
        Petal.containsPoint x y (centerX m) (centerY m) q = false
  end.
Proof. apply getPetalAtPoint_spec. Qed.

End PetalManagerQueueSpec.

Module PetalRingSpec.
Import PetalManager.
Local Open Scope R_scope.

Lemma manager_history_cons o ops m :
  history (o :: ops) m = history ops (apply o m).
Proof. reflexivity. Qed.

(** *** The ring of petals is fixed at construction *)

Lemma layout_setHovered h u p :
  Petal.layout (Petal.setHovered h u p) = Petal.layout p.
Proof. destruct h; reflexivity. Qed.

Lemma layout_update dt wind now p p' :
  Petal.update dt wind now p = Returned p' ->
  Petal.layout p' = Petal.layout p /\ Petal.visible p' = Petal.visible p.
Proof.
  unfold Petal.update. destruct (Petal.visible p) eqn:E; cbn [negb].
  - destruct wind as [w|]; [|discriminate]. intros [= <-].
    split; [reflexivity | exact E].
  - intros [= <-]. auto.
Qed.

Lemma fmap_alter_same {A B : Type} (f : A -> B) (g : A -> A) i (l : list A) :
  (forall a, f (g a) = f a) -> f <$> alter g i l = f <$> l.
Proof.
  intros H. apply list_eq. intros j.
  rewrite !list_lookup_fmap, list_lookup_alter.
  destruct (decide (i = j)) as [->|]; [|reflexivity].
  destruct (l !! j); cbn; [now rewrite H | reflexivity].
Qed.

Lemma fmap_fmap_same {A B : Type} (f : A -> B) (g : A -> A) (l : list A) :
  (forall a, f (g a) = f a) -> f <$> (g <$> l) = f <$> l.
Proof.
  intros H. rewrite <- list_fmap_compose. apply list_fmap_ext.
  intros j a _. apply H.
Qed.

Lemma fmap_imap_same {A B : Type} (f : A -> B) (g : nat -> A -> A)
    (l : list A) :
  (forall j a, f (g j a) = f a) -> f <$> imap g l = f <$> l.
Proof.
  intros H. apply list_eq. intros j.
  rewrite !list_lookup_fmap, list_lookup_imap.
  destruct (l !! j); cbn; [now rewrite H | reflexivity].
Qed.

Lemma fmap_insert_same {A B : Type} (f : A -> B) k (a a' : A) (l : list A) :
  l !! k = Some a -> f a' = f a -> f <$> <[ k := a' ]> l = f <$> l.
Proof.
  intros Hk Hf. rewrite list_fmap_insert, Hf.
  apply list_insert_id. now rewrite list_lookup_fmap, Hk.
Qed.

Lemma updateAll_same {B : Type} (f : Petal.t -> B) dt wind now :
  (forall p p' t, Petal.update dt wind t p = Returned p' -> f p' = f p) ->
  forall ps i ps',
    updateAll dt wind now i ps = Returned ps' -> f <$> ps' = f <$> ps.
Proof.
  intros H. induction ps as [|p rest IH]; intros i ps'; cbn [updateAll].
  { now intros [= <-]. }
  destruct (Petal.update dt wind (now i) p) as [p'|] eqn:Ep; [|discriminate].
  destruct (updateAll dt wind now (S i) rest) as [rest'|] eqn:Er;
    [|discriminate].
  intros [= <-]. cbn. f_equal; [eapply H, Ep | eapply IH, Er].
Qed.

(** What [apply] keeps of the petals, for a petal observation [f] that
    no petal method changes. *)
Lemma apply_petals_same {B : Type} (f : Petal.t -> B) o m :
  (forall p, f (Petal.show p) = f p \/ is_run_timer o = false) ->
  (forall h u p, f (Petal.setHovered h u p) = f p) ->
  (forall u p, f (fst (Petal.triggerClick u p)) = f p) ->
  (forall p, f (Petal.resetScale p) = f p) ->
  (forall u p, f (Petal.triggerRipple u p) = f p) ->
  (forall p, f (fst (Petal.triggerBloom p)) = f p) ->
  (forall k p, f (Petal.set_bendStiffness k p) = f p) ->
  (forall dt wind t p p',
     Petal.update dt wind t p = Returned p' -> f p' = f p) ->
  f <$> petals (apply o m) = f <$> petals m
  /\ petalCount (apply o m) = petalCount m
  /\ radius (apply o m) = radius m.
Proof.
  intros Hshow Hhover Hclick Hreset Hripple Hbloom Hbend Hupd.
  destruct o; cbn [apply].
  - auto.
  - auto.
  - unfold handleHover. destruct (decide _); [auto|].
    cbn [snd set_hoveredPetal petals petalCount radius].
    destruct (hoveredPetal m) as [h|], (getPetalAtPoint x y m) as [k|];
      unfold callSetHovered, on_petal;
      cbn [add_log set_petals petals petalCount radius];
      rewrite ?fmap_alter_same by (intros; apply Hhover); auto.
  - unfold handleClick. destruct (getPetalAtPoint x y m) as [k|]; [|auto].
    destruct (petals m !! k) as [petal|] eqn:Ek; [|auto].
    cbn [snd Petal.triggerClick triggerRipple set_timers set_petals petals
         petalCount radius].
    split; [|auto].
    apply (fmap_insert_same f k petal); [exact Ek|].
    apply (Hclick u petal).
  - unfold runTimer. destruct (timers m) as [|[due a] rest]; [auto|].
    destruct a; cbn [fire on_petal set_petals set_timers add_log petals
                     petalCount radius];
      rewrite ?fmap_alter_same; auto.
    intros p. destruct (Hshow p) as [H|H]; [exact H | discriminate].
  - cbn [triggerAllBloom set_petals set_timers petals petalCount radius].
    rewrite fmap_fmap_same by exact Hbloom. auto.
  - cbn [setCuriositySide set_petals petals petalCount radius].
    rewrite fmap_fmap_same by (intros; apply Hbend). auto.
  - cbn [resetCuriosity set_petals petals petalCount radius].
    rewrite fmap_imap_same by (intros; apply Hbend). auto.
  - unfold update.
    destruct (updateAll deltaTime (Some wind) now 0 (petals m)) as [ps|] eqn:E;
      [|auto].
    cbn [set_petals petals petalCount radius].
    split; [|auto]. eapply updateAll_same; [|exact E].
    intros p p' t. apply Hupd.
  - unfold clearPetalHover. destruct (hoveredPetal m) as [h|]; [|auto].
    cbn [set_hoveredPetal callSetHovered on_petal add_log set_petals petals
         petalCount radius].
    rewrite fmap_alter_same by (intros; apply Hhover). auto.
Qed.

Lemma apply_layout o m :
  Petal.layout <$> petals (apply o m) = Petal.layout <$> petals m
  /\ petalCount (apply o m) = petalCount m
  /\ radius (apply o m) = radius m.
Proof.
  apply apply_petals_same; try reflexivity.
  - intros p. left. reflexivity.
  - apply layout_setHovered.
  - intros dt wind t p p' H. apply (layout_update dt wind t p p' H).
Qed.

Lemma history_layout ops : forall m,
  Petal.layout <$> petals (history ops m) = Petal.layout <$> petals m
  /\ petalCount (history ops m) = petalCount m
  /\ radius (history ops m) = radius m.
Proof.
  induction ops as [|o ops IH]; intros m; [auto|].
  rewrite manager_history_cons. destruct (IH (apply o m)) as (-> & -> & ->).
  apply apply_layout.
Qed.

Lemma new_lookup cx cy r rand i p :
  petals (new cx cy r rand) !! i = Some p ->
  (i < PHYSICS.petalCount)%nat
  /\ p = Petal.new i PHYSICS.petalCount cx cy r (rand i).
Proof.
  cbn [new petals]. rewrite list_lookup_fmap.
  destruct (seq 0 PHYSICS.petalCount !! i) as [j|] eqn:E; [|discriminate].
  apply lookup_seq in E as [-> Hi]. cbn. intros [= <-]. auto.
Qed.

Lemma history_index cx cy r rand ops i p :
  petals (history ops (new cx cy r rand)) !! i = Some p ->
  (i < 36)%nat /\ Petal.index p = i.
Proof.
  intros Hp.
  destruct (history_layout ops (new cx cy r rand)) as (L & _ & _).
  assert (E : (Petal.layout <$> petals (history ops (new cx cy r rand))) !! i
              = Some (Petal.layout p))
    by now rewrite list_lookup_fmap, Hp.
  rewrite L, list_lookup_fmap in E.
  destruct (petals (new cx cy r rand) !! i) as [p0|] eqn:E0; [|discriminate].
  apply new_lookup in E0 as [Hi ->].
  cbn [fmap option_fmap option_map] in E. unfold Petal.layout in E.
  cbn [Petal.new Petal.index] in E.
  injection E as E1 _. split; [exact Hi | congruence].
Qed.

Lemma history_length cx cy r rand ops :
  List.length (petals (history ops (new cx cy r rand))) = 36%nat.
Proof.
  destruct (history_layout ops (new cx cy r rand)) as (L & _ & _).
  rewrite <- (length_fmap Petal.layout), L, length_fmap.
  cbn [new petals]. now rewrite length_fmap, length_seq.
Qed.

(** X23.  No operation of the manager resizes or reorders the ring: after
    every history there are 36 petals, the petal at position [i] carries
    index [i] and the base angle [i / 36] of a turn, and it keeps the
    length and width drawn by its constructor. *)
Theorem petal_ring_fixed_at_construction
    (cx cy radius : R) (rand : nat -> nat -> R) (ops : list op) :
  let m := history ops (new cx cy radius rand) in
  petalCount m = 36%nat
  /\ List.length (petals m) = 36%nat
  /\ PetalManager.radius m = radius
  /\ (forall (i : nat) (p : Petal.t),
        petals m !! i = Some p ->
        (i < 36)%nat
        /\ Petal.index p = i
        /\ Petal.totalPetals p = 36%nat
        /\ Petal.baseAngle p = INR i / INR 36 * PI * 2
        /\ Petal.length p
           = radius * 0.8 * Utils.randomRange (rand i 1%nat) 0.88 1.12
        /\ Petal.width p
           = radius * 0.15 * Utils.randomRange (rand i 2%nat) 0.9 1.1).
Proof.
  intros m.
  destruct (history_layout ops (new cx cy radius rand)) as (L & C & Rd).
  fold m in L, C, Rd.
  split; [rewrite C; reflexivity|].
  split.
  { rewrite <- (length_fmap Petal.layout), L, length_fmap.
    cbn [new petals]. now rewrite length_fmap, length_seq. }
  split; [rewrite Rd; reflexivity|].
  intros i p Hp.
  assert (E : (Petal.layout <$> petals m) !! i = Some (Petal.layout p))
    by now rewrite list_lookup_fmap, Hp.
  rewrite L, list_lookup_fmap in E.
  destruct (petals (new cx cy radius rand) !! i) as [p0|] eqn:E0;
    [|discriminate].
  apply new_lookup in E0 as [Hi ->].
  cbn [fmap option_fmap option_map] in E. unfold Petal.layout in E.
  cbn [Petal.new Petal.index Petal.totalPetals Petal.baseAngle Petal.length
       Petal.width] in E.
  unfold PHYSICS.petalCount in *.
  injection E as E1 E2 E3 E4 E5.
  split; [exact Hi|]. repeat split; try congruence.
  rewrite <- E3. reflexivity.
Qed.

(** *** Nothing can be hit before the bloom timers run *)

Lemma hidden_pair_update dt wind now p p' :
  Petal.update dt wind now p = Returned p' ->
  Petal.visible p' = Petal.visible p.
Proof. intros H. apply (layout_update dt wind now p p' H). Qed.

Lemma apply_visible_no_timer o m :
  is_run_timer o = false ->
  Petal.visible <$> petals (apply o m) = Petal.visible <$> petals m.
Proof.
  intros Ho. apply apply_petals_same; try reflexivity.
  - intros p. right. exact Ho.
  - intros h u p. destruct h; reflexivity.
  - intros dt wind t p p' H. eapply hidden_pair_update, H.
Qed.

Lemma all_hidden_fmap (ps : list Petal.t) :
  Forall (fun p => Petal.visible p = false) ps
  <-> Forall (fun b => b = false) (Petal.visible <$> ps).
Proof. now rewrite Forall_fmap. Qed.

Lemma hidden_no_hit x y m :
  Forall (fun p => Petal.visible p = false) (petals m) ->
  getPetalAtPoint x y m = None.
Proof.
  intros H.
  pose proof (PetalManagerQueueSpec.getPetalAtPoint_spec x y m) as S.
  destruct (getPetalAtPoint x y m) as [k|]; [|reflexivity].
  destruct S as [(p & Hp & Hc) _].
  rewrite Forall_lookup in H. specialize (H k p Hp).
  unfold Petal.containsPoint in Hc. rewrite H in Hc. discriminate.
Qed.

Lemma apply_hidden o m :
  is_run_timer o = false ->
  Forall (fun p => Petal.visible p = false) (petals m) ->
  hoveredPetal m = None ->
  Forall (fun p => Petal.visible p = false) (petals (apply o m))
  /\ hoveredPetal (apply o m) = None.
Proof.
  intros Ho Hv Hh. split.
  { apply all_hidden_fmap. rewrite apply_visible_no_timer by exact Ho.
    apply all_hidden_fmap, Hv. }
  destruct o; cbn [apply]; try exact Hh; try discriminate.
  - unfold handleHover. rewrite (hidden_no_hit x y m Hv), Hh.
    destruct (decide _) as [_|N]; [exact Hh | now destruct N].
  - unfold handleClick. rewrite (hidden_no_hit x y m Hv). exact Hh.
  - unfold update. destruct (updateAll _ _ _ _ _); exact Hh.
  - unfold clearPetalHover. now rewrite Hh.
Qed.

(** X24.  Petals become visible only when their bloom timers run: after any
    history in which no timer has run, every petal is still hidden, so
    the hit test finds nothing at any point and a hover or a click there
    returns nothing and leaves the manager exactly as it was. *)
Theorem petals_hidden_until_timers_run
    (cx cy radius : R) (rand : nat -> nat -> R) (ops : list op)
    (now x y u : R) :
  Forall (fun o => is_run_timer o = false) ops ->
  let m := history ops (new cx cy radius rand) in
  Forall (fun p => Petal.visible p = false) (petals m)
  /\ getPetalAtPoint x y m = None
  /\ handleHover x y u m = (None, m)
  /\ handleClick now x y u m = (None, m).
Proof.
  intros Hops m.
  assert (Hinv : Forall (fun p => Petal.visible p = false) (petals m)
                 /\ hoveredPetal m = None).
  { unfold m.
    assert (H0 : Forall (fun p => Petal.visible p = false)
                   (petals (new cx cy radius rand))
                 /\ hoveredPetal (new cx cy radius rand) = None).
    { split; [|reflexivity]. apply Forall_lookup. intros i p Hp.
      apply new_lookup in Hp as [_ ->]. reflexivity. }
    revert H0. generalize (new cx cy radius rand).
    induction Hops as [|o ops Ho Hops IH]; intros m0 [Hv Hh]; [auto|].
    rewrite manager_history_cons. apply IH. apply apply_hidden; assumption. }
  destruct Hinv as [Hv Hh].
  pose proof (hidden_no_hit x y m Hv) as Hn.
  split; [exact Hv|]. split; [exact Hn|]. split.
  - unfold handleHover. rewrite Hn, Hh.
    destruct (decide _) as [_|N]; [reflexivity | now destruct N].
  - unfold handleClick. now rewrite Hn.
Qed.

Lemma petals_hidden_until_timers_run_witness :
  let m := history [OpStartBloom 0 (fun _ => 0.5);
                    OpUpdate 16 {| vx := 0; vy := 0 |} (fun _ => 16);
                    OpHandleClick 20 30 40 0.5]
             (new 0 0 100 (fun _ _ => 0.5)) in
  handleClick 25 10 10 0.5 m = (None, m).
Proof.
  intros m.
  destruct (petals_hidden_until_timers_run 0 0 100 (fun _ _ => 0.5)
              [OpStartBloom 0 (fun _ => 0.5);
               OpUpdate 16 {| vx := 0; vy := 0 |} (fun _ => 16);
               OpHandleClick 20 30 40 0.5] 25 10 10 0.5)
    as (_ & _ & _ & H).
  - repeat (apply Forall_cons_2; [reflexivity|]). apply Forall_nil_2.
  - exact H.
Defined.

End PetalRingSpec.

Module SequentialBloomSpec.
Import PetalManager.
Local Open Scope R_scope.

Lemma setTimeouts_cons now r reqs q :
  Timers.setTimeouts now (r :: reqs) q
  = Timers.setTimeouts now reqs (Timers.insert (now + fst r) (snd r) q).
Proof. reflexivity. Qed.

(** Requests made in non-decreasing order of delay are queued behind one
    another, when nothing already pending is due later than they are. *)
Lemma setTimeouts_in_order now reqs : forall q,
  Timers.sorted reqs ->
  Forall (fun tm => Forall (fun r => fst tm <= now + fst r) reqs) q ->
  Timers.setTimeouts now reqs q
  = q ++ ((fun r => (now + fst r, snd r)) <$> reqs).
Proof.
  induction reqs as [|r reqs IH]; intros q Hs Hq.
  { cbn. now rewrite app_nil_r. }
  rewrite setTimeouts_cons. destruct Hs as [Hhd Hs].
  rewrite TimerQueueSpec.insert_last.
  2:{ eapply Forall_impl; [exact Hq|]. cbn. intros tm H.
      apply Forall_cons in H as [H _]. exact H. }
  rewrite IH; [now rewrite <- app_assoc | exact Hs |].
  apply Forall_app. split.
  - eapply Forall_impl; [exact Hq|]. cbn. intros tm H.
    apply Forall_cons in H as [_ H]. exact H.
  - apply Forall_cons_2; [|apply Forall_nil_2]. cbn [fst].
    eapply Forall_impl; [exact Hhd|]. cbn. intros r' H. lra.
Qed.

Lemma sorted_lookup (q : list Timers.timer) :
  (forall i j a b, (i < j)%nat -> q !! i = Some a -> q !! j = Some b ->
     fst a <= fst b) ->
  Timers.sorted q.
Proof.
  induction q as [|tm q IH]; intros H; [exact I|].
  split.
  - apply Forall_lookup. intros j b Hb.
    apply (H 0%nat (S j) tm b); [lia | reflexivity | exact Hb].
  - apply IH. intros i j a b Hij Ha Hb.
    apply (H (S i) (S j) a b); [lia | exact Ha | exact Hb].
Qed.

Lemma bloom_delay_increasing (rand : nat -> R) (i j : nat) :
  (forall k, 0 <= rand k < 1) -> (i < j)%nat ->
  INR i * 50 + Utils.randomRange (rand i) 0 30
  <= INR j * 50 + Utils.randomRange (rand j) 0 30.
Proof.
  intros Hr Hij. unfold Utils.randomRange.
  pose proof (Hr i). pose proof (Hr j).
  assert (INR i + 1 <= INR j).
  { rewrite <- S_INR. apply le_INR. lia. }
  nra.
Qed.

Lemma startBloom_timers cx cy r rand0 now rand i :
  (forall k, 0 <= rand k < 1) ->
  let m1 := startBloom now rand (new cx cy r rand0) in
  petals m1 = petals (new cx cy r rand0)
  /\ List.length (timers m1) = 36%nat
  /\ ((i < 36)%nat ->
      timers m1 !! i
      = Some (now + (INR i * 50 + Utils.randomRange (rand i) 0 30),
              PetalShow i)).
Proof.
  intros Hr m1. split; [reflexivity|].
  set (f := fun (i : nat) (petal : Petal.t) =>
              (INR i * 50 + Utils.randomRange (rand i) 0 30,
               PetalShow (Petal.index petal))).
  assert (Et : timers m1
               = (fun r => (now + fst r, snd r))
                   <$> imap f (petals (new cx cy r rand0))).
  { unfold m1, startBloom. cbv zeta. cbn [set_timers timers].
    rewrite setTimeouts_in_order; [reflexivity | | apply Forall_nil_2].
    apply sorted_lookup. intros a b ta tb Hab Ha Hb.
    rewrite list_lookup_imap in Ha, Hb.
    destruct (petals (new cx cy r rand0) !! a); [|discriminate].
    destruct (petals (new cx cy r rand0) !! b); [|discriminate].
    cbn in Ha, Hb. injection Ha as <-. injection Hb as <-. cbn [fst].
    apply bloom_delay_increasing; assumption. }
  rewrite Et. split.
  - rewrite length_fmap, length_imap. cbn [new petals].
    now rewrite length_fmap, length_seq.
  - intros Hi. rewrite list_lookup_fmap, list_lookup_imap.
    cbn [new petals]. rewrite list_lookup_fmap.
    rewrite lookup_seq_lt by exact Hi. reflexivity.
Qed.

Lemma runTimers_snoc us u m :
  runTimers (us ++ [u]) m = runTimer u (runTimers us m).
Proof. unfold runTimers. now rewrite fold_left_app. Qed.

(** Running timers that each call one method [f] on one petal. *)
Lemma run_petal_timers (act : nat -> TimerAction) (f : Petal.t -> Petal.t)
    (m1 : t) (us : list R) :
  (forall due u i m, fire due u (act i) m = on_petal i f m) ->
  (forall i, (i < List.length us)%nat ->
     exists due, timers m1 !! i = Some (due, act i)) ->
  timers (runTimers us m1) = drop (List.length us) (timers m1)
  /\ log (runTimers us m1) = log m1
  /\ forall i,
       petals (runTimers us m1) !! i
       = (fun p => if decide (i < List.length us)%nat then f p else p)
           <$> (petals m1 !! i).
Proof.
  intros Hfire.
  induction us as [|u us IH] using rev_ind; intros HT.
  { cbn. split; [reflexivity|]. split; [reflexivity|]. intros i.
    destruct (petals m1 !! i); reflexivity. }
  rewrite runTimers_snoc, length_app. cbn [List.length].
  replace (List.length us + 1)%nat with (S (List.length us)) by lia.
  destruct IH as (IHt & IHl & IHp).
  { intros i Hi. apply HT. rewrite length_app. cbn. lia. }
  destruct (HT (List.length us)) as [due Hk].
  { rewrite length_app. cbn. lia. }
  set (k := List.length us) in *.
  set (mk := runTimers us m1) in *.
  assert (Ed : timers mk = (due, act k) :: drop (S k) (timers m1)).
  { rewrite IHt. apply drop_S, Hk. }
  unfold runTimer. rewrite Ed, Hfire.
  cbn [on_petal set_petals set_timers timers petals log].
  split; [reflexivity|]. split; [exact IHl|].
  intros i. rewrite list_lookup_alter, !IHp.
  destruct (decide (k = i)) as [<-|Hne].
  - destruct (petals m1 !! k); cbn; [|reflexivity].
    destruct (decide (k < k)%nat); [lia|].
    destruct (decide (k < S k)%nat); [reflexivity | lia].
  - destruct (petals m1 !! i); cbn; [|reflexivity].
    destruct (decide (i < k)%nat), (decide (i < S k)%nat);
      try reflexivity; lia.
Qed.

(** X25.  The bloom is sequential: [startBloom] on a new manager queues the 36
    show timers in petal order, petal [i] due [50 i] ms plus an offset
    below 30 ms after the start, and running the first [k] timers makes
    exactly the petals [0 .. k-1] visible. *)
Theorem bloom_is_sequential
    (cx cy radius : R) (rand0 : nat -> nat -> R) (now : R)
    (rand : nat -> R) (us : list R) :
  (forall i, 0 <= rand i < 1) ->
  (List.length us <= 36)%nat ->
  let m1 := startBloom now rand (new cx cy radius rand0) in
  let mk := runTimers us m1 in
  List.length (timers m1) = 36%nat
  /\ (forall i, (i < 36)%nat ->
        exists offset,
          0 <= offset < 30
          /\ timers m1 !! i = Some (now + (INR i * 50 + offset), PetalShow i))
  /\ timers mk = drop (List.length us) (timers m1)
  /\ (forall i p, petals mk !! i = Some p ->
        (Petal.visible p = true <-> (i < List.length us)%nat)).
Proof.
  intros Hr Hlen m1 mk.
  assert (HT : forall i, (i < 36)%nat ->
             timers m1 !! i
             = Some (now + (INR i * 50 + Utils.randomRange (rand i) 0 30),
                     PetalShow i)).
  { intros i Hi.
    apply (startBloom_timers cx cy radius rand0 now rand i Hr), Hi. }
  destruct (startBloom_timers cx cy radius rand0 now rand 0 Hr)
    as (Hp & Hl & _).
  fold m1 in Hp, Hl.
  split; [exact Hl|]. split.
  { intros i Hi. exists (Utils.randomRange (rand i) 0 30).
    split; [|apply HT, Hi].
    unfold Utils.randomRange. pose proof (Hr i). lra. }
  destruct (run_petal_timers PetalShow Petal.show m1 us) as (Ht & _ & Hps).
  { reflexivity. }
  { intros i Hi. eexists. apply HT. lia. }
  split; [exact Ht|].
  intros i p Hi. fold mk in Hps. rewrite Hps, Hp in Hi.
  destruct (petals (new cx cy radius rand0) !! i) as [p0|] eqn:E0;
    [|discriminate].
  apply PetalRingSpec.new_lookup in E0 as [_ ->].
  cbn in Hi. injection Hi as <-.
  destruct (decide (i < List.length us)%nat) as [L|L].
  - split; [intros _; exact L | intros _; reflexivity].
  - split; [discriminate | intros H; contradiction].
Qed.

Lemma bloom_is_sequential_witness :
  let m1 := startBloom 4000 (fun _ => 0.5) (new 0 0 100 (fun _ _ => 0.5)) in
  timers (runTimers [0; 0; 0] m1) = drop 3 (timers m1).
Proof.
  intros m1.
  destruct (bloom_is_sequential 0 0 100 (fun _ _ => 0.5) 4000
              (fun _ => 0.5) [0; 0; 0]) as (_ & _ & H & _).
  - intros _. lra.
  - cbn. lia.
  - exact H.
Defined.

(** *** Center bloom *)

Lemma flat_map_singleton {A B : Type} (f : A -> B) (l : list A) :
  flat_map (fun a => [f a]) l = f <$> l.
Proof. induction l as [|a l IH]; [reflexivity|]. cbn. now rewrite IH. Qed.

Lemma triggerAllBloom_fields now m :
  timers m = [] ->
  let m1 := triggerAllBloom now m in
  petals m1
  = (fun p => Petal.set_spin_scale (Petal.spinVelocity p)
                PHYSICS.centerBloomScale p) <$> petals m
  /\ timers m1
     = (fun p => (now + 400, PetalResetScale (Petal.index p))) <$> petals m
  /\ log m1 = log m.
Proof.
  intros Ht m1. split; [reflexivity|]. split; [|reflexivity].
  unfold m1, triggerAllBloom. cbv zeta.
  cbn [set_timers set_petals timers]. rewrite Ht.
  change (flat_map (fun petal => snd (Petal.triggerBloom petal)) (petals m))
    with (flat_map (fun petal => [(400, PetalResetScale (Petal.index petal))])
            (petals m)).
  rewrite flat_map_singleton.
  rewrite setTimeouts_in_order; [| |apply Forall_nil_2].
  - cbn [app]. rewrite <- list_fmap_compose. reflexivity.
  - apply sorted_lookup. intros i j a b _ Ha Hb.
    rewrite list_lookup_fmap in Ha, Hb.
    destruct (petals m !! i); [|discriminate].
    destruct (petals m !! j); [|discriminate].
    cbn in Ha, Hb. injection Ha as <-. injection Hb as <-. cbn. lra.
Qed.

(** X26.  A center click with no timer pending: [triggerAllBloom] sets the
    target scale of every petal to [centerBloomScale] = 1.03 and changes
    nothing else on the petals, and queues one reset per petal, all due
    400 ms later, in petal order; once these 36 timers have run every
    petal's target scale is back to 1, no timer is left and no hover or
    ripple call was made. *)
Theorem center_bloom_pulses_every_petal
    (cx cy radius : R) (rand0 : nat -> nat -> R) (ops : list op)
    (now : R) (us : list R) :
  let m := history ops (new cx cy radius rand0) in
  timers m = [] -> List.length us = 36%nat ->
  let m1 := triggerAllBloom now m in
  let m2 := runTimers us m1 in
  (forall i p1, petals m1 !! i = Some p1 ->
     exists p, petals m !! i = Some p
       /\ p1 = Petal.set_spin_scale (Petal.spinVelocity p)
                 PHYSICS.centerBloomScale p
       /\ Petal.targetScale p1 = 1.03)
  /\ List.length (timers m1) = 36%nat
  /\ (forall i, (i < 36)%nat ->
        timers m1 !! i = Some (now + 400, PetalResetScale i))
  /\ timers m2 = []
  /\ log m2 = log m
  /\ (forall i p2, petals m2 !! i = Some p2 -> Petal.targetScale p2 = 1).
Proof.
  intros m Ht Hus m1 m2.
  destruct (triggerAllBloom_fields now m Ht) as (Ep & Et & El).
  fold m1 in Ep, Et, El.
  pose proof (PetalRingSpec.history_length cx cy radius rand0 ops) as Hlen.
  fold m in Hlen.
  assert (HT : forall i, (i < 36)%nat ->
             timers m1 !! i = Some (now + 400, PetalResetScale i)).
  { intros i Hi. rewrite Et, list_lookup_fmap.
    destruct (lookup_lt_is_Some_2 (petals m) i) as [p Hp]; [lia|].
    rewrite Hp. cbn.
    destruct (PetalRingSpec.history_index cx cy radius rand0 ops i p Hp)
      as [_ ->].
    reflexivity. }
  destruct (run_petal_timers PetalResetScale Petal.resetScale m1 us)
    as (Ht2 & Hl2 & Hp2).
  { reflexivity. }
  { intros i Hi. eexists. apply HT. lia. }
  fold m2 in Ht2, Hl2, Hp2.
  split.
  { intros i p1 H1. rewrite Ep, list_lookup_fmap in H1.
    destruct (petals m !! i) as [p|]; [|discriminate].
    cbn in H1. injection H1 as <-. exists p. split; [reflexivity|].
    split; reflexivity. }
  split; [rewrite Et, length_fmap; exact Hlen|].
  split; [exact HT|].
  split.
  { rewrite Ht2, Hus. apply drop_ge. rewrite Et, length_fmap. lia. }
  split; [congruence|].
  intros i p2 H2. rewrite Hp2, Ep, list_lookup_fmap in H2.
  destruct (petals m !! i) as [p|] eqn:Ei; [|discriminate].
  cbn in H2. apply lookup_lt_Some in Ei.
  destruct (decide (i < List.length us)%nat) as [_|N]; [|lia].
  injection H2 as <-. reflexivity.
Qed.

Lemma center_bloom_pulses_every_petal_witness :
  let m1 := triggerAllBloom 10000 (new 0 0 100 (fun _ _ => 0.5)) in
  timers (runTimers (replicate 36 0) m1) = []
  /\ log (runTimers (replicate 36 0) m1) = [].
Proof.
  intros m1.
  destruct (center_bloom_pulses_every_petal 0 0 100 (fun _ _ => 0.5) []
              10000 (replicate 36 0)) as (_ & _ & _ & T & L & _).
  - reflexivity.
  - reflexivity.
  - split; [exact T | exact L].
Defined.

End SequentialBloomSpec.

Module StemSpec.
Import Stem.
Local Open Scope R_scope.

Lemma for_each_inv {S : Type} (P : S -> Prop)
    (body : nat -> S -> outcome S) (idx : list nat) :
  (forall i s, i ∈ idx -> P s -> exists s', body i s = Returned s' /\ P s') ->
  forall s, P s -> exists s', for_each body idx s = Returned s' /\ P s'.
Proof.
  induction idx as [|i idx IH]; intros Hbody s Hs; cbn [for_each].
  { eauto. }
  destruct (Hbody i s) as (s1 & E1 & H1); [left | exact Hs |].
  rewrite E1. cbn [bind]. apply IH; [|exact H1].
  intros j s2 Hj. apply Hbody. now right.
Qed.

Lemma at_index_lt {A : Type} (l : list A) (i : nat) :
  (i < List.length l)%nat ->
  exists a, at_index l i = Returned a /\ l !! i = Some a.
Proof.
  intros H. unfold at_index.
  destruct (lookup_lt_is_Some_2 l i H) as [a ->]. eauto.
Qed.

Lemma applyForces_shape dt time wind s a b i segs :
  (i < List.length segs)%nat ->
  exists segs', applyForces dt time (Some wind) s a b i segs = Returned segs'
                /\ List.length segs' = List.length segs.
Proof.
  intros Hi. unfold applyForces. cbn [defined bind].
  destruct (at_index_lt segs i Hi) as (seg & -> & _). cbn [bind].
  eexists. split; [reflexivity | apply length_insert].
Qed.

Lemma applyConstraint_shape s len i segs :
  (i < List.length segs)%nat ->
  exists segs', applyConstraint s len i segs = Returned segs'
                /\ List.length segs' = List.length segs.
Proof.
  intros Hi. unfold applyConstraint.
  destruct (at_index_lt segs i Hi) as (seg & -> & _). cbn [bind].
  destruct (at_index_lt segs (i - 1)) as (prev & -> & _); [lia|].
  cbn [bind]. eexists. split; [reflexivity | apply length_insert].
Qed.

Lemma updateLeaves_returns segs act wave ls :
  (act < List.length segs)%nat ->
  exists ls', updateLeaves segs act wave ls = Returned ls'.
Proof.
  intros Hact. induction ls as [|leaf ls [ls' IH]]; cbn [updateLeaves].
  { eauto. }
  assert (E : exists leaf', updateLeaf segs act wave leaf = Returned leaf').
  { unfold updateLeaf. destruct (Rle_dec _ _); [eauto|].
    destruct (at_index_lt segs (Nat.min (Leaf.segmentIndex leaf) act))
      as (seg & -> & _); [lia|].
    cbn [bind]. eauto. }
  destruct E as [leaf' ->]. cbn [bind]. rewrite IH. cbn [bind]. eauto.
Qed.

Lemma active_segments_bound (g : R) :
  0 <= g <= 1 ->
  (Z.to_nat (JSMath.ceil (INR 8 * g)) <= 8)%nat
  /\ (0 < g -> (1 <= Z.to_nat (JSMath.ceil (INR 8 * g)))%nat).
Proof.
  intros [H0 H1]. unfold JSMath.ceil.
  replace (INR 8) with 8 by (simpl; ring).
  destruct (Zceil_bound (8 * g)) as [B1 B2].
  split.
  - assert (Zceil (8 * g) < 9)%Z by (apply lt_IZR; lra). lia.
  - intros Hg. assert (0 < Zceil (8 * g))%Z by (apply lt_IZR; lra). lia.
Qed.

Ltac run_for_each n :=
  match goal with
  | |- context [for_each ?body ?idx ?s0] =>
      let segs := fresh "segs" in
      let E := fresh "E" in
      let L := fresh "L" in
      destruct (for_each_inv (fun segs => List.length segs = n) body idx)
        with (s := s0) as (segs & E & L);
      [ | | rewrite E; cbn [bind] ]
  end.

(** X27.  An [update] with a wind vector on a visible stem of 9 segments
    whose growth lies in [0, 1] returns normally and keeps the stem in
    that shape: 9 segments, growth [min(1, growth + 0.35 * seconds)], and
    the first segment anchored at the origin.  Without a wind argument
    the same call throws as soon as one segment is active.
    [triggerSlowSway] also returns normally on such a stem. *)
Theorem stem_update_keeps_shape
    (s : t) (deltaTime : R) (wind : Vec2) (now : R) (rand : nat -> R) :
  visible s = true -> segmentCount s = 8%nat ->
  List.length (segments s) = 9%nat ->
  0 <= growthProgress s <= 1 -> 0 <= deltaTime ->
  (exists s',
     update deltaTime (Some wind) now s = Returned s'
     /\ visible s' = true /\ segmentCount s' = 8%nat
     /\ List.length (segments s') = 9%nat
     /\ growthProgress s'
        = Rmin 1 (growthProgress s + deltaTime * 0.001 * 0.35)
     /\ growthProgress s <= growthProgress s' <= 1
     /\ exists seg0, segments s' !! 0%nat = Some seg0
                     /\ Segment.x seg0 = 0 /\ Segment.y seg0 = 0)
  /\ (0 < growthProgress s + deltaTime ->
      update deltaTime None now s = Thrown)
  /\ (exists s',
        triggerSlowSway rand s = Returned s'
        /\ List.length (segments s') = 9%nat
        /\ slowMoActive s' = true /\ slowMoProgress s' = 0).
Proof.
  intros Hv Hc Hl Hg Hdt.
  set (g1 := Rmin 1 (growthProgress s + deltaTime * 0.001 * 0.35)).
  assert (Eg : (if Rlt_dec (growthProgress s) 1
                then Rmin 1 (growthProgress s + deltaTime * 0.001 * 0.35)
                else growthProgress s) = g1).
  { destruct (Rlt_dec _ _); [reflexivity|].
    unfold g1. rewrite Rmin_left; lra. }
  assert (Hg1 : 0 <= g1 <= 1 /\ growthProgress s <= g1).
  { unfold g1. repeat split; try (apply Rmin_glb; lra). apply Rmin_l. }
  destruct Hg1 as [Hg1 Hmono].
  destruct (active_segments_bound g1 Hg1) as [Hact Hact1].
  unfold update. rewrite Hv. cbn [negb]. unfold updateVisible. cbv zeta.
  rewrite Eg, Hc.
  set (act := Z.to_nat (JSMath.ceil (INR 8 * g1))) in *.
  split; [|split].
  - run_for_each 9%nat.
    { intros i segs' Hi Hs'. apply elem_of_seq in Hi.
      destruct (applyForces_shape (deltaTime * 0.001) (now * 0.001) wind s
                  (slowMoActive s
                   && negb (slowMoActive s
                            && JSMath.ltb 3
                                 (if slowMoActive s
                                  then slowMoProgress s + deltaTime * 0.001
                                  else slowMoProgress s)))
                  (if slowMoActive s
                      && JSMath.ltb 3
                           (if slowMoActive s
                            then slowMoProgress s + deltaTime * 0.001
                            else slowMoProgress s)
                   then 0
                   else if slowMoActive s
                        then slowMoProgress s + deltaTime * 0.001
                        else slowMoProgress s)
                  i segs') as (r & Er & Lr); [lia|].
      exists r. split; [exact Er | lia]. }
    { exact Hl. }
    run_for_each 9%nat.
    { intros i segs' Hi Hs'.
      assert (Hi' : (1 <= i < 1 + act)%nat).
      { rewrite !elem_of_app in Hi. rewrite !elem_of_seq in Hi. lia. }
      destruct (applyConstraint_shape s (height s / INR 8) i segs')
        as (r & Er & Lr); [lia|].
      exists r. split; [exact Er | lia]. }
    { exact L. }
    unfold anchor.
    destruct (at_index_lt segs0 0) as (seg0 & -> & _); [lia|]. cbn [bind].
    set (segs3 := <[ 0%nat := _ ]> segs0).
    assert (L3 : List.length segs3 = 9%nat)
      by (unfold segs3; rewrite length_insert; exact L0).
    destruct (at_index_lt segs3 act) as (top & -> & _); [lia|]. cbn [bind].
    match goal with
    | |- context [updateLeaves ?a ?b ?c ?d] =>
        destruct (updateLeaves_returns a b c d) as [ls' ->]; [lia|]
    end.
    cbn [bind]. eexists. split; [reflexivity|].
    cbn [set_motion set_growth visible segmentCount segments growthProgress].
    split; [exact Hv|]. split; [exact Hc|]. split; [exact L3|].
    split; [reflexivity|]. split; [lra|].
    eexists. split.
    + unfold segs3. apply list_lookup_insert_eq. lia.
    + cbn. auto.
  - intros Hpos.
    assert (0 < g1).
    { unfold g1. apply Rmin_glb_lt; lra. }
    specialize (Hact1 H).
    destruct act as [|act']; [lia|].
    cbn [seq for_each]. unfold applyForces at 1. cbn [defined bind].
    reflexivity.
  - unfold triggerSlowSway. rewrite Hc.
    run_for_each 9%nat.
    { intros i segs' Hi Hs'. apply elem_of_seq in Hi. cbn in Hi.
      destruct (at_index_lt segs' i) as (seg & -> & _); [lia|].
      cbn [bind]. eexists. split; [reflexivity|].
      rewrite length_insert. exact Hs'. }
    { exact Hl. }
    eexists. split; [reflexivity|].
    cbn [set_motion segments slowMoActive slowMoProgress]. auto.
Qed.

Lemma stem_update_keeps_shape_witness :
  exists s',
    update 16 (Some {| vx := 0.3; vy := 0 |}) 1000
      (startGrowth (new 400 500 200)) = Returned s'
    /\ List.length (segments s') = 9%nat.
Proof.
  destruct (stem_update_keeps_shape (startGrowth (new 400 500 200)) 16
              {| vx := 0.3; vy := 0 |} 1000 (fun _ => 0.5))
    as [(s' & E & _ & _ & L & _) _].
  - reflexivity.
  - reflexivity.
  - reflexivity.
  - cbn. lra.
  - lra.
  - exists s'. split; [exact E | exact L].
Defined.

(** *** Flower position *)

Lemma initSegments_top h :
  last (initSegments h 8)
  = Some {| Segment.x := 0; Segment.y := - INR 8 * (h / INR 8);
            Segment.prevX := 0; Segment.prevY := - INR 8 * (h / INR 8);
            Segment.velocityX := 0; Segment.velocityY := 0;
            Segment.flexibility := 0.3 + (INR 8 / INR 8) * 0.7 |}.
Proof. unfold initSegments. cbv zeta. now rewrite fmap_last. Qed.

Lemma initSegments_lookup h i :
  (i <= 8)%nat ->
  initSegments h 8 !! i
  = Some {| Segment.x := 0; Segment.y := - INR i * (h / INR 8);
            Segment.prevX := 0; Segment.prevY := - INR i * (h / INR 8);
            Segment.velocityX := 0; Segment.velocityY := 0;
            Segment.flexibility := 0.3 + (INR i / INR 8) * 0.7 |}.
Proof.
  intros Hi. unfold initSegments. cbv zeta.
  rewrite list_lookup_fmap, lookup_seq_lt by lia. reflexivity.
Qed.

Lemma undisturbed_position_raw s :
  0 < height s ->
  segments s = initSegments (height s) 8 ->
  getFlowerPosition s
  = (baseX s + 0 * growthProgress s,
     baseY s + - INR 8 * (height s / INR 8) * growthProgress s,
     0 * 0.6).
Proof.
  intros Hh Hs.
  assert (Hl : List.length (segments s) = 9%nat).
  { rewrite Hs. unfold initSegments. cbv zeta.
    now rewrite length_fmap, length_seq. }
  assert (E8 : INR 8 = 8) by (simpl; ring).
  assert (E7 : INR 7 = 7) by (simpl; ring).
  unfold getFlowerPosition. rewrite Hl. cbn [Nat.leb Nat.sub].
  rewrite Hs, initSegments_top, (initSegments_lookup _ 7) by lia.
  cbn [Segment.x Segment.y]. cbv zeta.
  f_equal. f_equal.
  unfold JSMath.atan2_neg, JSMath.atan2. rewrite E8, E7.
  destruct (Req_dec_T _ 0) as [Z|Z]; [exfalso; lra|].
  destruct (Rlt_dec 0 _) as [L|L]; [|lra].
  replace ((0 - 0) / _) with 0 by (field; lra).
  apply atan_0.
Qed.

(** X28.  A stem whose segments are as [initSegments] left them holds the
    flower straight above its base: it has 9 segments with flexibility
    [0.3 + 0.7 * i / 8], from 0.3 at the base to 1 at the top, and
    [getFlowerPosition] returns x = baseX, y = baseY - height *
    growthProgress and angle 0; so the new stem, at growth 0, puts the
    flower at the base.  With no segments at all the position is
    (baseX, baseY - height) with angle 0. *)
Theorem undisturbed_stem_flower_position (s : t) :
  0 < height s ->
  (segments s = initSegments (height s) 8 ->
   List.length (segments s) = 9%nat
   /\ (forall i seg, segments s !! i = Some seg ->
         0.3 <= Segment.flexibility seg <= 1
         /\ Segment.flexibility seg = 0.3 + INR i / 8 * 0.7)
   /\ fst (fst (getFlowerPosition s)) = baseX s
   /\ snd (fst (getFlowerPosition s))
      = baseY s - height s * growthProgress s
   /\ snd (getFlowerPosition s) = 0)
  /\ (segments s = [] ->
      getFlowerPosition s = (baseX s, baseY s - height s, 0)).
Proof.
  intros Hh. split.
  - intros Hs.
    assert (Hl : List.length (segments s) = 9%nat).
    { rewrite Hs. unfold initSegments. cbv zeta.
      now rewrite length_fmap, length_seq. }
    assert (E8 : INR 8 = 8) by (simpl; ring).
    split; [exact Hl|]. split.
    { intros i seg Hi.
      assert (Hi' : (i <= 8)%nat) by (apply lookup_lt_Some in Hi; lia).
      rewrite Hs, (initSegments_lookup _ i Hi') in Hi.
      injection Hi as <-. cbn [Segment.flexibility].
      assert (0 <= INR i <= 8).
      { split; [apply pos_INR|]. rewrite <- E8. apply le_INR, Hi'. }
      split; lra. }
    rewrite (undisturbed_position_raw s Hh Hs). cbn [fst snd].
    rewrite E8. split; [ring|]. split; [field | ring].
  - intros Hs. unfold getFlowerPosition. now rewrite Hs.
Qed.

Lemma undisturbed_stem_flower_position_witness :
  fst (fst (getFlowerPosition (new 400 500 200))) = 400
  /\ snd (fst (getFlowerPosition (new 400 500 200))) = 500 - 200 * 0
  /\ snd (getFlowerPosition (new 400 500 200)) = 0.
Proof.
  destruct (undisturbed_stem_flower_position (new 400 500 200)) as [H _].
  - cbn. lra.
  - destruct H as (_ & _ & E); [reflexivity | exact E].
Defined.

End StemSpec.

Module CorePulseSpec.
Import CorePulse.
Local Open Scope R_scope.

Lemma core_history_cons o ops c :
  history (o :: ops) c = history ops (apply o c).
Proof. reflexivity. Qed.

(** *** Hover state *)

Lemma apply_hover_fields o c :
  match o with
  | OpSetHovered true cursorX cursorY rand =>
      orbitActive (apply o c) = true
      /\ targetGlow (apply o c) = 0.4
      /\ breathingDepth (apply o c) = 1.5
      /\ magnetOffset (apply o c)
         = {| vx := (cursorX - x c) * 0.02; vy := (cursorY - y c) * 0.02 |}
      /\ (orbitActive c = true ->
          orbitParticles (apply o c) = orbitParticles c)
      /\ (orbitActive c = false ->
          List.length (orbitParticles (apply o c)) = 6%nat)
      /\ glowIntensity (apply o c) = glowIntensity c
  | OpSetHovered false _ _ _ =>
      orbitActive (apply o c) = false
      /\ targetGlow (apply o c) = 0
      /\ breathingDepth (apply o c) = 1
      /\ magnetOffset (apply o c) = {| vx := 0; vy := 0 |}
      /\ glowIntensity (apply o c) = glowIntensity c
  | OpUpdate deltaTime _ =>
      orbitActive (apply o c) = orbitActive c
      /\ targetGlow (apply o c) = targetGlow c
      /\ breathingDepth (apply o c) = breathingDepth c
      /\ (if visible c
          then magnetOffset (apply o c)
               = {| vx := vx (magnetOffset c) * 0.95;
                    vy := vy (magnetOffset c) * 0.95 |}
               /\ glowIntensity (apply o c)
                  = Utils.lerp (glowIntensity c) (targetGlow c) 0.1
               /\ (orbitActive c = true ->
                   List.length (orbitParticles (apply o c))
                   = List.length (orbitParticles c))
          else apply o c = c)
  | _ =>
      orbitActive (apply o c) = orbitActive c
      /\ targetGlow (apply o c) = targetGlow c
      /\ breathingDepth (apply o c) = breathingDepth c
      /\ magnetOffset (apply o c) = magnetOffset c
      /\ orbitParticles (apply o c) = orbitParticles c
      /\ glowIntensity (apply o c) = glowIntensity c
  end.
Proof.
  destruct o; cbn [apply]; try (repeat split; reflexivity).
  - destruct hovered.
    + unfold setHovered, startOrbit. cbv zeta.
      cbn [set_hover orbitActive targetGlow breathingDepth magnetOffset
           orbitParticles glowIntensity x y].
      destruct (orbitActive c) eqn:E;
        cbn [set_hover orbitActive targetGlow breathingDepth magnetOffset
             orbitParticles glowIntensity x y];
        repeat split; try reflexivity; try discriminate.
    + repeat split; reflexivity.
  - unfold update. destruct (visible c) eqn:E; cbn [negb];
      [|repeat split; reflexivity].
    unfold updateVisible. cbv zeta.
    cbn [orbitActive targetGlow breathingDepth magnetOffset glowIntensity
         orbitParticles].
    repeat split; try reflexivity.
    intros Ha. rewrite Ha. now rewrite length_fmap.
Qed.

(** X29.  The hover state of the core is consistent over every history of
    calls made by the flower: while the orbit is active (the core is
    hovered) the glow target is 0.4, the breathing depth 1.5 and there
    are 6 orbit particles; otherwise the glow target is 0, the breathing
    depth 1 and the magnet offset is exactly (0, 0).  The glow intensity
    stays in [0, 0.4]. *)
Theorem core_hover_state_consistent
    (x0 y0 radius0 : R) (rand : nat -> nat -> R) (ops : list op) :
  let c := history ops (new x0 y0 radius0 rand) in
  (orbitActive c = true ->
   targetGlow c = 0.4 /\ breathingDepth c = 1.5
   /\ List.length (orbitParticles c) = 6%nat)
  /\ (orbitActive c = false ->
      targetGlow c = 0 /\ breathingDepth c = 1
      /\ magnetOffset c = {| vx := 0; vy := 0 |})
  /\ 0 <= glowIntensity c <= 0.4.
Proof.
  intros c. unfold c.
  assert (H0 : let c := new x0 y0 radius0 rand in
               (orbitActive c = true ->
                targetGlow c = 0.4 /\ breathingDepth c = 1.5
                /\ List.length (orbitParticles c) = 6%nat)
               /\ (orbitActive c = false ->
                   targetGlow c = 0 /\ breathingDepth c = 1
                   /\ magnetOffset c = {| vx := 0; vy := 0 |})
               /\ 0 <= glowIntensity c <= 0.4).
  { cbn. split; [discriminate|]. split; [auto | lra]. }
  revert H0. generalize (new x0 y0 radius0 rand).
  induction ops as [|o ops IH]; intros c0 H0; [exact H0|].
  rewrite core_history_cons. apply IH. cbv zeta in *.
  destruct H0 as (HA & HI & HG).
  pose proof (apply_hover_fields o c0) as E.
  destruct o.
  1-2, 4-6: destruct E as (-> & -> & -> & -> & -> & ->); auto.
  - destruct hovered.
    + destruct E as (-> & -> & -> & _ & Ekeep & Enew & ->).
      split; [|split; [discriminate | exact HG]].
      intros _. split; [reflexivity|]. split; [reflexivity|].
      destruct (orbitActive c0) eqn:Ea.
      * rewrite Ekeep by reflexivity. apply HA. reflexivity.
      * apply Enew. reflexivity.
    + destruct E as (-> & -> & -> & -> & ->).
      split; [discriminate|]. split; [auto | exact HG].
  - destruct E as (-> & -> & -> & E).
    destruct (visible c0).
    + destruct E as (-> & -> & El). unfold Utils.lerp.
      split; [|split].
      * intros Ha. destruct (HA Ha) as (T & B & L).
        split; [exact T|]. split; [exact B|]. rewrite El by exact Ha.
        exact L.
      * intros Ha. destruct (HI Ha) as (T & B & M).
        split; [exact T|]. split; [exact B|]. rewrite M. cbn.
        f_equal; lra.
      * destruct (orbitActive c0) eqn:Ea.
        -- destruct (HA eq_refl) as (T & _). rewrite T. lra.
        -- destruct (HI eq_refl) as (T & _). rewrite T. lra.
    + rewrite E. auto.
Qed.

(** *** Shimmer *)

Lemma apply_shimmer_fields o c :
  match o with
  | OpTriggerClick =>
      shimmerActive (apply o c) = true
      /\ shimmerProgress (apply o c) = 0
      /\ List.length (shimmerParticles (apply o c)) = 12%nat
      /\ visible (apply o c) = visible c
  | OpUpdate deltaTime _ =>
      if visible c && shimmerActive c
      then
        let progress := shimmerProgress c + deltaTime / TIMING.shimmerDuration in
        visible (apply o c) = true
        /\ if Rle_dec 1 progress
           then shimmerActive (apply o c) = false
                /\ shimmerParticles (apply o c) = []
           else shimmerActive (apply o c) = true
                /\ shimmerProgress (apply o c) = progress
                /\ List.length (shimmerParticles (apply o c))
                   = List.length (shimmerParticles c)
                /\ Forall (fun p => ShimmerParticle.alpha p = 1 - progress)
                     (shimmerParticles (apply o c))
      else shimmerActive (apply o c) = shimmerActive c
           /\ shimmerProgress (apply o c) = shimmerProgress c
           /\ shimmerParticles (apply o c) = shimmerParticles c
  | _ =>
      shimmerActive (apply o c) = shimmerActive c
      /\ shimmerProgress (apply o c) = shimmerProgress c
      /\ shimmerParticles (apply o c) = shimmerParticles c
  end.
Proof.
  destruct o; cbn [apply]; try (repeat split; reflexivity).
  - destruct hovered; unfold setHovered, startOrbit; cbv zeta;
      cbn [set_hover orbitActive];
      try destruct (orbitActive c); repeat split; reflexivity.
  - unfold update. destruct (visible c) eqn:E; cbn [negb andb];
      [|repeat split; reflexivity].
    unfold updateVisible, JSMath.leb. cbv zeta.
    cbn [shimmerActive shimmerProgress shimmerParticles visible].
    destruct (shimmerActive c); cbn [andb]; [|repeat split; reflexivity].
    split; [exact E|].
    destruct (Rle_dec _ _); cbn [negb]; [split; reflexivity|].
    split; [reflexivity|]. split; [reflexivity|].
    split; [apply length_fmap|].
    apply Forall_fmap, Forall_true. intros p. reflexivity.
Qed.

Lemma triggerClick_particles c :
  shimmerParticles (apply OpTriggerClick c)
  = (fun i : nat =>
       {| ShimmerParticle.angle := (INR i / 12) * PI * 2;
          ShimmerParticle.distance := radius c * 0.5;
          ShimmerParticle.targetDistance := radius c * 1.5;
          ShimmerParticle.alpha := 1 |}) <$> seq 0 12.
Proof. reflexivity. Qed.

(** X30.  The shimmer of the core is well formed over every history with
    non-negative frame times: while it is active there are 12 particles
    and its progress lies in [0, 1); once it is over there are no
    particles left.  A click starts a shimmer: it is active at progress
    0 with 12 particles at half the radius, heading for 1.5 times the
    radius, at full alpha.  On a visible core an update with less than
    [shimmerDuration] = 300 ms of frame time keeps it active, with
    progress [deltaTime / 300] and particle alpha [1 - progress]; an
    update with 300 ms or more ends it and removes the particles. *)
Theorem shimmer_life_cycle
    (x0 y0 radius0 : R) (rand : nat -> nat -> R) (ops : list op)
    (deltaTime : R) (music : option R) :
  Forall frame_nonneg ops ->
  let c := history ops (new x0 y0 radius0 rand) in
  let c1 := apply OpTriggerClick c in
  let c2 := apply (OpUpdate deltaTime music) c1 in
  (shimmerActive c = true ->
   List.length (shimmerParticles c) = 12%nat /\ 0 <= shimmerProgress c < 1)
  /\ (shimmerActive c = false -> shimmerParticles c = [])
  /\ (shimmerActive c1 = true /\ shimmerProgress c1 = 0
      /\ List.length (shimmerParticles c1) = 12%nat
      /\ Forall (fun p => ShimmerParticle.distance p = radius c * 0.5
                          /\ ShimmerParticle.targetDistance p = radius c * 1.5
                          /\ ShimmerParticle.alpha p = 1)
           (shimmerParticles c1))
  /\ (visible c = true -> 0 <= deltaTime < TIMING.shimmerDuration ->
      shimmerActive c2 = true
      /\ shimmerProgress c2 = deltaTime / TIMING.shimmerDuration
      /\ List.length (shimmerParticles c2) = 12%nat
      /\ Forall (fun p => ShimmerParticle.alpha p
                          = 1 - deltaTime / TIMING.shimmerDuration)
           (shimmerParticles c2))
  /\ (visible c = true -> TIMING.shimmerDuration <= deltaTime ->
      shimmerActive c2 = false /\ shimmerParticles c2 = []).
Proof.
  intros Hf c c1 c2.
  assert (Hinv : (shimmerActive c = true ->
                  List.length (shimmerParticles c) = 12%nat
                  /\ 0 <= shimmerProgress c < 1)
                 /\ (shimmerActive c = false -> shimmerParticles c = [])).
  { unfold c.
    assert (H0 : let c := new x0 y0 radius0 rand in
                 (shimmerActive c = true ->
                  List.length (shimmerParticles c) = 12%nat
                  /\ 0 <= shimmerProgress c < 1)
                 /\ (shimmerActive c = false -> shimmerParticles c = [])).
    { cbn. split; [discriminate | auto]. }
    revert H0. generalize (new x0 y0 radius0 rand).
    induction Hf as [|o ops Ho Hf IH]; intros c0 H0; [exact H0|].
    rewrite core_history_cons. apply IH. cbv zeta in *.
    destruct H0 as (HA & HI).
    pose proof (apply_shimmer_fields o c0) as E.
    destruct o.
    1-3, 5-6: destruct E as (-> & -> & ->); auto.
    - destruct E as (-> & -> & L & _).
      split; [|discriminate]. intros _. split; [exact L | lra].
    - cbn [frame_nonneg] in Ho.
      destruct (visible c0 && shimmerActive c0) eqn:Eva;
        [|destruct E as (-> & -> & ->); auto].
      apply andb_true_iff in Eva as [_ Ea].
      destruct (HA Ea) as (L & P0 & P1).
      cbv zeta in E. destruct E as (_ & E).
      unfold TIMING.shimmerDuration in *.
      destruct (Rle_dec _ _) as [D|D].
      + destruct E as (-> & ->). split; [discriminate | auto].
      + destruct E as (-> & -> & -> & _).
        split; [|discriminate]. intros _. split; [exact L|].
        lra. }
  destruct Hinv as (HA & HI).
  split; [exact HA|]. split; [exact HI|].
  pose proof (apply_shimmer_fields OpTriggerClick c) as (A & P & L & V).
  fold c1 in A, P, L, V.
  split.
  { split; [exact A|]. split; [exact P|]. split; [exact L|].
    unfold c1. rewrite triggerClick_particles.
    apply Forall_fmap, Forall_true. intros i. cbn. auto. }
  pose proof (apply_shimmer_fields (OpUpdate deltaTime music) c1) as E.
  fold c2 in E.
  split.
  - intros Hv Hdt. rewrite V, Hv, A in E. cbn [andb] in E. cbv zeta in E.
    destruct E as (_ & E). rewrite P in E.
    unfold TIMING.shimmerDuration in *.
    destruct (Rle_dec _ _) as [D|D]; [lra|].
    destruct E as (E1 & E2 & E3 & E4).
    split; [exact E1|]. split; [rewrite E2; lra|].
    split; [rewrite E3; exact L|].
    eapply Forall_impl; [exact E4|]. cbn. intros p ->. lra.
  - intros Hv Hdt. rewrite V, Hv, A in E. cbn [andb] in E. cbv zeta in E.
    destruct E as (_ & E). rewrite P in E.
    unfold TIMING.shimmerDuration in *.
    destruct (Rle_dec _ _) as [D|D]; [exact E | lra].
Qed.

Lemma shimmer_life_cycle_witness :
  let c := history [OpStartFill; OpUpdate 16 None]
             (new 0 0 25 (fun _ _ => 0.5)) in
  let c1 := apply OpTriggerClick c in
  shimmerActive (apply (OpUpdate 150 None) c1) = true
  /\ shimmerProgress (apply (OpUpdate 150 None) c1)
     = 150 / TIMING.shimmerDuration
  /\ shimmerActive (apply (OpUpdate 320 None) c1) = false
  /\ shimmerParticles (apply (OpUpdate 320 None) c1) = [].
Proof.
  intros c c1.
  assert (Hf : Forall frame_nonneg [OpStartFill; OpUpdate 16 None]).
  { repeat (apply Forall_cons_2; [cbn; lra || exact I|]). apply Forall_nil_2. }
  destruct (shimmer_life_cycle 0 0 25 (fun _ _ => 0.5)
              [OpStartFill; OpUpdate 16 None] 150 None Hf)
    as (_ & _ & _ & Hrun & _).
  destruct (shimmer_life_cycle 0 0 25 (fun _ _ => 0.5)
              [OpStartFill; OpUpdate 16 None] 320 None Hf)
    as (_ & _ & _ & _ & Hend).
  destruct Hrun as (A & P & _);
    [reflexivity | unfold TIMING.shimmerDuration; lra |].
  destruct Hend as (A' & P');
    [reflexivity | unfold TIMING.shimmerDuration; lra |].
  repeat split; assumption.
Defined.

End CorePulseSpec.
